(** * Infinite Undo: the versioned, content-addressed file store

    A shallow embedding of [InfiniteUndoService]
    (src/server/services/infinite_undo.py) and of the SQL it sends to the
    [file_versions] table, with the properties of the version history that
    the specification states.

    Modelling boundary.
    - The catalog is the table [file_versions], a list of rows in insertion
      order.  Each query of the service is a function over that list.
    - The file system is a finite map from path strings to the bytes of
      regular files.  Directories, permissions and symbolic links are not
      part of the state; [os.makedirs] is modelled by the one failure that
      its argument alone decides (the empty name).
    - Exceptions are values of a small state-and-error monad: an exception
      keeps the state reached so far, as in Python.
    - The columns [id] and [timestamp] are filled by the database (their
      defaults are not in the sources); each insertion reads them from an
      explicit environment argument. *)

From Stdlib Require Import ZArith Ascii String List.
From Stdlib.Strings Require Import Byte.
From stdpp Require Import base tactics option list gmap strings sorting pretty.
From Stdlib Require Import Lia.

Set Warnings "-clear-no-such-hyp".

Local Open Scope Z_scope.

(** ** SHA-256 ([hashlib.sha256(...).hexdigest()]), FIPS 180-4, on 32-bit
    words kept as [Z] with the wrap-around written out. *)
Module SHA256.

Definition mask32 : Z := 0xFFFFFFFF.
Definition w32 (x : Z) : Z := Z.land x mask32.
Definition add32 (x y : Z) : Z := w32 (x + y).
Definition rotr (n x : Z) : Z :=
  w32 (Z.lor (Z.shiftr x n) (Z.shiftl x (32 - n))).
Definition shr (n x : Z) : Z := Z.shiftr x n.
Definition not32 (x : Z) : Z := Z.lxor x mask32.

Definition Ch (x y z : Z) : Z := Z.lxor (Z.land x y) (Z.land (not32 x) z).
Definition Maj (x y z : Z) : Z :=
  Z.lxor (Z.lxor (Z.land x y) (Z.land x z)) (Z.land y z).
Definition bsig0 (x : Z) : Z :=
  Z.lxor (Z.lxor (rotr 2 x) (rotr 13 x)) (rotr 22 x).
Definition bsig1 (x : Z) : Z :=
  Z.lxor (Z.lxor (rotr 6 x) (rotr 11 x)) (rotr 25 x).
Definition ssig0 (x : Z) : Z :=
  Z.lxor (Z.lxor (rotr 7 x) (rotr 18 x)) (shr 3 x).
Definition ssig1 (x : Z) : Z :=
  Z.lxor (Z.lxor (rotr 17 x) (rotr 19 x)) (shr 10 x).

(** The constants are the first 32 bits of the fractional parts of the cube
    roots (round constants) and square roots (initial hash value) of the
    first primes; they are computed here from that definition. *)
Definition is_prime (n : Z) : bool :=
  (1 <? n) && forallb (fun d => negb (n mod d =? 0))
                (map Z.of_nat (seq 2 (Z.to_nat n - 2))).

Definition first_primes (n : nat) : list Z :=
  firstn n (List.filter is_prime (map Z.of_nat (seq 2 310))).

(** The greatest [r] below [2 ^ bits] with [r ^ 3 <= n]. *)
Definition cube_root (bits : nat) (n : Z) : Z :=
  fold_left
    (fun r b => let r' := r + 2 ^ Z.of_nat b in if r' ^ 3 <=? n then r' else r)
    (rev (seq 0 bits)) 0.

Definition frac_cube_root (p : Z) : Z := w32 (cube_root 36 (p * 2 ^ 96)).

Definition frac_square_root (p : Z) : Z := w32 (Z.sqrt (p * 2 ^ 64)).

Definition K : list Z :=
  Eval vm_compute in map frac_cube_root (first_primes 64).

(** The eight working variables a..h, also the chaining value. *)
Record hstate : Type := HState {
  ha : Z; hb : Z; hc : Z; hd : Z; he : Z; hf : Z; hg : Z; hh : Z }.

Definition H0 : hstate :=
  Eval vm_compute in
    match map frac_square_root (first_primes 8) with
    | [a; b; c; d; e; f; g; h] => HState a b c d e f g h
    | _ => HState 0 0 0 0 0 0 0 0
    end.

(** Padding: a 1 bit, zeros up to 56 mod 64, the bit length on 8 bytes. *)
Definition be_bytes (n : nat) (x : Z) : list Z :=
  map (fun i => Z.land (Z.shiftr x (8 * Z.of_nat i)) 0xFF) (rev (seq 0 n)).

Definition pad (msg : list Z) : list Z :=
  let len := Z.of_nat (length msg) in
  let zeros := Z.to_nat ((55 - len) mod 64) in
  msg ++ [0x80] ++ repeat 0 zeros ++ be_bytes 8 (8 * len).

Fixpoint words_of_bytes (bs : list Z) : list Z :=
  match bs with
  | b0 :: b1 :: b2 :: b3 :: rest =>
      Z.lor (Z.shiftl b0 24)
        (Z.lor (Z.shiftl b1 16) (Z.lor (Z.shiftl b2 8) b3))
      :: words_of_bytes rest
  | _ => []
  end.

Fixpoint blocks (fuel : nat) (ws : list Z) : list (list Z) :=
  match fuel, ws with
  | S fuel', _ :: _ => firstn 16 ws :: blocks fuel' (skipn 16 ws)
  | _, _ => []
  end.

(** Message schedule: [extend n w] appends W_t for the next [n] indices. *)
Fixpoint extend (n : nat) (w : list Z) : list Z :=
  match n with
  | O => w
  | S n' =>
      let t := length w in
      let at_ (k : nat) := nth (t - k) w 0 in
      extend n'
        (w ++ [add32 (add32 (ssig1 (at_ 2%nat)) (at_ 7%nat))
                     (add32 (ssig0 (at_ 15%nat)) (at_ 16%nat))])
  end.

Definition round (s : hstate) (kw : Z * Z) : hstate :=
  let t1 := add32 (add32 (add32 (hh s) (bsig1 (he s)))
                         (add32 (Ch (he s) (hf s) (hg s)) (fst kw)))
                  (snd kw) in
  let t2 := add32 (bsig0 (ha s)) (Maj (ha s) (hb s) (hc s)) in
  HState (add32 t1 t2) (ha s) (hb s) (hc s)
         (add32 (hd s) t1) (he s) (hf s) (hg s).

Definition compress (h : hstate) (block : list Z) : hstate :=
  let s := fold_left round (combine K (extend 48 block)) h in
  HState (add32 (ha h) (ha s)) (add32 (hb h) (hb s))
         (add32 (hc h) (hc s)) (add32 (hd h) (hd s))
         (add32 (he h) (he s)) (add32 (hf h) (hf s))
         (add32 (hg h) (hg s)) (add32 (hh h) (hh s)).

Definition digest (msg : list byte) : hstate :=
  let ws := words_of_bytes (pad (map (fun b => Z.of_N (Byte.to_N b)) msg)) in
  fold_left compress (blocks (length ws) ws) H0.

Definition hex_digit (x : Z) : ascii :=
  let d := Z.land x 0xF in
  ascii_of_N (Z.to_N (if d <? 10 then 48 + d else 87 + d)).

(** Eight lowercase hexadecimal digits of a word, then [rest]. *)
Definition hex32 (x : Z) (rest : string) : string :=
  String (hex_digit (Z.shiftr x 28)) (String (hex_digit (Z.shiftr x 24))
  (String (hex_digit (Z.shiftr x 20)) (String (hex_digit (Z.shiftr x 16))
  (String (hex_digit (Z.shiftr x 12)) (String (hex_digit (Z.shiftr x 8))
  (String (hex_digit (Z.shiftr x 4)) (String (hex_digit x) rest))))))).

Definition hexdigest (msg : list byte) : string :=
  let s := digest msg in
  hex32 (ha s) (hex32 (hb s) (hex32 (hc s) (hex32 (hd s)
  (hex32 (he s) (hex32 (hf s) (hex32 (hg s) (hex32 (hh s) ""))))))).

End SHA256.

Definition bytes_of (s : string) : list byte := list_byte_of_string s.

(** ** posixpath: [os.path.join] and [os.path.dirname] *)

Definition slash : ascii := "/"%char.

Definition startswith_slash (s : string) : bool :=
  match s with
  | String c _ => bool_decide (c = slash)
  | EmptyString => false
  end.

Fixpoint endswith_slash (s : string) : bool :=
  match s with
  | EmptyString => false
  | String c EmptyString => bool_decide (c = slash)
  | String _ s' => endswith_slash s'
  end.

(** [posixpath.join(a, b)]: an absolute [b] replaces [a]; a separator is
    added unless [a] is empty or already ends with one. *)
Definition os_path_join (a b : string) : string :=
  if startswith_slash b then b
  else if bool_decide (a = EmptyString) || endswith_slash a then a +:+ b
  else a +:+ "/" +:+ b.

Fixpoint has_slash (s : string) : bool :=
  match s with
  | EmptyString => false
  | String c s' => bool_decide (c = slash) || has_slash s'
  end.

(** [p[:p.rfind('/') + 1]] *)
Fixpoint upto_last_slash (s : string) : string :=
  match s with
  | EmptyString => EmptyString
  | String c s' =>
      if has_slash s' then String c (upto_last_slash s')
      else if bool_decide (c = slash) then String c EmptyString
      else EmptyString
  end.

Fixpoint all_slashes (s : string) : bool :=
  match s with
  | EmptyString => true
  | String c s' => bool_decide (c = slash) && all_slashes s'
  end.

(** [head.rstrip('/')] *)
Fixpoint rstrip_slash (s : string) : string :=
  match s with
  | EmptyString => EmptyString
  | String c s' =>
      if all_slashes (String c s') then EmptyString
      else String c (rstrip_slash s')
  end.

Definition os_path_dirname (p : string) : string :=
  let head := upto_last_slash p in
  if negb (bool_decide (head = EmptyString)) && negb (all_slashes head)
  then rstrip_slash head
  else head.

(** ** The catalog: rows of the table [file_versions] *)

Definition UUID : Type := N.

(** Timestamps are microseconds since the epoch. *)
Definition microseconds_per_day : Z := 86400000000.

(** The [metadata] argument of [record_version] is a Python dict; the two
    call sites pass [None] or [{"restored_from_version": n}].  The column
    keeps its JSON text, which is one-to-one with such a dict. *)
Definition Metadata : Type := list (string * Z).

Record VersionRow : Type := mkRow {
  version_id : UUID;                  (* column id *)
  file_path : string;
  version_number : Z;
  operation : string;
  content_hash : option string;
  storage_location : option string;
  file_size : Z;
  timestamp : Z;
  metadata : option Metadata
}.

#[global] Instance VersionRow_eq_dec : EqDecision VersionRow.
Proof. solve_decision. Defined.

(** The state the service acts on: the table and the regular files. *)
Record World : Type := mkWorld {
  catalog : list VersionRow;
  files : gmap string (list byte)
}.

(** What the database fills in on INSERT: [id] and [timestamp]. *)
Record DbDefaults : Type := mkDb {
  new_id : UUID;
  now : Z
}.

Record InfiniteUndoService : Type := mkService {
  storage_path : string
}.

(** ** A state-and-exception monad *)

Inductive exn : Type :=
| FileNotFoundError
| SameFileError.

Inductive outcome (A : Type) : Type :=
| Return (a : A)
| Raise (e : exn).
Arguments Return {A} a.
Arguments Raise {A} e.

Definition M (A : Type) : Type := World -> outcome A * World.

Definition ret {A : Type} (a : A) : M A := fun w => (Return a, w).

Definition raise {A : Type} (e : exn) : M A := fun w => (Raise e, w).

Definition bind {A B : Type} (m : M A) (k : A -> M B) : M B :=
  fun w =>
    match m w with
    | (Return a, w') => k a w'
    | (Raise e, w') => (Raise e, w')
    end.

(** [try: m except Exception as e: h e]; the state reached by [m] stays. *)
Definition try_except {A : Type} (m : M A) (h : exn -> M A) : M A :=
  fun w =>
    match m w with
    | (Return a, w') => (Return a, w')
    | (Raise e, w') => h e w'
    end.

Declare Scope undo_scope.
Delimit Scope undo_scope with undo.
Notation "x <~ m ;; k" := (bind m (fun x => k))
  (at level 100, m at next level, right associativity) : undo_scope.
Notation "m ;;; k" := (bind m (fun _ => k))
  (at level 100, right associativity) : undo_scope.
Local Open Scope undo_scope.

Definition get_catalog : M (list VersionRow) := fun w => (Return (catalog w), w).

Definition get_files : M (gmap string (list byte)) :=
  fun w => (Return (files w), w).

Definition db_insert (r : VersionRow) : M unit :=
  fun w => (Return tt, mkWorld (catalog w ++ [r]) (files w)).

Definition db_replace (rows : list VersionRow) : M unit :=
  fun w => (Return tt, mkWorld rows (files w)).

Definition fs_write (p : string) (c : list byte) : M unit :=
  fun w => (Return tt, mkWorld (catalog w) (<[p := c]> (files w))).

(** ** The operating-system calls the service makes *)

Definition os_path_exists (p : string) : M bool :=
  fs <~ get_files ;; ret (bool_decide (is_Some (fs !! p))).

(** Guarded by [os.path.exists] in the service. *)
Definition os_path_getsize (p : string) : M Z :=
  fs <~ get_files ;;
  match fs !! p with
  | Some c => ret (Z.of_nat (length c))
  | None => raise FileNotFoundError
  end.

(** [os.makedirs(name, exist_ok=True)] *)
Definition os_makedirs (name : string) : M unit :=
  if bool_decide (name = EmptyString) then raise FileNotFoundError else ret tt.

(** [shutil.copy2(src, dst)] between regular files. *)
Definition shutil_copy2 (src dst : string) : M unit :=
  fs <~ get_files ;;
  match fs !! src with
  | None => raise FileNotFoundError
  | Some c =>
      if bool_decide (src = dst) then raise SameFileError else fs_write dst c
  end.

(** ** SQL building blocks over the table *)

Section Sorting.
Context {A : Type} (before : A -> A -> bool).

Fixpoint insert_by (x : A) (l : list A) : list A :=
  match l with
  | [] => [x]
  | y :: l' => if before x y then x :: y :: l' else y :: insert_by x l'
  end.

(** ORDER BY as a stable sort of the table scan: among rows that compare
    equal, the one met first in the table comes first. *)
Fixpoint sort_by (l : list A) : list A :=
  match l with
  | [] => []
  | x :: l' => insert_by x (sort_by l')
  end.

End Sorting.

(** [ORDER BY key DESC] *)
Definition desc (key : VersionRow -> Z) (r1 r2 : VersionRow) : bool := key r2 <=? key r1.

(** [ORDER BY file_path, version_number DESC]; paths compare byte by byte
    (the database's collation is not in the sources). *)
Definition path_then_version_desc (r1 r2 : VersionRow) : bool :=
  if bool_decide (file_path r1 = file_path r2)
  then version_number r2 <=? version_number r1
  else String.leb (file_path r1) (file_path r2).

(** [MAX(col)] over the selected rows; NULL on no rows. *)
Definition sql_max (xs : list Z) : option Z :=
  match xs with
  | [] => None
  | x :: xs' => Some (fold_left Z.max xs' x)
  end.

(** Paths are Python [str] values; they are kept here as their UTF-8 bytes,
    the form in which PostgreSQL stores and matches them.  A byte
    [10xxxxxx] continues the character begun before it. *)
Definition is_continuation (c : ascii) : bool :=
  let n := N_of_ascii c in ((128 <=? n) && (n <? 192))%N.

(** [s] from the start of its next character on. *)
Fixpoint skip_continuation (s : string) : string :=
  match s with
  | EmptyString => EmptyString
  | String c s' => if is_continuation c then skip_continuation s' else s
  end.

(** [s] begins at the start of a character (or is empty). *)
Definition at_char_start (s : string) : bool :=
  match s with
  | EmptyString => true
  | String c _ => negb (is_continuation c)
  end.

(** [s LIKE pat]: [%] matches any run of characters, [_] any one character
    (all the bytes of its UTF-8 sequence), a backslash makes the next
    pattern character literal.  (PostgreSQL rejects a pattern that ends in a
    lone backslash; the one pattern built by the service ends in [%].) *)
Fixpoint sql_like (pat s : string) : bool :=
  match pat with
  | EmptyString => bool_decide (s = EmptyString)
  | String c pat' =>
      if bool_decide (c = "%"%char) then
        (fix any_suffix (s : string) : bool :=
           at_char_start s && sql_like pat' s
           || match s with
              | EmptyString => false
              | String _ s' => any_suffix s'
              end) s
      else if bool_decide (c = "_"%char) then
        match s with
        | EmptyString => false
        | String _ s' => sql_like pat' (skip_continuation s')
        end
      else if bool_decide (c = "\"%char) then
        match pat', s with
        | String e pat'', String d s' => bool_decide (e = d) && sql_like pat'' s'
        | _, _ => false
        end
      else
        match s with
        | EmptyString => false
        | String d s' => bool_decide (c = d) && sql_like pat' s'
        end
  end.

(** [SELECT DISTINCT ON (file_path)]: of each run of rows with one
    [file_path], in the ORDER BY order, the first. *)
Fixpoint distinct_on_path (prev : option string) (rows : list VersionRow) : list VersionRow :=
  match rows with
  | [] => []
  | r :: rows' =>
      if bool_decide (prev = Some (file_path r))
      then distinct_on_path prev rows'
      else r :: distinct_on_path (Some (file_path r)) rows'
  end.

(** ** The queries of the service *)

(** [... FROM file_versions WHERE file_path = $1] *)
Definition rows_of (rows : list VersionRow) (path : string) : list VersionRow :=
  filter (fun r => file_path r = path) rows.

(** [SELECT id FROM file_versions WHERE file_path = $1 AND content_hash = $2
     ORDER BY version_number DESC LIMIT 1]; [content_hash = NULL] selects
    nothing. *)
Definition select_existing
    (rows : list VersionRow) (path : string) (hash : option string) : option UUID :=
  match hash with
  | None => None
  | Some h =>
      version_id <$>
        head (sort_by (desc version_number)
                (filter (fun r => file_path r = path /\ content_hash r = Some h)
                        rows))
  end.

(** [SELECT COALESCE(MAX(version_number), 0) FROM file_versions
     WHERE file_path = $1] *)
Definition select_current_version (rows : list VersionRow) (path : string) : Z :=
  default 0 (sql_max (version_number <$> rows_of rows path)).

(** [SELECT * FROM file_versions WHERE file_path = $1 AND version_number = $2] *)
Definition select_version
    (rows : list VersionRow) (path : string) (v : Z) : option VersionRow :=
  head (filter (fun r => file_path r = path /\ version_number r = v) rows).

(** [SELECT * FROM file_versions WHERE file_path = $1 AND timestamp <= $2
     ORDER BY timestamp DESC LIMIT 1] *)
Definition select_as_of
    (rows : list VersionRow) (path : string) (t : Z) : option VersionRow :=
  head (sort_by (desc timestamp)
          (filter (fun r => file_path r = path /\ timestamp r <= t) rows)).

(** [SELECT * FROM file_versions WHERE file_path = $1
     ORDER BY version_number DESC OFFSET 1 LIMIT 1] *)
Definition select_previous (rows : list VersionRow) (path : string) : option VersionRow :=
  sort_by (desc version_number) (rows_of rows path) !! 1%nat.

(** [SELECT ... FROM file_versions WHERE file_path = $1
     ORDER BY version_number DESC LIMIT $2 OFFSET $3] *)
Definition select_history
    (rows : list VersionRow) (path : string) (limit offset : nat) : list VersionRow :=
  take limit (drop offset (sort_by (desc version_number) (rows_of rows path))).

(** [SELECT DISTINCT ON (file_path) file_path, version_number, file_size,
     timestamp FROM file_versions WHERE file_path LIKE $1 AND timestamp <= $2
     ORDER BY file_path, version_number DESC] *)
Definition select_time_travel
    (rows : list VersionRow) (pattern : string) (t : Z) : list VersionRow :=
  distinct_on_path None
    (sort_by path_then_version_desc
       (filter (fun r => sql_like pattern (file_path r) = true /\ timestamp r <= t)
               rows)).

(** The WHERE clause of [to_delete] in [cleanup_old_versions]; the DELETE
    then takes the rows [WHERE id IN (SELECT id FROM to_delete)]:
    [timestamp < $1 AND version_number <
       (SELECT MAX(version_number) - $2 FROM file_versions v2
        WHERE v2.file_path = file_versions.file_path)] *)
Definition to_delete (rows : list VersionRow) (cutoff k : Z) (r : VersionRow) : Prop :=
  timestamp r < cutoff /\
  match sql_max (version_number <$> rows_of rows (file_path r)) with
  | Some m => version_number r < m - k
  | None => False
  end.

#[global] Instance to_delete_dec rows cutoff k r :
  Decision (to_delete rows cutoff k r).
Proof. unfold to_delete. destruct (sql_max _); apply _. Defined.

(** ** The service *)

(** The four messages of [UndoResponse]:
    - [NoVersionFound]   "No version found to restore"
    - [RestoredTo n]     f"Restored to version {n}"
    - [ContentNotFound]  "Version content not found in storage"
    - [ErrorRestoring e] f"Error restoring: {str(e)}" *)
Inductive Message : Type :=
| NoVersionFound
| RestoredTo (n : Z)
| ContentNotFound
| ErrorRestoring (e : exn).

Record UndoResponse : Type := mkUndoResponse {
  success : bool;
  response_file_path : string;
  restored_version : Z;
  message : Message
}.

(** One entry of the [files] list returned by [time_travel]. *)
Record FileEntry : Type := mkFileEntry {
  entry_file_path : string;
  entry_version : Z;
  entry_size : Z;
  entry_timestamp : Z
}.

Record TimeTravel : Type := mkTimeTravel {
  tt_directory : string;
  tt_as_of : Z;
  tt_files : list FileEntry;
  tt_file_count : Z
}.

(** [deleted_count or 0], where [deleted_count] is what [fetchval] gives for
    [DELETE ... RETURNING id]: the id of the first deleted row, or [None]. *)
Record CleanupReport : Type := mkCleanupReport {
  deleted_versions : UUID + Z;
  cutoff_date : Z
}.

(** Python truthiness of a [str] and of an [int]. *)
Definition truthy_str (s : string) : bool := negb (bool_decide (s = EmptyString)).

Definition truthy_int (n : Z) : bool := negb (bool_decide (n = 0)).

Definition _compute_hash (file_path : string) : M (option string) :=
  fs <~ get_files ;; ret (SHA256.hexdigest <$> fs !! file_path).

Definition _get_storage_path
    (self : InfiniteUndoService) (content_hash : string) : M string :=
  let subdir := substring 0 2 content_hash in
  let full_dir := os_path_join (storage_path self) subdir in
  os_makedirs full_dir ;;;
  ret (os_path_join full_dir content_hash).

(** [json.dumps(metadata) if metadata else None] *)
Definition metadata_json (metadata : option Metadata) : option Metadata :=
  match metadata with
  | Some (kv :: d) => Some (kv :: d)
  | _ => None
  end.

Definition record_version
    (self : InfiniteUndoService) (db : DbDefaults)
    (file_path operation : string) (metadata : option Metadata)
  : M (option UUID) :=
  try_except
    (content_hash <~ _compute_hash file_path ;;
     file_exists <~ os_path_exists file_path ;;
     file_size <~ (if file_exists then os_path_getsize file_path else ret 0) ;;
     rows <~ get_catalog ;;
     let existing := select_existing rows file_path content_hash in
     if bool_decide (is_Some existing)
        && negb (bool_decide (operation ∈ ["delete"; "rename"]))
     then ret existing
     else
       rows <~ get_catalog ;;
       let current_version := select_current_version rows file_path in
       let next_version := current_version + 1 in
       storage_location <~
         match content_hash with
         | Some h =>
             file_exists <~ os_path_exists file_path ;;
             if truthy_str h && file_exists then
               location <~ _get_storage_path self h ;;
               stored <~ os_path_exists location ;;
               (if stored then ret tt else shutil_copy2 file_path location) ;;;
               ret (Some location)
             else ret None
         | None => ret None
         end ;;
       db_insert (mkRow (new_id db) file_path next_version operation
                    content_hash storage_location file_size (now db)
                    (metadata_json metadata)) ;;;
       ret (Some (new_id db)))
    (fun _ => ret None).   (* the handler prints the error and returns None *)

(** [get_history]: the page of versions and the total count.  (The
    [FileVersion] objects returned carry the columns of the row other than
    [storage_location].) *)
Definition get_history (file_path : string) (limit offset : nat)
  : M (list VersionRow * Z) :=
  rows <~ get_catalog ;;
  let total := Z.of_nat (length (rows_of rows file_path)) in
  ret (select_history rows file_path limit offset, total).

(** The row [restore_version] works on: [target_version] is tested for
    truth (so [None] and [0] both go on), then [target_timestamp], and
    otherwise the version before the latest. *)
Definition resolve_target
    (rows : list VersionRow) (file_path : string)
    (target_version target_timestamp : option Z) : option VersionRow :=
  let otherwise :=
    match target_timestamp with
    | Some t => select_as_of rows file_path t
    | None => select_previous rows file_path
    end in
  match target_version with
  | Some v =>
      if truthy_int v then select_version rows file_path v else otherwise
  | None => otherwise
  end.

Definition restore_version
    (self : InfiniteUndoService) (db1 db2 : DbDefaults)
    (file_path : string) (target_version target_timestamp : option Z)
  : M UndoResponse :=
  try_except
    (rows <~ get_catalog ;;
     match resolve_target rows file_path target_version target_timestamp with
     | None => ret (mkUndoResponse false file_path 0 NoVersionFound)
     | Some row =>
         let not_in_storage :=
           ret (mkUndoResponse false file_path (version_number row)
                  ContentNotFound) in
         match storage_location row with
         | Some location =>
             stored <~ os_path_exists location ;;
             if truthy_str location && stored then
               record_version self db1 file_path "pre_restore" None ;;;
               os_makedirs (os_path_dirname file_path) ;;;
               shutil_copy2 location file_path ;;;
               record_version self db2 file_path "restore"
                 (Some [("restored_from_version"%string, version_number row)]) ;;;
               ret (mkUndoResponse true file_path (version_number row)
                      (RestoredTo (version_number row)))
             else not_in_storage
         | None => not_in_storage
         end
     end)
    (fun e => ret (mkUndoResponse false file_path 0 (ErrorRestoring e))).

Definition time_travel (directory : string) (target_time : Z) : M TimeTravel :=
  rows <~ get_catalog ;;
  let selected := select_time_travel rows (directory +:+ "%") target_time in
  let files :=
    (fun row => mkFileEntry (file_path row) (version_number row)
                  (file_size row) (timestamp row)) <$> selected in
  ret (mkTimeTravel directory target_time files (Z.of_nat (length files))).

(** [py_now] is [datetime.now()] of the Python process. *)
Definition cleanup_old_versions
    (py_now : Z) (days_to_keep max_versions_per_file : Z) : M CleanupReport :=
  let cutoff_date := py_now - days_to_keep * microseconds_per_day in
  rows <~ get_catalog ;;
  let ids :=
    version_id <$> filter (to_delete rows cutoff_date max_versions_per_file) rows in
  let deleted := filter (fun r => version_id r ∈ ids) rows in
  db_replace (filter (fun r => version_id r ∉ ids) rows) ;;;
  ret (mkCleanupReport
         match deleted with
         | r :: _ => inl (version_id r)
         | [] => inr 0
         end
         cutoff_date).

(** ** Runs of the service

    What happens to a world over time: calls of [record_version] and
    [restore_version], and the user's own changes to live files. *)
Inductive Event : Type :=
| Record (db : DbDefaults) (file_path operation : string)
| Restore (db1 db2 : DbDefaults) (file_path : string)
          (target_version target_timestamp : option Z)
| WriteFile (path : string) (content : list byte)
| RemoveFile (path : string).

Definition apply_event
    (self : InfiniteUndoService) (w : World) (e : Event) : World :=
  match e with
  | Record db file_path operation =>
      snd (record_version self db file_path operation None w)
  | Restore db1 db2 file_path target_version target_timestamp =>
      snd (restore_version self db1 db2 file_path
             target_version target_timestamp w)
  | WriteFile path content => mkWorld (catalog w) (<[path := content]> (files w))
  | RemoveFile path => mkWorld (catalog w) (delete path (files w))
  end.

Definition run
    (self : InfiniteUndoService) (events : list Event) (w : World) : World :=
  fold_left (apply_event self) events w.

(** The readings of the database clock that a run makes, in order. *)
Definition clock_readings (e : Event) : list Z :=
  match e with
  | Record db _ _ => [now db]
  | Restore db1 db2 _ _ _ => [now db1; now db2]
  | WriteFile _ _ | RemoveFile _ => []
  end.

(** ** What one call of [record_version] writes *)

(** Where the blob of digest [h] lives: [_get_storage_path] without the
    directory creation. *)
Definition blob_location (self : InfiniteUndoService) (h : string) : string :=
  os_path_join (os_path_join (storage_path self) (substring 0 2 h)) h.

(** The row inserted for a live file with the given content ([None]: the
    file is missing). *)
Definition recorded_row
    (self : InfiniteUndoService) (db : DbDefaults) (rows : list VersionRow)
    (path op : string) (md : option Metadata) (content : option (list byte))
  : VersionRow :=
  mkRow (new_id db) path (select_current_version rows path + 1) op
    (SHA256.hexdigest <$> content)
    (blob_location self <$> (SHA256.hexdigest <$> content))
    (from_option (fun c => Z.of_nat (length c)) 0 content)
    (now db) (metadata_json md).

(** The files after the blob of [content] has been stored if it was absent. *)
Definition with_blob
    (self : InfiniteUndoService) (fs : gmap string (list byte))
    (content : option (list byte)) : gmap string (list byte) :=
  match content with
  | Some c =>
      match fs !! blob_location self (SHA256.hexdigest c) with
      | Some _ => fs
      | None => <[blob_location self (SHA256.hexdigest c) := c]> fs
      end
  | None => fs
  end.

(** ** Predicates used in the statements *)

(** The row resolved by [restore_version] has nothing to copy back:
    [storage_location] is NULL or empty, or no file is stored there. *)
Definition blob_unavailable
    (fs : gmap string (list byte)) (row : VersionRow) : Prop :=
  match storage_location row with
  | None => True
  | Some location => location = EmptyString \/ fs !! location = None
  end.

(** [r] is the first row of [rows] among those with the greatest [key]. *)
Definition first_greatest
    (key : VersionRow -> Z) (rows : list VersionRow) (r : VersionRow) : Prop :=
  exists l1 l2,
    rows = l1 ++ r :: l2 /\
    (forall x, x ∈ l1 -> key x < key r) /\
    (forall x, x ∈ l2 -> key x <= key r).

(** Version numbers of a path, in insertion order, are 1, 2, ..., n. *)
Definition gapless (rows : list VersionRow) (path : string) : Prop :=
  version_number <$> rows_of rows path
  = (fun i => Z.of_nat i) <$> seq 1 (length (rows_of rows path)).

(** A later version number of a path comes with a later or equal timestamp. *)
Definition time_ordered (rows : list VersionRow) : Prop :=
  forall r1 r2, r1 ∈ rows -> r2 ∈ rows -> file_path r1 = file_path r2 ->
    version_number r1 < version_number r2 -> timestamp r1 <= timestamp r2.

(** What every catalog built by runs of the service satisfies, with [T] a
    bound on the clock readings made so far. *)
Definition catalog_inv (T : Z) (rows : list VersionRow) : Prop :=
  (forall p, gapless rows p) /\ time_ordered rows /\
  (forall r, r ∈ rows -> timestamp r <= T).

(** All clock readings of a run, in order. *)
Definition clock_of_run (events : list Event) : list Z :=
  events ≫= clock_readings.

(** The response of the [except] branch of [restore_version]. *)
Definition restore_error (p : string) (e : exn) : UndoResponse :=
  mkUndoResponse false p 0 (ErrorRestoring e).

(** [V] is the highest version number of [path] in the table. *)
Definition highest_version (rows : list VersionRow) (p : string) (V : Z) : Prop :=
  (exists r, r ∈ rows /\ file_path r = p /\ version_number r = V) /\
  forall r, r ∈ rows -> file_path r = p -> version_number r <= V.

(** The row [r] with its [operation] column replaced. *)
Definition with_operation (op : VersionRow -> string) (r : VersionRow) : VersionRow :=
  mkRow (version_id r) (file_path r) (version_number r) (op r)
    (content_hash r) (storage_location r) (file_size r) (timestamp r)
    (metadata r).

(** No row answers the selector of [restore_version]: no row of the path
    with the given non-zero version; else no row of the path up to the given
    time; else fewer than two rows of the path. *)
Definition no_row_resolves
    (rows : list VersionRow) (path : string)
    (target_version target_timestamp : option Z) : Prop :=
  let otherwise :=
    match target_timestamp with
    | Some t =>
        forall r, r ∈ rows -> file_path r = path -> ~ timestamp r <= t
    | None => (length (rows_of rows path) < 2)%nat
    end in
  match target_version with
  | Some v =>
      if truthy_int v
      then forall r, r ∈ rows -> file_path r = path -> version_number r ≠ v
      else otherwise
  | None => otherwise
  end.

(** The row [r] with its [version_number] column replaced. *)
Definition with_version (f : VersionRow -> Z) (r : VersionRow) : VersionRow :=
  mkRow (version_id r) (file_path r) (f r) (operation r)
    (content_hash r) (storage_location r) (file_size r) (timestamp r)
    (metadata r).

(** Every row was written by [record_version]: its storage location is the
    blob location of its digest, and NULL when it has no digest. *)
Definition stored_by_digest (self : InfiniteUndoService) (r : VersionRow) : Prop :=
  storage_location r = blob_location self <$> content_hash r.

(** ** Concrete worlds for the examples *)

Definition svc : InfiniteUndoService :=
  mkService "/home/u/cognitive-exocortex/data/versions".

Definition a_txt : string := "/home/u/a.txt".

Definition b_txt : string := "/home/u/b.txt".

Definition empty_world : World := mkWorld [] ∅.

(** The scenario of the specification: create with content X, save X again,
    save Y. *)
Definition scenario_events : list Event :=
  [ WriteFile a_txt (bytes_of "X");
    Record (mkDb 101%N 1000) a_txt "create";
    Record (mkDb 102%N 2000) a_txt "modify";
    WriteFile a_txt (bytes_of "Y");
    Record (mkDb 103%N 3000) a_txt "modify" ].

Definition scenario_world : World := run svc scenario_events empty_world.

(** X, then Y, then X again. *)
Definition back_to_x_world : World :=
  run svc [WriteFile a_txt (bytes_of "X")] scenario_world.

(** Create, modify, delete at times 1000, 2000, 3000. *)
Definition deleted_events : list Event :=
  [ WriteFile a_txt (bytes_of "X");
    Record (mkDb 201%N 1000) a_txt "create";
    WriteFile a_txt (bytes_of "XY");
    Record (mkDb 202%N 2000) a_txt "modify";
    RemoveFile a_txt;
    Record (mkDb 203%N 3000) a_txt "delete" ].

Definition deleted_world : World := run svc deleted_events empty_world.

(** Five versions of one path, all written at time 0. *)
Definition five_events : list Event :=
  [ WriteFile a_txt (bytes_of "1"); Record (mkDb 301%N 0) a_txt "create";
    WriteFile a_txt (bytes_of "2"); Record (mkDb 302%N 0) a_txt "modify";
    WriteFile a_txt (bytes_of "3"); Record (mkDb 303%N 0) a_txt "modify";
    WriteFile a_txt (bytes_of "4"); Record (mkDb 304%N 0) a_txt "modify";
    WriteFile a_txt (bytes_of "5"); Record (mkDb 305%N 0) a_txt "modify" ].

Definition five_world : World := run svc five_events empty_world.

(** Two versions recorded within one tick of the database clock. *)
Definition same_tick_events : list Event :=
  [ WriteFile a_txt (bytes_of "X"); Record (mkDb 401%N 7000) a_txt "create";
    WriteFile a_txt (bytes_of "Y"); Record (mkDb 402%N 7000) a_txt "modify" ].

Definition same_tick_world : World := run svc same_tick_events empty_world.

(** Two files with the same bytes. *)
Definition twins_world : World :=
  mkWorld [] {[ a_txt := bytes_of "X"; b_txt := bytes_of "X" ]}.

(** The delete record of [deleted_world]. *)
Definition deleted_row : VersionRow :=
  mkRow 203%N a_txt 3 "delete" None None 0 3000 None.

(** The first row of [same_tick_world]. *)
Definition same_tick_first : VersionRow :=
  recorded_row svc (mkDb 401%N 7000) [] a_txt "create" None (Some (bytes_of "X")).

(** The SHA-256 digests of the one-byte contents X and Y. *)
Definition x_digest : string :=
  "4b68ab3847feda7d6c62c1fbcbeebfa35eab7351ed5e78f4ddadea5df64b8015".

Definition y_digest : string :=
  "18f5384d58bcb1bba0bcd9e6a6781d1a6ac2cc280c330ecbab6cb7931b721552".

(** ** Predicates for the further properties *)

(** A lower-case hexadecimal digit: [0-9a-f]. *)
Definition is_hex_digit (c : ascii) : bool :=
  let n := N_of_ascii c in
  ((48 <=? n) && (n <=? 57) || (97 <=? n) && (n <=? 102))%N.

(** Every character of the string passes the test. *)
Fixpoint string_forallb (f : ascii -> bool) (s : string) : bool :=
  match s with
  | EmptyString => true
  | String c s' => f c && string_forallb f s'
  end.

(** A live path that does not lie under the storage root. *)
Definition outside_store (self : InfiniteUndoService) (q : string) : Prop :=
  String.prefix (storage_path self) q = false.

(** Events whose file changes stay out of the store.  [record_version]
    itself only ever adds a blob, whatever its path. *)
Definition event_outside_store (self : InfiniteUndoService) (e : Event) : Prop :=
  match e with
  | Record _ _ _ => True
  | Restore _ _ p _ _ => outside_store self p
  | WriteFile p _ => outside_store self p
  | RemoveFile p => outside_store self p
  end.

(** Every blob holds bytes of the digest it is named after. *)
Definition store_intact
    (self : InfiniteUndoService) (fs : gmap string (list byte)) : Prop :=
  forall c0 c,
    fs !! blob_location self (SHA256.hexdigest c0) = Some c ->
    SHA256.hexdigest c = SHA256.hexdigest c0.

(** Every row that has a digest points at its blob, and the blob is there
    with that digest. *)
Definition rows_backed (self : InfiniteUndoService) (w : World) : Prop :=
  forall r h,
    r ∈ catalog w -> content_hash r = Some h ->
    storage_location r = Some (blob_location self h)
    /\ exists c, files w !! blob_location self h = Some c
                 /\ SHA256.hexdigest c = h.

(** The store is consistent: blobs hold what their names say and every
    row with content is backed by its blob. *)
Definition store_inv (self : InfiniteUndoService) (w : World) : Prop :=
  store_intact self (files w) /\ rows_backed self w.

(** The characters that LIKE does not take literally. *)
Definition like_special (c : ascii) : bool :=
  bool_decide (c = "%"%char) || bool_decide (c = "_"%char)
  || bool_decide (c = "\"%char).

(** A string that LIKE takes literally, character by character. *)
Definition like_literal (s : string) : bool :=
  string_forallb (fun c => negb (like_special c)) s.

(** [ORDER BY file_path, version_number DESC] as a relation. *)
Definition by_path_then_version (a b : VersionRow) : Prop :=
  path_then_version_desc a b = true.

(** The entry that [time_travel] lists for a row. *)
Definition file_entry (row : VersionRow) : FileEntry :=
  mkFileEntry (file_path row) (version_number row) (file_size row) (timestamp row).

(** ** Concrete data for the further examples *)

(** The first row of [scenario_world]: version 1, content X. *)
Definition scenario_first : VersionRow :=
  recorded_row svc (mkDb 101%N 1000) [] a_txt "create" None (Some (bytes_of "X")).

(** What happens after the scenario: the file is rewritten and recorded,
    then restored to version 1. *)
Definition later_events : list Event :=
  [ WriteFile a_txt (bytes_of "Z");
    Record (mkDb 104%N 4000) a_txt "modify"; Restore (mkDb 105%N 5000)
      (mkDb 106%N 6000) a_txt (Some 1) None ].

(** A bare file name, recorded with content X and then with content Y. *)
Definition notes_txt : string := "notes.txt".

Definition notes_events : list Event :=
  [ WriteFile notes_txt (bytes_of "X");
    Record (mkDb 601%N 1000) notes_txt "create";
    WriteFile notes_txt (bytes_of "Y");
    Record (mkDb 602%N 2000) notes_txt "modify" ].

Definition notes_world : World := run svc notes_events empty_world.

(** The first row of [notes_world]: version 1, content X. *)
Definition notes_first : VersionRow :=
  recorded_row svc (mkDb 601%N 1000) [] notes_txt "create" None
    (Some (bytes_of "X")).

(** * Properties *)

(** ** SHA-256 test vectors *)

Example sha256_first_round_constant : nth 0 SHA256.K 0 = 0x428a2f98.
Proof. vm_compute. reflexivity. Qed.

Example sha256_last_round_constant : nth 63 SHA256.K 0 = 0xc67178f2.
Proof. vm_compute. reflexivity. Qed.

Example sha256_initial_value :
  SHA256.ha SHA256.H0 = 0x6a09e667 /\ SHA256.hh SHA256.H0 = 0x5be0cd19.
Proof. split; vm_compute; reflexivity. Qed.

Example sha256_empty :
  SHA256.hexdigest [] =
  "e3b0c44298fc1c149afbf4c8996fb92427ae41e4649b934ca495991b7852b855"%string.
Proof. vm_compute. reflexivity. Qed.

Example sha256_abc :
  SHA256.hexdigest (bytes_of "abc") =
  "ba7816bf8f01cfea414140de5dae2223b00361a396177a9cb410ff61f20015ad"%string.
Proof. vm_compute. reflexivity. Qed.

Example sha256_two_blocks :
  SHA256.hexdigest (repeat x61 200) =
  "c2a908d98f5df987ade41b5fce213067efbcc21ef2240212a41e54b5e7c28ae5"%string.
Proof. vm_compute. reflexivity. Qed.

(** ** Paths and digests *)

Arguments SHA256.hexdigest : simpl never.

(** A digest is never the empty string. *)
Lemma hexdigest_cons c : exists a s, SHA256.hexdigest c = String a s.
Proof. unfold SHA256.hexdigest, SHA256.hex32. eauto. Qed.

Lemma hexdigest_truthy c : truthy_str (SHA256.hexdigest c) = true.
Proof.
  destruct (hexdigest_cons c) as (a & s & ->). reflexivity.
Qed.

Lemma append_nonempty_r (a b : string) : b ≠ EmptyString -> a +:+ b ≠ EmptyString.
Proof. destruct a; simpl; [tauto | discriminate]. Qed.

Lemma os_path_join_nonempty a b : b ≠ EmptyString -> os_path_join a b ≠ EmptyString.
Proof.
  intros Hb. unfold os_path_join.
  destruct (startswith_slash b); [exact Hb |].
  destruct (_ || _); repeat apply append_nonempty_r; exact Hb.
Qed.

Lemma prefix2_nonempty h : truthy_str h = true -> substring 0 2 h ≠ EmptyString.
Proof. destruct h; simpl; [discriminate | intros _; discriminate]. Qed.

(** [_get_storage_path] never fails on a non-empty digest and leaves the
    state alone. *)
Lemma get_storage_path_eq self h w :
  truthy_str h = true ->
  _get_storage_path self h w = (Return (blob_location self h), w).
Proof.
  intros Hh. unfold _get_storage_path, os_makedirs, bind, ret.
  rewrite bool_decide_eq_false_2; [reflexivity |].
  apply os_path_join_nonempty, prefix2_nonempty, Hh.
Qed.

Lemma is_Some_Some_true {A} (x : A) : bool_decide (is_Some (Some x)) = true.
Proof. reflexivity. Qed.

Lemma is_Some_None_false {A} : bool_decide (is_Some (@None A)) = false.
Proof. reflexivity. Qed.

(** Unfolding the monad: first the calls made of binds, then the binds. *)
Ltac unfold_m :=
  unfold os_path_exists, os_path_getsize, _compute_hash, shutil_copy2;
  unfold bind, ret, raise, try_except, get_catalog, get_files, db_insert,
    db_replace, fs_write;
  cbv beta iota.

Ltac step_m := cbn [fmap option_fmap option_map andb negb fst snd catalog files].

(** The early return: the digest is among the versions of the path and the
    operation is neither delete nor rename. *)
Lemma record_version_dedup self db p op md w i :
  select_existing (catalog w) p (SHA256.hexdigest <$> files w !! p) = Some i ->
  op ∉ ["delete"; "rename"]%string ->
  record_version self db p op md w = (Return (Some i), w).
Proof.
  intros Hex Hop. unfold record_version. unfold_m.
  destruct (files w !! p) as [c|] eqn:Hp.
  - rewrite is_Some_Some_true. cbv beta iota. rewrite ?Hp. cbv beta iota.
    rewrite Hex, (bool_decide_eq_false_2 _ Hop).
    rewrite is_Some_Some_true. reflexivity.
  - rewrite ?(@is_Some_None_false (list byte)). cbv beta iota.
    rewrite Hex, (bool_decide_eq_false_2 _ Hop).
    rewrite is_Some_Some_true. reflexivity.
Qed.

(** Otherwise one row is appended, and the blob is stored if it was absent. *)
Lemma record_version_insert self db p op md w :
  select_existing (catalog w) p (SHA256.hexdigest <$> files w !! p) = None
  \/ op ∈ ["delete"; "rename"]%string ->
  record_version self db p op md w =
  (Return (Some (new_id db)),
   mkWorld (catalog w ++ [recorded_row self db (catalog w) p op md (files w !! p)])
           (with_blob self (files w) (files w !! p))).
Proof.
  intros Hins.
  assert (bool_decide (is_Some (select_existing (catalog w) p
            (SHA256.hexdigest <$> files w !! p)))
          && negb (bool_decide (op ∈ ["delete"; "rename"]%string)) = false) as Hno.
  { destruct Hins as [-> | Hop].
    - reflexivity.
    - rewrite (bool_decide_eq_true_2 _ Hop). apply andb_false_r. }
  unfold record_version. unfold_m.
  unfold recorded_row, with_blob.
  destruct (files w !! p) as [c|] eqn:Hp.
  - rewrite is_Some_Some_true. cbv beta iota. rewrite ?Hp. cbv beta iota.
    rewrite Hno. step_m. rewrite ?Hp, ?is_Some_Some_true.
    rewrite hexdigest_truthy. step_m.
    rewrite get_storage_path_eq by apply hexdigest_truthy. cbv beta iota.
    destruct (files w !! blob_location self (SHA256.hexdigest c)) as [c'|] eqn:Hloc.
    + rewrite is_Some_Some_true. reflexivity.
    + rewrite ?(@is_Some_None_false (list byte)).
      rewrite Hp.
      rewrite bool_decide_eq_false_2 by (intros ->; congruence).
      reflexivity.
  - rewrite ?(@is_Some_None_false (list byte)). cbv beta iota.
    rewrite Hno. reflexivity.
Qed.

(** ** Sorting and maxima *)

Section SortFacts.
Context {A : Type} (before : A -> A -> bool).

Lemma insert_by_perm x l : insert_by before x l ≡ₚ x :: l.
Proof.
  induction l as [|y l IH]; simpl; [reflexivity |].
  destruct (before x y); [reflexivity |].
  rewrite IH. apply Permutation_swap.
Qed.

Lemma sort_by_perm l : sort_by before l ≡ₚ l.
Proof.
  induction l as [|x l IH]; simpl; [reflexivity |].
  rewrite insert_by_perm. by rewrite IH.
Qed.

Lemma elem_of_sort_by x l : x ∈ sort_by before l <-> x ∈ l.
Proof. by rewrite sort_by_perm. Qed.

Lemma head_insert_by x l :
  head (insert_by before x l) =
  Some match head l with
       | Some y => if before x y then x else y
       | None => x
       end.
Proof. destruct l as [|y l]; simpl; [reflexivity |]. by destruct (before x y). Qed.

Lemma sort_by_nil l : sort_by before l = [] <-> l = [].
Proof.
  split; [| intros ->; reflexivity].
  intros H. apply Permutation_nil_r. rewrite <- H. symmetry. apply sort_by_perm.
Qed.

End SortFacts.

Lemma first_greatest_elem key rows r :
  first_greatest key rows r ->
  r ∈ rows /\ forall x, x ∈ rows -> key x <= key r.
Proof.
  intros (l1 & l2 & -> & H1 & H2). split.
  - set_solver.
  - intros x Hx. apply elem_of_app in Hx as [Hx | Hx].
    + apply H1 in Hx. lia.
    + apply elem_of_cons in Hx as [-> | Hx]; [lia | by apply H2].
Qed.

(** [ORDER BY key DESC LIMIT 1] takes the first row with the greatest key. *)
Lemma head_sort_desc key rows r :
  head (sort_by (desc key) rows) = Some r -> first_greatest key rows r.
Proof.
  revert r. induction rows as [|x rows IH]; intros r; simpl; [discriminate |].
  rewrite head_insert_by. intros [= <-].
  destruct (head (sort_by (desc key) rows)) as [y|] eqn:Hy.
  - specialize (IH y eq_refl). unfold desc.
    destruct (Z.leb_spec (key y) (key x)) as [Hle | Hlt].
    + exists [], rows. split; [reflexivity |]. split; [set_solver |].
      intros z Hz. apply first_greatest_elem in IH as [_ IH].
      specialize (IH z Hz). lia.
    + destruct IH as (l1 & l2 & -> & H1 & H2).
      exists (x :: l1), l2. split; [reflexivity |]. split; [| exact H2].
      intros z Hz. apply elem_of_cons in Hz as [-> | Hz]; [lia | by apply H1].
  - apply head_None in Hy. apply sort_by_nil in Hy as ->.
    exists [], []. split; [reflexivity |]. split; set_solver.
Qed.

Lemma first_greatest_unique key rows r r' :
  first_greatest key rows r -> first_greatest key rows r' -> r = r'.
Proof.
  intros (l1 & l2 & -> & H1 & H2) (l1' & l2' & Heq & H1' & H2').
  revert l1' Heq H1'. induction l1 as [|x l1 IH]; intros [|x' l1'] Heq H1';
    simpl in Heq; injection Heq as Hhd Heq.
  - exact Hhd.
  - subst x'. assert (r' ∈ l2) as Hin by (rewrite Heq; set_solver).
    apply H2 in Hin. specialize (H1' r ltac:(set_solver)). lia.
  - subst x. specialize (H1 r' ltac:(set_solver)).
    assert (r ∈ l2') as Hin by (rewrite <- Heq; set_solver).
    apply H2' in Hin. lia.
  - subst x'. eapply IH; [set_solver | exact Heq | set_solver].
Qed.

Lemma fold_left_max_spec xs x :
  fold_left Z.max xs x ∈ x :: xs /\
  forall y, y ∈ x :: xs -> y <= fold_left Z.max xs x.
Proof.
  revert x. induction xs as [|z xs IH]; intros x; simpl.
  - split; [set_solver |]. intros y Hy. apply list_elem_of_singleton in Hy. lia.
  - destruct (IH (Z.max x z)) as [Hin Hub]. split.
    + apply elem_of_cons in Hin as [Hin | Hin]; [| set_solver].
      rewrite Hin. destruct (Z.max_spec x z) as [[_ ->] | [_ ->]]; set_solver.
    + intros y Hy.
      assert (Z.max x z <= fold_left Z.max xs (Z.max x z)) by (apply Hub; set_solver).
      apply elem_of_cons in Hy as [-> | Hy]; [lia |].
      apply elem_of_cons in Hy as [-> | Hy]; [lia |].
      apply Hub. set_solver.
Qed.

Lemma sql_max_Some xs m :
  sql_max xs = Some m <-> m ∈ xs /\ forall y, y ∈ xs -> y <= m.
Proof.
  destruct xs as [|x xs]; simpl.
  - split; [discriminate | intros [H _]; by apply elem_of_nil in H].
  - destruct (fold_left_max_spec xs x) as [Hin Hub]. split.
    + intros [= <-]. by split.
    + intros [Hm Hle]. f_equal. apply Z.le_antisymm; [by apply Hle | by apply Hub].
Qed.

Lemma sql_max_None xs : sql_max xs = None <-> xs = [].
Proof. destruct xs; simpl; split; congruence. Qed.

(** ** One call of [record_version], one call of [restore_version] *)

(** [record_version] always returns; it takes one of its two ways out. *)
Lemma record_version_cases self db p op md w :
  record_version self db p op md w
  = (Return (select_existing (catalog w) p (SHA256.hexdigest <$> files w !! p)), w)
    /\ is_Some (select_existing (catalog w) p (SHA256.hexdigest <$> files w !! p))
    /\ op ∉ ["delete"; "rename"]%string
  \/ record_version self db p op md w
     = (Return (Some (new_id db)),
        mkWorld (catalog w ++ [recorded_row self db (catalog w) p op md (files w !! p)])
                (with_blob self (files w) (files w !! p))).
Proof.
  destruct (select_existing (catalog w) p (SHA256.hexdigest <$> files w !! p))
    as [i|] eqn:Hex.
  - destruct (decide (op ∈ ["delete"; "rename"]%string)) as [Hop | Hop].
    + right. apply record_version_insert. by right.
    + left. split; [| by eauto]. by apply record_version_dedup.
  - right. apply record_version_insert. by left.
Qed.

Lemma rows_of_app rows1 rows2 p :
  rows_of (rows1 ++ rows2) p = rows_of rows1 p ++ rows_of rows2 p.
Proof. apply filter_app. Qed.

Lemma rows_of_snoc rows r p :
  rows_of (rows ++ [r]) p
  = if decide (file_path r = p) then rows_of rows p ++ [r] else rows_of rows p.
Proof.
  rewrite rows_of_app. unfold rows_of at 2.
  rewrite (filter_singleton _ r []).
  destruct (decide (file_path r = p)); [reflexivity | apply app_nil_r].
Qed.

Lemma elem_of_rows_of rows p r : r ∈ rows_of rows p <-> file_path r = p /\ r ∈ rows.
Proof. unfold rows_of. by rewrite list_elem_of_filter. Qed.

Lemma select_current_version_ub rows p r :
  r ∈ rows -> file_path r = p -> version_number r <= select_current_version rows p.
Proof.
  intros Hin Hp. unfold select_current_version.
  assert (version_number r ∈ version_number <$> rows_of rows p) as Hv.
  { apply list_elem_of_fmap. exists r. split; [reflexivity |]. by apply elem_of_rows_of. }
  destruct (sql_max _) as [m|] eqn:Hm.
  - apply sql_max_Some in Hm as [_ Hub]. by apply Hub.
  - apply sql_max_None in Hm. rewrite Hm in Hv. by apply elem_of_nil in Hv.
Qed.

Lemma select_current_version_gapless rows p :
  gapless rows p ->
  select_current_version rows p = Z.of_nat (length (rows_of rows p)).
Proof.
  unfold gapless, select_current_version. intros ->.
  destruct (length (rows_of rows p)) as [|n]; [reflexivity |].
  assert (sql_max ((fun i => Z.of_nat i) <$> seq 1 (S n)) = Some (Z.of_nat (S n))) as ->;
    [| reflexivity].
  apply sql_max_Some. split.
  - apply list_elem_of_fmap. exists (S n). split; [reflexivity |].
    apply elem_of_seq. lia.
  - intros y Hy. apply list_elem_of_fmap in Hy as (k & -> & Hk).
    apply elem_of_seq in Hk. lia.
Qed.

Lemma catalog_inv_mono T T' rows : T <= T' -> catalog_inv T rows -> catalog_inv T' rows.
Proof.
  intros HT (Hg & Ho & Hb). repeat split; [exact Hg | exact Ho |].
  intros r Hr. specialize (Hb r Hr). lia.
Qed.

(** The invariant survives the insertion made by [record_version] when the
    clock has not gone back. *)
Lemma catalog_inv_insert self db p op md content T rows :
  catalog_inv T rows -> T <= now db ->
  catalog_inv (now db) (rows ++ [recorded_row self db rows p op md content]).
Proof.
  intros (Hg & Ho & Hb) HT.
  set (r := recorded_row self db rows p op md content).
  assert (file_path r = p) as Hrp by reflexivity.
  assert (version_number r = select_current_version rows p + 1) as Hrv by reflexivity.
  assert (timestamp r = now db) as Hrt by reflexivity.
  clearbody r. repeat split.
  - intros q. unfold gapless. rewrite rows_of_snoc.
    destruct (decide (file_path r = q)) as [<- | Hne]; [| apply Hg].
    rewrite fmap_app, length_app, Nat.add_1_r, seq_S, fmap_app.
    rewrite <- (Hg (file_path r)). simpl. do 2 f_equal.
    rewrite Hrv, Hrp, (select_current_version_gapless _ _ (Hg p)). lia.
  - intros r1 r2 H1 H2 Hp Hv.
    apply elem_of_app in H1 as [H1 | H1]; apply elem_of_app in H2 as [H2 | H2].
    + by apply Ho.
    + apply list_elem_of_singleton in H2 as ->. specialize (Hb r1 H1). lia.
    + apply list_elem_of_singleton in H1 as ->.
      pose proof (select_current_version_ub rows p r2 H2) as Hub. 
      rewrite <- Hp, Hrp in Hub. specialize (Hub eq_refl). lia.
    + apply list_elem_of_singleton in H1 as ->.
      apply list_elem_of_singleton in H2 as ->. lia.
  - intros r' Hr'. apply elem_of_app in Hr' as [Hr' | Hr'].
    + specialize (Hb r' Hr'). lia.
    + apply list_elem_of_singleton in Hr' as ->. lia.
Qed.

Lemma catalog_inv_record self db p op md T w :
  catalog_inv T (catalog w) -> T <= now db ->
  catalog_inv (now db) (catalog (snd (record_version self db p op md w))).
Proof.
  intros Hinv HT.
  destruct (record_version_cases self db p op md w) as [[-> _] | ->]; simpl.
  - by eapply catalog_inv_mono.
  - by eapply catalog_inv_insert.
Qed.

Lemma restore_version_no_row self db1 db2 p tv tts w :
  resolve_target (catalog w) p tv tts = None ->
  restore_version self db1 db2 p tv tts w =
  (Return (mkUndoResponse false p 0 NoVersionFound), w).
Proof.
  intros Hnone. unfold restore_version. unfold_m. rewrite Hnone. reflexivity.
Qed.

Lemma restore_version_no_blob self db1 db2 p tv tts w row :
  resolve_target (catalog w) p tv tts = Some row ->
  blob_unavailable (files w) row ->
  restore_version self db1 db2 p tv tts w =
  (Return (mkUndoResponse false p (version_number row) ContentNotFound), w).
Proof.
  intros Hrow Hblob. unfold restore_version. unfold_m. rewrite Hrow.
  unfold blob_unavailable in Hblob.
  destruct (storage_location row) as [loc|]; [| reflexivity].
  destruct Hblob as [-> | Hloc].
  - cbn [truthy_str]. destruct (bool_decide _); reflexivity.
  - rewrite Hloc, is_Some_None_false, andb_false_r. reflexivity.
Qed.

Lemma record_version_returns self db p op md w :
  exists i, record_version self db p op md w
            = (Return i, snd (record_version self db p op md w)).
Proof.
  destruct (record_version_cases self db p op md w) as [[-> _] | ->]; eauto.
Qed.

(** [restore_version] when the resolved row has a stored blob: the snapshot,
    the directory, the copy, the log entry. *)
Lemma restore_version_stored self db1 db2 p tv tts w row loc :
  resolve_target (catalog w) p tv tts = Some row ->
  storage_location row = Some loc ->
  truthy_str loc = true ->
  is_Some (files w !! loc) ->
  let w1 := snd (record_version self db1 p "pre_restore" None w) in
  restore_version self db1 db2 p tv tts w =
  if bool_decide (os_path_dirname p = EmptyString)
  then (Return (restore_error p FileNotFoundError), w1)
  else
    match files w1 !! loc with
    | None => (Return (restore_error p FileNotFoundError), w1)
    | Some c =>
        if bool_decide (loc = p)
        then (Return (restore_error p SameFileError), w1)
        else
          (Return (mkUndoResponse true p (version_number row)
                     (RestoredTo (version_number row))),
           snd (record_version self db2 p "restore"
                  (Some [("restored_from_version"%string, version_number row)])
                  (mkWorld (catalog w1) (<[p := c]> (files w1)))))
    end.
Proof.
  intros Hrow Hloc Htruthy [c0 Hc0] w1. unfold restore_version.
  unfold os_makedirs. unfold_m. rewrite Hrow, Hloc, Htruthy, Hc0, is_Some_Some_true.
  cbn [andb].
  destruct (record_version_returns self db1 p "pre_restore" None w) as [i ->].
  fold w1. cbv beta iota.
  destruct (bool_decide (os_path_dirname p = EmptyString)); [reflexivity |].
  cbv beta iota.
  destruct (files w1 !! loc) as [c|]; [| reflexivity].
  destruct (bool_decide (loc = p)); [reflexivity |]. cbv beta iota.
  destruct (record_version_returns self db2 p "restore"
              (Some [("restored_from_version"%string, version_number row)])
              (mkWorld (catalog w1) (<[p := c]> (files w1)))) as [j ->].
  reflexivity.
Qed.

Lemma restore_version_not_stored self db1 db2 p tv tts w :
  match resolve_target (catalog w) p tv tts with
  | None => True
  | Some row => blob_unavailable (files w) row
  end ->
  snd (restore_version self db1 db2 p tv tts w) = w.
Proof.
  destruct (resolve_target (catalog w) p tv tts) as [row|] eqn:Hrow; intros H.
  - by erewrite restore_version_no_blob.
  - by erewrite restore_version_no_row.
Qed.

Lemma blob_available_or_not fs row :
  blob_unavailable fs row \/
  exists loc, storage_location row = Some loc /\ truthy_str loc = true
              /\ is_Some (fs !! loc).
Proof.
  unfold blob_unavailable.
  destruct (storage_location row) as [loc|]; [| by left].
  destruct (decide (loc = EmptyString)) as [-> | Hne]; [left; by left |].
  destruct (fs !! loc) as [c|] eqn:Hc; [| left; by right].
  right. exists loc. split; [reflexivity |]. split; [| by eauto].
  unfold truthy_str. by rewrite bool_decide_eq_false_2.
Qed.

Lemma catalog_inv_restore self db1 db2 p tv tts T w :
  catalog_inv T (catalog w) -> T <= now db1 -> now db1 <= now db2 ->
  catalog_inv (now db2) (catalog (snd (restore_version self db1 db2 p tv tts w))).
Proof.
  intros Hinv H1 H2.
  assert (catalog_inv (now db2) (catalog w)) as Hw
    by (eapply catalog_inv_mono; [| exact Hinv]; lia).
  destruct (resolve_target (catalog w) p tv tts) as [row|] eqn:Hrow.
  2: { rewrite restore_version_not_stored; [exact Hw | by rewrite Hrow]. }
  destruct (blob_available_or_not (files w) row) as [Hno | (loc & Hloc & Htr & Hsome)].
  { rewrite restore_version_not_stored; [exact Hw | by rewrite Hrow]. }
  rewrite (restore_version_stored _ _ _ _ _ _ _ _ _ Hrow Hloc Htr Hsome).
  pose proof (catalog_inv_record self db1 p "pre_restore" None T w Hinv H1) as Hw1.
  set (w1 := snd (record_version self db1 p "pre_restore" None w)) in *.
  assert (catalog_inv (now db2) (catalog w1)) as Hw1'
    by (eapply catalog_inv_mono; [exact H2 | exact Hw1]).
  destruct (bool_decide (os_path_dirname p = EmptyString)); [exact Hw1' |].
  destruct (files w1 !! loc) as [c|]; [| exact Hw1'].
  destruct (bool_decide (loc = p)); [exact Hw1' |].
  cbn [snd]. by eapply catalog_inv_record.
Qed.

(** The invariant along a run, by induction on the events. *)
Lemma catalog_inv_run self events : forall T w,
  catalog_inv T (catalog w) ->
  StronglySorted Z.le (T :: clock_of_run events) ->
  exists T', catalog_inv T' (catalog (run self events w)).
Proof.
  induction events as [|e events IH]; intros T w Hinv Hclock; [by exists T |].
  unfold clock_of_run in Hclock. cbn [mbind list_bind] in Hclock.
  fold (clock_of_run events) in Hclock.
  apply StronglySorted_cons in Hclock as [HT Hs].
  rewrite Forall_app in HT. destruct HT as [HTe HTs].
  apply StronglySorted_app in Hs as (Hcross & Hse & Hss).
  change (run self (e :: events) w) with (run self events (apply_event self w e)).
  destruct e as [db p op | db1 db2 p tv tts | p c | p]; cbn [clock_readings] in *.
  - apply (IH (now db)).
    + apply catalog_inv_record with (T := T); [exact Hinv |].
      exact (Forall_inv HTe).
    + apply StronglySorted_cons. split; [| exact Hss].
      apply Forall_forall. intros x Hx. apply Hcross; [set_solver | exact Hx].
  - apply (IH (now db2)).
    + apply catalog_inv_restore with (T := T);
        [exact Hinv | exact (Forall_inv HTe) |].
      apply StronglySorted_cons in Hse as [Hle _].
      exact (Forall_inv Hle).
    + apply StronglySorted_cons. split; [| exact Hss].
      apply Forall_forall. intros x Hx. apply Hcross; [set_solver | exact Hx].
  - apply (IH T); [exact Hinv |]. apply StronglySorted_cons. by split.
  - apply (IH T); [exact Hinv |]. apply StronglySorted_cons. by split.
Qed.

Lemma run_gapless_time_ordered self events w :
  catalog w = [] ->
  Sorted Z.le (clock_of_run events) ->
  forall p,
    gapless (catalog (run self events w)) p
    /\ forall r1 r2,
         r1 ∈ rows_of (catalog (run self events w)) p ->
         r2 ∈ rows_of (catalog (run self events w)) p ->
         version_number r1 < version_number r2 ->
         timestamp r1 <= timestamp r2.
Proof.
  intros Hempty Hclock p.
  apply Sorted_StronglySorted in Hclock; [| apply _].
  destruct (catalog_inv_run self events (hd 0 (clock_of_run events)) w)
    as (T' & Hg & Ho & _).
  - rewrite Hempty. split; [| split].
    + intros q. reflexivity.
    + intros r1 r2 H1. by apply elem_of_nil in H1.
    + intros r H1. by apply elem_of_nil in H1.
  - apply StronglySorted_cons. split; [| exact Hclock].
    destruct (clock_of_run events) as [|t ts]; [constructor |].
    apply StronglySorted_cons in Hclock as [Hall _]. constructor; [simpl; lia | exact Hall].
  - split; [apply Hg |]. intros r1 r2 H1 H2 Hv.
    apply elem_of_rows_of in H1 as [Hp1 H1]. apply elem_of_rows_of in H2 as [Hp2 H2].
    apply Ho; [exact H1 | exact H2 | congruence | exact Hv].
Qed.

(** ** The queries *)

Lemma highest_version_sql_max rows p V :
  highest_version rows p V <->
  sql_max (version_number <$> rows_of rows p) = Some V.
Proof.
  rewrite sql_max_Some. unfold highest_version. split.
  - intros [(r & Hin & Hp & Hv) Hub]. split.
    + apply list_elem_of_fmap. exists r. split; [by symmetry |].
      by apply elem_of_rows_of.
    + intros y Hy. apply list_elem_of_fmap in Hy as (r' & -> & Hr').
      apply elem_of_rows_of in Hr' as [Hp' Hin']. by apply Hub.
  - intros [Hin Hub]. split.
    + apply list_elem_of_fmap in Hin as (r & -> & Hr).
      apply elem_of_rows_of in Hr as [Hp Hin]. by exists r.
    + intros r Hin' Hp. apply Hub. apply list_elem_of_fmap.
      exists r. split; [reflexivity |]. by apply elem_of_rows_of.
Qed.

Lemma select_existing_Some rows p h i :
  select_existing rows p (Some h) = Some i ->
  exists r, r ∈ rows /\ version_id r = i /\ file_path r = p
            /\ content_hash r = Some h
            /\ forall r', r' ∈ rows -> file_path r' = p ->
                 content_hash r' = Some h ->
                 version_number r' <= version_number r.
Proof.
  unfold select_existing. intros Hsel.
  destruct (head _) as [r|] eqn:Hhead; [| discriminate].
  injection Hsel as <-.
  apply head_sort_desc, first_greatest_elem in Hhead as [Hin Hub].
  apply list_elem_of_filter in Hin as [[Hp Hh] Hin].
  exists r. repeat split; try done.
  intros r' Hin' Hp' Hh'. apply Hub. by apply list_elem_of_filter.
Qed.

Lemma select_existing_None rows p h :
  select_existing rows p (Some h) = None ->
  forall r, r ∈ rows -> file_path r = p -> content_hash r ≠ Some h.
Proof.
  unfold select_existing. intros Hsel r Hin Hp Hh.
  destruct (head _) as [r0|] eqn:Hhead; [discriminate |].
  apply head_None, sort_by_nil in Hhead.
  eapply filter_nil_not_elem_of; [exact Hhead | | exact Hin]. by split.
Qed.

Lemma record_version_soft self db p op md w :
  op ∉ ["delete"; "rename"]%string ->
  let d := SHA256.hexdigest <$> files w !! p in
  (exists r,
      r ∈ catalog w /\ file_path r = p /\ is_Some d /\ content_hash r = d
      /\ (forall r', r' ∈ catalog w -> file_path r' = p -> content_hash r' = d ->
            version_number r' <= version_number r)
      /\ record_version self db p op md w = (Return (Some (version_id r)), w))
  \/ ((forall r, r ∈ catalog w -> file_path r = p -> is_Some d ->
         content_hash r ≠ d)
      /\ record_version self db p op md w
         = (Return (Some (new_id db)),
            mkWorld
              (catalog w ++ [recorded_row self db (catalog w) p op md (files w !! p)])
              (with_blob self (files w) (files w !! p)))).
Proof.
  intros Hop d.
  destruct (select_existing (catalog w) p d) as [i|] eqn:Hsel.
  - left. destruct d as [h|] eqn:Hd; [| discriminate].
    destruct (select_existing_Some _ _ _ _ Hsel) as (r & Hin & Hid & Hp & Hh & Hub).
    exists r. split; [exact Hin |]. split; [exact Hp |]. split; [by eauto |].
    split; [exact Hh |]. split; [exact Hub |].
    rewrite Hid. apply record_version_dedup; [| exact Hop]. by rewrite <- Hd in Hsel.
  - right. split.
    + intros r Hin Hp [h Hd]. rewrite Hd in Hsel |- *.
      by eapply select_existing_None.
    + apply record_version_insert. by left.
Qed.

Lemma select_as_of_Some rows p t r :
  select_as_of rows p t = Some r ->
  r ∈ rows /\ file_path r = p /\ timestamp r <= t
  /\ forall r', r' ∈ rows -> file_path r' = p -> timestamp r' <= t ->
       timestamp r' <= timestamp r.
Proof.
  unfold select_as_of. intros Hhead.
  apply head_sort_desc, first_greatest_elem in Hhead as [Hin Hub].
  apply list_elem_of_filter in Hin as [[Hp Ht] Hin].
  repeat split; try done.
  intros r' Hin' Hp' Ht'. apply Hub. by apply list_elem_of_filter.
Qed.

Lemma select_as_of_None rows p t :
  select_as_of rows p t = None ->
  forall r', r' ∈ rows -> file_path r' = p -> ~ timestamp r' <= t.
Proof.
  unfold select_as_of. intros Hhead r' Hin Hp Ht.
  apply head_None, sort_by_nil in Hhead.
  eapply filter_nil_not_elem_of; [exact Hhead | | exact Hin]. by split.
Qed.

Lemma NoDup_fmap_eq {A B} (f : A -> B) (l : list A) x y :
  NoDup (f <$> l) -> x ∈ l -> y ∈ l -> f x = f y -> x = y.
Proof.
  induction l as [|a l IH]; intros Hnd Hx Hy Hf; [by apply elem_of_nil in Hx |].
  rewrite fmap_cons in Hnd. apply NoDup_cons in Hnd as [Hna Hnd].
  apply elem_of_cons in Hx as [-> | Hx]; apply elem_of_cons in Hy as [-> | Hy].
  - reflexivity.
  - exfalso. apply Hna. rewrite Hf. apply list_elem_of_fmap. by exists y.
  - exfalso. apply Hna. rewrite <- Hf. apply list_elem_of_fmap. by exists x.
  - by apply IH.
Qed.

(** With unique ids, the sweep keeps exactly the rows outside [to_delete]. *)
Lemma cleanup_catalog py_now days k w :
  NoDup (version_id <$> catalog w) ->
  let cutoff := py_now - days * microseconds_per_day in
  let w' := snd (cleanup_old_versions py_now days k w) in
  files w' = files w /\
  forall r, r ∈ catalog w' <-> r ∈ catalog w /\ ~ to_delete (catalog w) cutoff k r.
Proof.
  intros Hnd cutoff w'. subst w'. unfold cleanup_old_versions. unfold_m.
  fold cutoff. cbn [snd catalog files]. split; [reflexivity |].
  intros r. rewrite list_elem_of_filter. split.
  - intros [Hid Hin]. split; [exact Hin |]. intros Hdel. apply Hid.
    apply list_elem_of_fmap. exists r. split; [reflexivity |].
    by apply list_elem_of_filter.
  - intros [Hin Hkeep]. split; [| exact Hin]. intros Hid.
    apply list_elem_of_fmap in Hid as (r' & Heq & Hr').
    apply list_elem_of_filter in Hr' as [Hdel Hin'].
    assert (r = r') as -> by (eapply NoDup_fmap_eq; eauto). by apply Hkeep.
Qed.

Lemma to_delete_highest rows cutoff k r V :
  highest_version rows (file_path r) V ->
  to_delete rows cutoff k r <-> timestamp r < cutoff /\ version_number r < V - k.
Proof.
  intros HV. apply highest_version_sql_max in HV. unfold to_delete. by rewrite HV.
Qed.

(** ** Restoring, and storing identical content *)

Lemma select_existing_is_Some rows p h r :
  r ∈ rows -> file_path r = p -> content_hash r = Some h ->
  is_Some (select_existing rows p (Some h)).
Proof.
  intros Hin Hp Hh.
  destruct (select_existing rows p (Some h)) as [i|] eqn:Hsel; [by eauto |].
  exfalso. by eapply select_existing_None.
Qed.

Lemma select_existing_fresh rows p h :
  (forall r, r ∈ rows -> file_path r = p -> content_hash r ≠ Some h) ->
  select_existing rows p (Some h) = None.
Proof.
  intros Hfresh.
  destruct (select_existing rows p (Some h)) as [i|] eqn:Hsel; [| reflexivity].
  apply select_existing_Some in Hsel as (r & Hin & _ & Hp & Hh & _).
  exfalso. by eapply Hfresh.
Qed.

Lemma resolve_target_elem rows p tv tts row :
  resolve_target rows p tv tts = Some row -> row ∈ rows /\ file_path row = p.
Proof.
  unfold resolve_target. intros Hres.
  assert (match tts with
          | Some t => select_as_of rows p t
          | None => select_previous rows p
          end = Some row -> row ∈ rows /\ file_path row = p) as Hother.
  { destruct tts as [t|]; intros H.
    - apply select_as_of_Some in H. tauto.
    - unfold select_previous in H. apply list_elem_of_lookup_2 in H.
      apply elem_of_sort_by, elem_of_rows_of in H. tauto. }
  destruct tv as [v|]; [| by apply Hother].
  destruct (truthy_int v); [| by apply Hother].
  unfold select_version in Hres. apply head_Some_elem_of in Hres.
  apply list_elem_of_filter in Hres. tauto.
Qed.

Lemma with_blob_lookup_Some self fs content loc c :
  fs !! loc = Some c -> with_blob self fs content !! loc = Some c.
Proof.
  intros Hloc. unfold with_blob. destruct content as [c'|]; [| exact Hloc].
  destruct (fs !! blob_location self (SHA256.hexdigest c')) eqn:Hb; [exact Hloc |].
  rewrite lookup_insert_ne; [exact Hloc | congruence].
Qed.

Lemma record_version_files_lookup self db p op md w loc c :
  files w !! loc = Some c ->
  files (snd (record_version self db p op md w)) !! loc = Some c.
Proof.
  intros Hloc.
  destruct (record_version_cases self db p op md w) as [[-> _] | ->]; cbn [snd files].
  - exact Hloc.
  - by apply with_blob_lookup_Some.
Qed.

Lemma record_version_catalog self db p op md w :
  catalog (snd (record_version self db p op md w)) = catalog w
  \/ catalog (snd (record_version self db p op md w))
     = catalog w ++ [recorded_row self db (catalog w) p op md (files w !! p)].
Proof.
  destruct (record_version_cases self db p op md w) as [[-> _] | ->]; cbn [snd catalog];
    [by left | by right].
Qed.

(** Under blob integrity (the blob of the resolved row hashes to its
    [content_hash]), a restore that goes through leaves the table as the
    pre-restore snapshot left it: the final [record_version] finds the
    restored digest in the path's history and returns early. *)
Lemma restore_version_logs_no_restore_row
    self db1 db2 p tv tts w row loc c :
  resolve_target (catalog w) p tv tts = Some row ->
  storage_location row = Some loc ->
  files w !! loc = Some c ->
  content_hash row = Some (SHA256.hexdigest c) ->
  truthy_str loc = true -> os_path_dirname p ≠ EmptyString -> loc ≠ p ->
  let w1 := snd (record_version self db1 p "pre_restore" None w) in
  restore_version self db1 db2 p tv tts w
  = (Return (mkUndoResponse true p (version_number row)
               (RestoredTo (version_number row))),
     mkWorld (catalog w1) (<[p := c]> (files w1))).
Proof.
  intros Hrow Hloc Hc Hhash Htr Hdir Hne w1.
  rewrite (restore_version_stored _ _ _ _ _ _ _ _ _ Hrow Hloc Htr) by eauto.
  fold w1. rewrite (bool_decide_eq_false_2 _ Hdir).
  assert (files w1 !! loc = Some c) as -> by by apply record_version_files_lookup.
  rewrite (bool_decide_eq_false_2 _ Hne).
  destruct (resolve_target_elem _ _ _ _ _ Hrow) as [Hin Hp].
  assert (row ∈ catalog w1) as Hin1.
  { subst w1. destruct (record_version_catalog self db1 p "pre_restore" None w)
      as [-> | ->]; set_solver. }
  destruct (select_existing_is_Some (catalog w1) p _ row Hin1 Hp Hhash) as [i Hi].
  erewrite record_version_dedup; [reflexivity | | ].
  - cbn [catalog files]. rewrite lookup_insert_eq. exact Hi.
  - intros H. repeat (apply elem_of_cons in H as [H | H]; [discriminate |]).
    by apply elem_of_nil in H.
Qed.

Lemma identical_content_one_blob self db1 db2 p1 p2 op1 op2 md1 md2 c w :
  p1 ≠ p2 ->
  files w !! p1 = Some c -> files w !! p2 = Some c ->
  (forall r, r ∈ catalog w -> file_path r = p1 \/ file_path r = p2 ->
     content_hash r ≠ Some (SHA256.hexdigest c)) ->
  let loc :=
    os_path_join
      (os_path_join (storage_path self) (substring 0 2 (SHA256.hexdigest c)))
      (SHA256.hexdigest c) in
  let w1 := snd (record_version self db1 p1 op1 md1 w) in
  let w2 := snd (record_version self db2 p2 op2 md2 w1) in
  (forall w0, _get_storage_path self (SHA256.hexdigest c) w0 = (Return loc, w0))
  /\ (exists r1 r2,
        catalog w2 = catalog w ++ [r1; r2]
        /\ file_path r1 = p1 /\ file_path r2 = p2
        /\ storage_location r1 = Some loc /\ storage_location r2 = Some loc)
  /\ files w1 = match files w !! loc with
                | Some _ => files w
                | None => <[loc := c]> (files w)
                end
  /\ files w2 = files w1.
Proof.
  intros Hne Hp1 Hp2 Hfresh loc w1 w2.
  fold (blob_location self (SHA256.hexdigest c)) in loc.
  split. { intros w0. apply get_storage_path_eq, hexdigest_truthy. }
  assert (record_version self db1 p1 op1 md1 w
          = (Return (Some (new_id db1)),
             mkWorld (catalog w ++ [recorded_row self db1 (catalog w) p1 op1 md1 (Some c)])
                     (with_blob self (files w) (Some c)))) as Hw1.
  { rewrite <- Hp1. apply record_version_insert. left. rewrite Hp1.
    apply select_existing_fresh. intros r Hin Hp. apply Hfresh; [exact Hin | by left]. }
  assert (files w1 !! p2 = Some c) as Hp2'.
  { subst w1. by apply record_version_files_lookup. }
  assert (record_version self db2 p2 op2 md2 w1
          = (Return (Some (new_id db2)),
             mkWorld (catalog w1 ++ [recorded_row self db2 (catalog w1) p2 op2 md2 (Some c)])
                     (with_blob self (files w1) (Some c)))) as Hw2.
  { rewrite <- Hp2'. apply record_version_insert. left. rewrite Hp2'.
    apply select_existing_fresh. intros r Hin Hp. subst w1. rewrite Hw1 in Hin.
    cbn [snd catalog] in Hin. apply elem_of_app in Hin as [Hin | Hin].
    - apply Hfresh; [exact Hin | by right].
    - apply list_elem_of_singleton in Hin as ->. cbn [recorded_row file_path] in Hp.
      congruence. }
  assert (files w1 = with_blob self (files w) (Some c)) as Hf1.
  { subst w1. by rewrite Hw1. }
  split; [| split].
  - eexists _, _. subst w2. rewrite Hw2. cbn [snd catalog].
    subst w1. rewrite Hw1. cbn [snd catalog]. rewrite <- app_assoc.
    split; [reflexivity |]. by repeat split.
  - exact Hf1.
  - subst w2. rewrite Hw2. cbn [snd files]. unfold with_blob.
    fold loc. rewrite Hf1. unfold with_blob. fold loc.
    destruct (files w !! loc) as [c'|] eqn:Hl.
    + by rewrite Hl.
    + by rewrite lookup_insert_eq.
Qed.

(** ** Order of the sorted rows; [time_travel] never reads [operation] *)

Lemma insert_by_desc_sorted key x l :
  Sorted (fun a b => key b <= key a) l ->
  Sorted (fun a b => key b <= key a) (insert_by (desc key) x l).
Proof.
  induction l as [|y l IH]; intros Hs; simpl.
  - repeat constructor.
  - unfold desc at 1. destruct (Z.leb_spec (key y) (key x)) as [Hle | Hlt].
    + constructor; [exact Hs | by constructor].
    + apply Sorted_inv in Hs as [Hs Hhd]. constructor; [by apply IH |].
      destruct l as [|z l]; simpl.
      * constructor. lia.
      * unfold desc. destruct (key z <=? key x); constructor; [lia |].
        by apply HdRel_inv in Hhd.
Qed.

Lemma sort_by_desc_sorted key l :
  Sorted (fun a b => key b <= key a) (sort_by (desc key) l).
Proof.
  induction l as [|x l IH]; simpl; [constructor | by apply insert_by_desc_sorted].
Qed.

Section MapFacts.
Context {A : Type} (g : A -> A) (before : A -> A -> bool).
Hypothesis before_g : forall x y, before (g x) (g y) = before x y.

Lemma insert_by_fmap x l :
  insert_by before (g x) (g <$> l) = g <$> insert_by before x l.
Proof.
  induction l as [|y l IH]; [reflexivity |].
  rewrite fmap_cons. cbn [insert_by]. rewrite before_g.
  destruct (before x y); [reflexivity |].
  rewrite fmap_cons. f_equal. exact IH.
Qed.

Lemma sort_by_fmap l : sort_by before (g <$> l) = g <$> sort_by before l.
Proof.
  induction l as [|x l IH]; [reflexivity |].
  rewrite fmap_cons. cbn [sort_by]. rewrite IH. apply insert_by_fmap.
Qed.

End MapFacts.

Lemma filter_fmap_same {A} (g : A -> A) (P : A -> Prop)
    `{!forall x, Decision (P x)} (l : list A) :
  (forall x, P (g x) <-> P x) -> filter P (g <$> l) = g <$> filter P l.
Proof.
  intros HP. induction l as [|x l IH]; [reflexivity |].
  rewrite fmap_cons, !filter_cons.
  destruct (decide (P (g x))) as [Hg | Hg]; destruct (decide (P x)) as [Hx | Hx].
  - rewrite fmap_cons. f_equal. exact IH.
  - exfalso. by apply Hx, HP.
  - exfalso. by apply Hg, HP.
  - exact IH.
Qed.

Lemma distinct_on_path_fmap op prev rows :
  distinct_on_path prev (with_operation op <$> rows)
  = with_operation op <$> distinct_on_path prev rows.
Proof.
  revert prev. induction rows as [|r rows IH]; intros prev; [reflexivity |].
  rewrite fmap_cons. cbn [distinct_on_path with_operation file_path].
  destruct (bool_decide (prev = Some (file_path r))); [apply IH |].
  rewrite fmap_cons. f_equal. apply IH.
Qed.

Lemma select_time_travel_with_operation op rows pattern t :
  select_time_travel (with_operation op <$> rows) pattern t
  = with_operation op <$> select_time_travel rows pattern t.
Proof.
  unfold select_time_travel.
  rewrite filter_fmap_same by reflexivity.
  rewrite sort_by_fmap by reflexivity.
  apply distinct_on_path_fmap.
Qed.

(** [time_travel] never reads the [operation] column: a delete record is
    listed like any other row. *)
Lemma time_travel_ignores_operation op directory t w :
  fst (time_travel directory t
         (mkWorld (with_operation op <$> catalog w) (files w)))
  = fst (time_travel directory t w).
Proof.
  unfold time_travel. unfold_m. cbn [fst catalog].
  rewrite select_time_travel_with_operation.
  rewrite <- list_fmap_compose. reflexivity.
Qed.

(** ** Selectors that resolve nothing; rows written by the service *)

Lemma head_filter_None {A} (P : A -> Prop) `{!forall x, Decision (P x)} (l : list A) :
  head (filter P l) = None <-> forall x, x ∈ l -> ~ P x.
Proof.
  rewrite head_None. split.
  - intros Hnil x Hin HP. by eapply filter_nil_not_elem_of.
  - intros Hall. induction l as [|x l IH]; [reflexivity |].
    rewrite filter_cons_False by (apply Hall; set_solver).
    apply IH. intros y Hy. apply Hall. set_solver.
Qed.

Lemma length_sort_by {A} (before : A -> A -> bool) (l : list A) :
  length (sort_by before l) = length l.
Proof. apply Permutation_length, sort_by_perm. Qed.

Lemma select_as_of_None_iff rows p t :
  select_as_of rows p t = None <->
  forall r, r ∈ rows -> file_path r = p -> ~ timestamp r <= t.
Proof.
  split; [apply select_as_of_None |].
  intros Hall. unfold select_as_of. apply head_None, sort_by_nil, head_None.
  apply head_filter_None. intros r Hin [Hp Ht]. by eapply Hall.
Qed.

(** The lookup of [restore_version] finds nothing exactly when no row
    answers the selector. *)
Lemma resolve_target_None rows p tv tts :
  resolve_target rows p tv tts = None <-> no_row_resolves rows p tv tts.
Proof.
  unfold resolve_target, no_row_resolves.
  assert (match tts with
          | Some t => select_as_of rows p t
          | None => select_previous rows p
          end = None <->
          match tts with
          | Some t =>
              forall r, r ∈ rows -> file_path r = p -> ~ timestamp r <= t
          | None => (length (rows_of rows p) < 2)%nat
          end) as Hother.
  { destruct tts as [t|]; [apply select_as_of_None_iff |].
    unfold select_previous. rewrite lookup_ge_None, length_sort_by. lia. }
  destruct tv as [v|]; [| exact Hother].
  destruct (truthy_int v); [| exact Hother].
  unfold select_version. rewrite head_filter_None. split.
  - intros Hall r Hin Hp Hv. by eapply Hall.
  - intros Hall r Hin [Hp Hv]. by eapply Hall.
Qed.

(** The lookup by timestamp never reads the [version_number] column. *)
Lemma select_as_of_ignores_version f rows p t :
  select_as_of (with_version f <$> rows) p t
  = with_version f <$> select_as_of rows p t.
Proof.
  unfold select_as_of.
  rewrite filter_fmap_same by reflexivity.
  rewrite sort_by_fmap by reflexivity.
  by destruct (sort_by _ _).
Qed.

Lemma restore_version_catalog self db1 db2 p tv tts w :
  let rows := catalog w in
  let rows' := catalog (snd (restore_version self db1 db2 p tv tts w)) in
  rows' = rows
  \/ (exists r1, rows' = rows ++ [r1] /\ r1 = recorded_row self db1 rows p
                    "pre_restore" None (files w !! p))
  \/ (exists mid c md, (mid = rows \/ mid = rows ++ [recorded_row self db1 rows p
                    "pre_restore" None (files w !! p)])
       /\ (rows' = mid \/ rows' = mid ++ [recorded_row self db2 mid p "restore" md c])).
Proof.
  intros rows rows'. subst rows rows'.
  destruct (resolve_target (catalog w) p tv tts) as [row|] eqn:Hrow.
  2: { left. rewrite restore_version_not_stored; [reflexivity | by rewrite Hrow]. }
  destruct (blob_available_or_not (files w) row) as [Hno | (loc & Hloc & Htr & Hsome)].
  { left. rewrite restore_version_not_stored; [reflexivity | by rewrite Hrow]. }
  rewrite (restore_version_stored _ _ _ _ _ _ _ _ _ Hrow Hloc Htr Hsome).
  set (w1 := snd (record_version self db1 p "pre_restore" None w)).
  assert (catalog w1 = catalog w \/
          catalog w1 = catalog w ++ [recorded_row self db1 (catalog w) p
                                       "pre_restore" None (files w !! p)]) as Hw1
    by apply record_version_catalog.
  assert (catalog w1 = catalog w \/
          exists r1, catalog w1 = catalog w ++ [r1] /\
                     r1 = recorded_row self db1 (catalog w) p "pre_restore" None
                            (files w !! p)) as Hw1'.
  { destruct Hw1 as [-> | ->]; [by left | right; eauto]. }
  destruct (bool_decide (os_path_dirname p = EmptyString)); [tauto |].
  destruct (files w1 !! loc) as [c|]; [| tauto].
  destruct (bool_decide (loc = p)); [tauto |].
  right. right. cbn [snd].
  exists (catalog w1), (Some c), (Some [("restored_from_version"%string, version_number row)]).
  split; [exact Hw1 |].
  destruct (record_version_catalog self db2 p "restore"
              (Some [("restored_from_version"%string, version_number row)])
              (mkWorld (catalog w1) (<[p := c]> (files w1)))) as [-> | ->];
    [by left | right].
  cbn [catalog files]. by rewrite lookup_insert_eq.
Qed.

(** Whatever holds of every row that [record_version] can write holds of
    every row of a run. *)
Lemma run_rows_Forall self (Q : VersionRow -> Prop) :
  (forall db rows p op md content, Q (recorded_row self db rows p op md content)) ->
  forall events w, Forall Q (catalog w) -> Forall Q (catalog (run self events w)).
Proof.
  intros HQ events. induction events as [|e events IH]; intros w Hw; [exact Hw |].
  change (run self (e :: events) w) with (run self events (apply_event self w e)).
  apply IH. destruct e as [db p op | db1 db2 p tv tts | p c | p];
    cbn [apply_event catalog]; try exact Hw.
  - destruct (record_version_catalog self db p op None w) as [-> | ->]; [exact Hw |].
    apply Forall_app. split; [exact Hw |]. apply Forall_singleton, HQ.
  - destruct (restore_version_catalog self db1 db2 p tv tts w)
      as [-> | [(r1 & -> & ->) | (mid & c & md & Hmid & Hrows)]]; [exact Hw | |].
    + apply Forall_app. split; [exact Hw |]. apply Forall_singleton, HQ.
    + assert (Forall Q mid) as Hm.
      { destruct Hmid as [-> | ->]; [exact Hw |].
        apply Forall_app. split; [exact Hw |]. apply Forall_singleton, HQ. }
      destruct Hrows as [-> | ->]; [exact Hm |].
      apply Forall_app. split; [exact Hm |]. apply Forall_singleton, HQ.
Qed.

Lemma run_rows_stored_by_digest self events w :
  catalog w = [] -> Forall (stored_by_digest self) (catalog (run self events w)).
Proof.
  intros Hempty. apply run_rows_Forall.
  - intros db rows p op md content. reflexivity.
  - rewrite Hempty. constructor.
Qed.

Lemma no_digest_no_blob self fs r :
  stored_by_digest self r -> content_hash r = None -> blob_unavailable fs r.
Proof.
  unfold stored_by_digest, blob_unavailable. intros -> ->. exact I.
Qed.

(** If, besides, the live content is already among the versions of the path,
    the pre-restore snapshot is skipped as well and the table is left
    untouched. *)
Lemma restore_version_appends_nothing
    self db1 db2 p tv tts w row loc c live r :
  resolve_target (catalog w) p tv tts = Some row ->
  storage_location row = Some loc ->
  files w !! loc = Some c ->
  content_hash row = Some (SHA256.hexdigest c) ->
  truthy_str loc = true -> os_path_dirname p ≠ EmptyString -> loc ≠ p ->
  files w !! p = Some live ->
  r ∈ catalog w -> file_path r = p -> content_hash r = Some (SHA256.hexdigest live) ->
  restore_version self db1 db2 p tv tts w
  = (Return (mkUndoResponse true p (version_number row)
               (RestoredTo (version_number row))),
     mkWorld (catalog w) (<[p := c]> (files w))).
Proof.
  intros Hrow Hloc Hc Hhash Htr Hdir Hne Hlive Hin Hp Hh.
  rewrite (restore_version_logs_no_restore_row _ _ _ _ _ _ _ _ _ _ Hrow Hloc Hc Hhash
             Htr Hdir Hne).
  destruct (select_existing_is_Some (catalog w) p _ r Hin Hp Hh) as [i Hi].
  rewrite (record_version_dedup self db1 p "pre_restore" None w i);
    [reflexivity | by rewrite Hlive |].
  intros H. repeat (apply elem_of_cons in H as [H | H]; [discriminate |]).
  by apply elem_of_nil in H.
Qed.

(** ** The claims *)

Lemma soft_modify : "modify"%string ∉ ["delete"; "rename"]%string.
Proof. apply (bool_decide_unpack _). vm_compute. exact I. Defined.

(** C1, at the scenario of the specification (versions 1 = X and 2 = Y, live
    file Y): [restore_version] to version 1 reports success and puts X back
    in the live file, but appends neither a [pre_restore] row nor a
    [restore] row; the table keeps its two rows.  Both calls of
    [record_version] find the digest among the versions of the path and
    return early; [get_history] still shows two versions.  (Lemmas
    [restore_version_logs_no_restore_row] and
    [restore_version_appends_nothing] give the general form.) *)
Theorem restore_version_scenario_appends_no_rows :
  let result :=
    restore_version svc (mkDb 104%N 4000) (mkDb 105%N 5000) a_txt (Some 1) None
      scenario_world in
  files scenario_world !! a_txt = Some (bytes_of "Y")
  /\ operation <$> catalog scenario_world = ["create"; "modify"]%string
  /\ fst result = Return (mkUndoResponse true a_txt 1 (RestoredTo 1))
  /\ files (snd result) !! a_txt = Some (bytes_of "X")
  /\ catalog (snd result) = catalog scenario_world
  /\ (exists history,
        fst (get_history a_txt 50 0 (snd result)) = Return (history, 2)
        /\ operation <$> history = ["modify"; "create"]%string).
Proof.
  repeat split; try (vm_compute; reflexivity).
  eexists. split; vm_compute; reflexivity.
Qed.

(** C2, counterexample: the most recent version of the path holds Y, the live
    file holds X again (the content of version 1).  The new digest differs
    from the digest of the most recent version, yet no row is inserted: the
    call returns the id of version 1. *)
Lemma record_version_dedups_against_older_version :
  content_hash <$> last (catalog back_to_x_world) = Some (Some y_digest)
  /\ SHA256.hexdigest <$> files back_to_x_world !! a_txt = Some x_digest
  /\ record_version svc (mkDb 104%N 4000) a_txt "modify" None back_to_x_world
     = (Return (Some 101%N), back_to_x_world)
  /\ version_id <$> head (catalog back_to_x_world) = Some 101%N.
Proof.
  split; [vm_compute; reflexivity |]. split; [vm_compute; reflexivity |].
  split; [| vm_compute; reflexivity].
  apply record_version_dedup; [vm_compute; reflexivity | exact soft_modify].
Qed.

(** C2, amended: for a soft event (not delete or rename), [record_version]
    compares the new digest with every version of the path.  If some version
    has it, the call returns the id of the highest-numbered such version and
    changes nothing; this covers the case where the most recent version has
    it.  Only if no version of the path has the digest (or the file cannot
    be read) is one row appended, numbered one above the current maximum. *)
Theorem record_version_dedups_against_any_version self db p op md w :
  op ∉ ["delete"; "rename"]%string ->
  let d := SHA256.hexdigest <$> files w !! p in
  (exists r,
      r ∈ catalog w /\ file_path r = p /\ is_Some d /\ content_hash r = d
      /\ (forall r', r' ∈ catalog w -> file_path r' = p -> content_hash r' = d ->
            version_number r' <= version_number r)
      /\ record_version self db p op md w = (Return (Some (version_id r)), w))
  \/ ((forall r, r ∈ catalog w -> file_path r = p -> is_Some d ->
         content_hash r ≠ d)
      /\ record_version self db p op md w
         = (Return (Some (new_id db)),
            mkWorld
              (catalog w ++ [recorded_row self db (catalog w) p op md (files w !! p)])
              (with_blob self (files w) (files w !! p)))).
Proof. apply record_version_soft. Qed.

Lemma record_version_dedups_against_any_version_witness :
  ("modify"%string ∉ ["delete"; "rename"]%string)
  /\ ((exists r,
         r ∈ catalog back_to_x_world /\ file_path r = a_txt
         /\ is_Some (SHA256.hexdigest <$> files back_to_x_world !! a_txt)
         /\ content_hash r = SHA256.hexdigest <$> files back_to_x_world !! a_txt
         /\ (forall r', r' ∈ catalog back_to_x_world -> file_path r' = a_txt ->
               content_hash r'
               = SHA256.hexdigest <$> files back_to_x_world !! a_txt ->
               version_number r' <= version_number r)
         /\ record_version svc (mkDb 104%N 4000) a_txt "modify" None back_to_x_world
            = (Return (Some (version_id r)), back_to_x_world))
      \/ ((forall r, r ∈ catalog back_to_x_world -> file_path r = a_txt ->
             is_Some (SHA256.hexdigest <$> files back_to_x_world !! a_txt) ->
             content_hash r ≠ SHA256.hexdigest <$> files back_to_x_world !! a_txt)
          /\ record_version svc (mkDb 104%N 4000) a_txt "modify" None back_to_x_world
             = (Return (Some 104%N),
                mkWorld
                  (catalog back_to_x_world
                   ++ [recorded_row svc (mkDb 104%N 4000) (catalog back_to_x_world)
                         a_txt "modify" None (files back_to_x_world !! a_txt)])
                  (with_blob svc (files back_to_x_world)
                     (files back_to_x_world !! a_txt))))).
Proof.
  split; [exact soft_modify |].
  exact (record_version_dedups_against_any_version svc (mkDb 104%N 4000) a_txt
           "modify" None back_to_x_world soft_modify).
Defined.

(** C3, at a path created at 1000, modified at 2000 and deleted at 3000:
    [time_travel] as of 3000 lists the path with its delete row (version 3,
    size 0) instead of leaving it out.  The query that is run has no
    [operation != 'delete'] condition (lemma
    [time_travel_ignores_operation]); as of 2500 the listing is version 2. *)
Theorem time_travel_lists_deleted_file :
  operation <$> catalog deleted_world = ["create"; "modify"; "delete"]%string
  /\ fst (time_travel "/home/u/" 3000 deleted_world)
     = Return (mkTimeTravel "/home/u/" 3000 [mkFileEntry a_txt 3 0 3000] 1)
  /\ fst (time_travel "/home/u/" 2500 deleted_world)
     = Return (mkTimeTravel "/home/u/" 2500 [mkFileEntry a_txt 2 2 2000] 1).
Proof. repeat split; vm_compute; reflexivity. Qed.

Lemma five_ids_distinct : NoDup (version_id <$> catalog five_world).
Proof. apply (bool_decide_unpack _). vm_compute. exact I. Defined.

(** C4, counterexample: five versions of one path, all older than the cutoff,
    swept with [max_age = 0] and a floor of 3.  Version 2 is older than the
    cutoff and has version number <= 5 - 3, yet it is kept: only version 1
    goes. *)
Lemma cleanup_keeps_version_at_the_floor :
  highest_version (catalog five_world) a_txt 5
  /\ version_number
       <$> catalog (snd (cleanup_old_versions 100 0 3 five_world))
     = [2; 3; 4; 5]
  /\ exists r,
       r ∈ catalog five_world
       /\ file_path r = a_txt
       /\ timestamp r < 100 - 0 * microseconds_per_day
       /\ version_number r <= 5 - 3
       /\ r ∈ catalog (snd (cleanup_old_versions 100 0 3 five_world)).
Proof.
  split; [| split].
  - apply highest_version_sql_max. vm_compute. reflexivity.
  - vm_compute. reflexivity.
  - exists (recorded_row svc (mkDb 302%N 0)
              [recorded_row svc (mkDb 301%N 0) [] a_txt "create" None
                 (Some (bytes_of "1"))]
              a_txt "modify" None (Some (bytes_of "2"))).
    split; [| split; [| split; [| split]]].
    + apply (bool_decide_unpack _). vm_compute. exact I.
    + reflexivity.
    + vm_compute. reflexivity.
    + vm_compute. discriminate.
    + apply (bool_decide_unpack _). vm_compute. exact I.
Qed.

(** C4, amended: the sweep deletes exactly the rows that are older than the
    cutoff and whose version number is strictly below [V - k], where [V] is
    the highest version number of the row's path and [k] the per-file
    parameter; files are not touched.  So a row numbered [V - k] or above is
    never deleted: with [k = 3] and five versions, versions 2 to 5 stay. *)
Theorem cleanup_deletes_strictly_below_floor py_now days k w :
  NoDup (version_id <$> catalog w) ->
  let cutoff := py_now - days * microseconds_per_day in
  let w' := snd (cleanup_old_versions py_now days k w) in
  files w' = files w
  /\ (forall r V,
        r ∈ catalog w -> highest_version (catalog w) (file_path r) V ->
        (r ∈ catalog w' <-> ~ (timestamp r < cutoff /\ version_number r < V - k)))
  /\ (forall r, r ∈ catalog w' -> r ∈ catalog w)
  /\ (forall r V,
        r ∈ catalog w -> highest_version (catalog w) (file_path r) V ->
        V - k <= version_number r -> r ∈ catalog w').
Proof.
  intros Hnd cutoff w'.
  destruct (cleanup_catalog py_now days k w Hnd) as [Hfiles Hrows].
  fold cutoff w' in Hfiles, Hrows.
  split; [exact Hfiles |]. split; [| split].
  - intros r V Hin HV. rewrite Hrows, (to_delete_highest _ _ _ _ _ HV). tauto.
  - intros r Hr. by apply Hrows in Hr as [Hr _].
  - intros r V Hin HV Hfloor. apply Hrows. split; [exact Hin |].
    rewrite (to_delete_highest _ _ _ _ _ HV). lia.
Qed.

Lemma cleanup_deletes_strictly_below_floor_witness :
  NoDup (version_id <$> catalog five_world)
  /\ files (snd (cleanup_old_versions 100 0 3 five_world)) = files five_world
  /\ (forall r V,
        r ∈ catalog five_world ->
        highest_version (catalog five_world) (file_path r) V ->
        (r ∈ catalog (snd (cleanup_old_versions 100 0 3 five_world))
         <-> ~ (timestamp r < 100 - 0 * microseconds_per_day
                /\ version_number r < V - 3)))
  /\ (forall r,
        r ∈ catalog (snd (cleanup_old_versions 100 0 3 five_world)) ->
        r ∈ catalog five_world)
  /\ (forall r V,
        r ∈ catalog five_world ->
        highest_version (catalog five_world) (file_path r) V ->
        V - 3 <= version_number r ->
        r ∈ catalog (snd (cleanup_old_versions 100 0 3 five_world))).
Proof.
  split; [exact five_ids_distinct |].
  exact (cleanup_deletes_strictly_below_floor 100 0 3 five_world five_ids_distinct).
Defined.

Lemma scenario_clock_sorted : Sorted Z.le (clock_of_run scenario_events).
Proof. apply (bool_decide_unpack _). vm_compute. exact I. Defined.

(** C5, counterexample: the contents X, Y and X again are recorded in turn
    for one path.  The content changes before every call, yet the version
    numbers of the rows whose ids the calls return are 1, 2, 1: the third
    call finds the digest of X at version 1, assigns no number and returns
    the id of version 1. *)
Lemma record_version_x_y_x_returns_versions_1_2_1 :
  let r1 := record_version svc (mkDb 101%N 1000) a_txt "create" None
              (run svc [WriteFile a_txt (bytes_of "X")] empty_world) in
  let r2 := record_version svc (mkDb 102%N 2000) a_txt "modify" None
              (run svc [WriteFile a_txt (bytes_of "Y")] (snd r1)) in
  let r3 := record_version svc (mkDb 103%N 3000) a_txt "modify" None
              (run svc [WriteFile a_txt (bytes_of "X")] (snd r2)) in
  fst r1 = Return (Some 101%N)
  /\ fst r2 = Return (Some 102%N)
  /\ fst r3 = Return (Some 101%N)
  /\ (fun r => (version_id r, version_number r)) <$> catalog (snd r3)
     = [(101%N, 1); (102%N, 2)].
Proof. repeat split; vm_compute; reflexivity. Qed.

(** C5, amended: in every world reached from an empty table by calls of
    [record_version] and [restore_version] and by changes to live files,
    with a database clock that does not go back, the version numbers of the
    rows of each path are, in insertion order, 1, 2, ..., n, and a later
    version number comes with a later or equal timestamp.  One more call of
    [record_version] is assigned a number only when it inserts.  For delete
    and rename, and for content whose digest no version of the path has (or
    a file that cannot be read), it appends exactly one row, numbered n + 1,
    with the database's id and timestamp, and returns that id.  Otherwise,
    when some version of the path, not only the latest, has the digest of
    the live content, it changes nothing and returns the id of a version
    that already exists, numbered at most n. *)
Theorem version_numbers_assigned_to_new_content self events w :
  catalog w = [] ->
  Sorted Z.le (clock_of_run events) ->
  forall p,
    let w' := run self events w in
    let rows := catalog w' in
    let n := Z.of_nat (length (rows_of rows p)) in
    version_number <$> rows_of rows p
    = (fun i => Z.of_nat i) <$> seq 1 (length (rows_of rows p))
    /\ (forall r1 r2,
          r1 ∈ rows_of rows p -> r2 ∈ rows_of rows p ->
          version_number r1 < version_number r2 ->
          timestamp r1 <= timestamp r2)
    /\ (forall db op md,
          let d := SHA256.hexdigest <$> files w' !! p in
          let res := record_version self db p op md w' in
          (op ∈ ["delete"; "rename"]%string
           \/ (forall x, x ∈ rows -> file_path x = p -> is_Some d ->
                 content_hash x ≠ d) ->
           fst res = Return (Some (new_id db))
           /\ exists r,
                catalog (snd res) = rows ++ [r]
                /\ version_id r = new_id db /\ file_path r = p
                /\ version_number r = n + 1
                /\ content_hash r = d /\ timestamp r = now db)
          /\ (op ∉ ["delete"; "rename"]%string ->
              forall x, x ∈ rows -> file_path x = p -> is_Some d ->
                content_hash x = d ->
                snd res = w'
                /\ exists r,
                     r ∈ rows /\ file_path r = p /\ content_hash r = d
                     /\ version_number x <= version_number r <= n
                     /\ fst res = Return (Some (version_id r)))).
Proof.
  intros Hempty Hclock p w' rows n.
  destruct (run_gapless_time_ordered self events w Hempty Hclock p) as [Hg Ho].
  fold w' in Hg, Ho. fold rows in Hg, Ho.
  split; [exact Hg |]. split; [exact Ho |].
  intros db op md d res. split.
  - intros Hnew.
    assert (select_existing rows p d = None \/ op ∈ ["delete"; "rename"]%string)
      as Hins.
    { destruct Hnew as [Hop | Hfresh]; [by right | left].
      subst d. destruct (files w' !! p) as [c|]; [| reflexivity].
      apply select_existing_fresh. intros x Hx Hp. apply Hfresh; by eauto. }
    subst res. rewrite (record_version_insert self db p op md w' Hins).
    cbn [fst snd catalog]. split; [reflexivity |].
    eexists. split; [reflexivity |].
    cbn [recorded_row version_id file_path version_number content_hash timestamp].
    repeat split. fold rows. subst n.
    by rewrite (select_current_version_gapless _ _ Hg).
  - intros Hop x Hx Hp [h Hd] Hh. fold d in Hd.
    assert (is_Some (select_existing rows p (Some h))) as [i Hi].
    { apply (select_existing_is_Some rows p h x); [exact Hx | exact Hp |].
      by rewrite Hh, Hd. }
    destruct (select_existing_Some _ _ _ _ Hi) as (r & Hr & Hid & Hrp & Hrh & Hmax).
    subst res.
    rewrite (record_version_dedup self db p op md w' i);
      [| fold d; by rewrite Hd | exact Hop].
    cbn [fst snd]. split; [reflexivity |].
    exists r. split; [exact Hr |]. split; [exact Hrp |].
    split; [by rewrite Hrh, Hd |]. split; [| by rewrite Hid].
    split; [apply Hmax; [exact Hx | exact Hp | by rewrite Hh, Hd] |].
    assert (version_number r ∈ version_number <$> rows_of rows p) as Hv.
    { apply list_elem_of_fmap. exists r. split; [reflexivity |].
      by apply elem_of_rows_of. }
    rewrite Hg in Hv. apply list_elem_of_fmap in Hv as (k & -> & Hk).
    apply elem_of_seq in Hk. subst n. lia.
Qed.

Lemma version_numbers_assigned_to_new_content_witness :
  catalog empty_world = []
  /\ Sorted Z.le (clock_of_run scenario_events)
  /\ forall p,
       let w' := run svc scenario_events empty_world in
       let rows := catalog w' in
       let n := Z.of_nat (length (rows_of rows p)) in
       version_number <$> rows_of rows p
       = (fun i => Z.of_nat i) <$> seq 1 (length (rows_of rows p))
       /\ (forall r1 r2,
             r1 ∈ rows_of rows p -> r2 ∈ rows_of rows p ->
             version_number r1 < version_number r2 ->
             timestamp r1 <= timestamp r2)
       /\ (forall db op md,
             let d := SHA256.hexdigest <$> files w' !! p in
             let res := record_version svc db p op md w' in
             (op ∈ ["delete"; "rename"]%string
              \/ (forall x, x ∈ rows -> file_path x = p -> is_Some d ->
                    content_hash x ≠ d) ->
              fst res = Return (Some (new_id db))
              /\ exists r,
                   catalog (snd res) = rows ++ [r]
                   /\ version_id r = new_id db /\ file_path r = p
                   /\ version_number r = n + 1
                   /\ content_hash r = d /\ timestamp r = now db)
             /\ (op ∉ ["delete"; "rename"]%string ->
                 forall x, x ∈ rows -> file_path x = p -> is_Some d ->
                   content_hash x = d ->
                   snd res = w'
                   /\ exists r,
                        r ∈ rows /\ file_path r = p /\ content_hash r = d
                        /\ version_number x <= version_number r <= n
                        /\ fst res = Return (Some (version_id r)))).
Proof.
  split; [reflexivity |]. split; [exact scenario_clock_sorted |].
  exact (version_numbers_assigned_to_new_content svc scenario_events empty_world
           eq_refl scenario_clock_sorted).
Defined.

(** C6, counterexample: versions 1 and 2 of a path carry the same timestamp
    7000.  With the timestamp selector 7000 both rows qualify and share the
    latest timestamp; the resolved row is version 1, not the row with the
    highest version number. *)
Lemma restore_by_timestamp_tie_not_highest_version :
  exists r r',
    resolve_target (catalog same_tick_world) a_txt None (Some 7000) = Some r
    /\ r' ∈ catalog same_tick_world
    /\ file_path r' = a_txt
    /\ timestamp r' <= 7000
    /\ timestamp r' = timestamp r
    /\ version_number r < version_number r'.
Proof.
  exists same_tick_first,
    (recorded_row svc (mkDb 402%N 7000) [same_tick_first] a_txt "modify" None
       (Some (bytes_of "Y"))).
  split; [vm_compute; reflexivity |].
  split; [apply (bool_decide_unpack _); vm_compute; exact I |].
  split; [reflexivity |]. split; [vm_compute; discriminate |].
  split; [reflexivity |]. vm_compute. reflexivity.
Qed.

(** C6, amended: with a timestamp selector (and no version selector), the
    resolved row is a row of the path with timestamp <= the selector, and no
    qualifying row of the path has a later timestamp.  The query orders by
    timestamp alone: among rows that share the latest timestamp the version
    number plays no part in the choice (lemma
    [select_as_of_ignores_version]). *)
Theorem restore_by_timestamp_resolves_latest rows p t r :
  resolve_target rows p None (Some t) = Some r ->
  r ∈ rows /\ file_path r = p /\ timestamp r <= t
  /\ forall r', r' ∈ rows -> file_path r' = p -> timestamp r' <= t ->
       timestamp r' <= timestamp r.
Proof. apply select_as_of_Some. Qed.

Lemma restore_by_timestamp_resolves_latest_witness :
  resolve_target (catalog same_tick_world) a_txt None (Some 7000)
  = Some same_tick_first
  /\ same_tick_first ∈ catalog same_tick_world
  /\ file_path same_tick_first = a_txt
  /\ timestamp same_tick_first <= 7000
  /\ forall r', r' ∈ catalog same_tick_world -> file_path r' = a_txt ->
       timestamp r' <= 7000 -> timestamp r' <= timestamp same_tick_first.
Proof.
  assert (resolve_target (catalog same_tick_world) a_txt None (Some 7000)
          = Some same_tick_first) as H by (vm_compute; reflexivity).
  split; [exact H |].
  exact (restore_by_timestamp_resolves_latest (catalog same_tick_world) a_txt 7000
           same_tick_first H).
Defined.

(** C7: whatever the selector, if no row answers it (no row of the path with
    the given version; no row of the path up to the given time; fewer than
    two rows of the path when no selector is given), [restore_version]
    returns the failure response "No version found to restore" and leaves
    the world as it was: no row inserted, no blob written, the live file
    untouched. *)
Theorem restore_version_no_row_no_effect self db1 db2 p tv tts w :
  no_row_resolves (catalog w) p tv tts ->
  restore_version self db1 db2 p tv tts w
  = (Return (mkUndoResponse false p 0 NoVersionFound), w).
Proof. intros Hno. by apply restore_version_no_row, resolve_target_None. Qed.

Lemma no_previous_version :
  no_row_resolves (catalog same_tick_world) b_txt (Some 0) None.
Proof. vm_compute. repeat constructor. Defined.

Lemma restore_version_no_row_no_effect_witness :
  no_row_resolves (catalog same_tick_world) b_txt (Some 0) None
  /\ restore_version svc (mkDb 1%N 10) (mkDb 2%N 20) b_txt (Some 0) None
       same_tick_world
     = (Return (mkUndoResponse false b_txt 0 NoVersionFound), same_tick_world).
Proof.
  split; [exact no_previous_version |].
  exact (restore_version_no_row_no_effect svc (mkDb 1%N 10) (mkDb 2%N 20) b_txt
           (Some 0) None same_tick_world no_previous_version).
Defined.

Lemma deleted_row_no_blob : blob_unavailable (files deleted_world) deleted_row.
Proof. exact I. Defined.

(** C8: if the resolved row has nothing to copy back (its storage location
    is NULL, as in a delete record written without a digest, or empty, or no
    file is stored there), [restore_version] returns the failure response
    "Version content not found in storage" for that version and leaves the
    world as it was: the live file is not modified and no [pre_restore] row
    is recorded.  (In every run from an empty table a row without a digest
    has a NULL storage location: lemmas [run_rows_stored_by_digest] and
    [no_digest_no_blob].) *)
Theorem restore_version_content_unavailable self db1 db2 p tv tts w row :
  resolve_target (catalog w) p tv tts = Some row ->
  blob_unavailable (files w) row ->
  restore_version self db1 db2 p tv tts w
  = (Return (mkUndoResponse false p (version_number row) ContentNotFound), w).
Proof. apply restore_version_no_blob. Qed.

Lemma restore_version_content_unavailable_witness :
  resolve_target (catalog deleted_world) a_txt (Some 3) None = Some deleted_row
  /\ blob_unavailable (files deleted_world) deleted_row
  /\ restore_version svc (mkDb 204%N 4000) (mkDb 205%N 5000) a_txt (Some 3) None
       deleted_world
     = (Return (mkUndoResponse false a_txt 3 ContentNotFound), deleted_world).
Proof.
  assert (resolve_target (catalog deleted_world) a_txt (Some 3) None
          = Some deleted_row) as H by (vm_compute; reflexivity).
  split; [exact H |]. split; [exact deleted_row_no_blob |].
  exact (restore_version_content_unavailable svc (mkDb 204%N 4000) (mkDb 205%N 5000)
           a_txt (Some 3) None deleted_world deleted_row H deleted_row_no_blob).
Defined.

Lemma twins_differ : a_txt ≠ b_txt.
Proof. discriminate. Defined.

Lemma twins_fresh r :
  r ∈ catalog twins_world -> file_path r = a_txt \/ file_path r = b_txt ->
  content_hash r ≠ Some (SHA256.hexdigest (bytes_of "X")).
Proof. intros H. exfalso. exact (proj1 (elem_of_nil r) H). Defined.

(** C9: the blob location is computed from the digest alone, as
    storage root / first two characters / digest, whatever the state.  When
    two different paths hold the same bytes (and neither has a version with
    that digest yet), recording both inserts two rows with one and the same
    storage location; the first call writes the blob there unless a file is
    already stored there, and the second call writes nothing. *)
Theorem identical_content_shares_one_blob
    self db1 db2 p1 p2 op1 op2 md1 md2 c w :
  p1 ≠ p2 ->
  files w !! p1 = Some c -> files w !! p2 = Some c ->
  (forall r, r ∈ catalog w -> file_path r = p1 \/ file_path r = p2 ->
     content_hash r ≠ Some (SHA256.hexdigest c)) ->
  let loc :=
    os_path_join
      (os_path_join (storage_path self) (substring 0 2 (SHA256.hexdigest c)))
      (SHA256.hexdigest c) in
  let w1 := snd (record_version self db1 p1 op1 md1 w) in
  let w2 := snd (record_version self db2 p2 op2 md2 w1) in
  (forall w0, _get_storage_path self (SHA256.hexdigest c) w0 = (Return loc, w0))
  /\ (exists r1 r2,
        catalog w2 = catalog w ++ [r1; r2]
        /\ file_path r1 = p1 /\ file_path r2 = p2
        /\ storage_location r1 = Some loc /\ storage_location r2 = Some loc)
  /\ files w1 = match files w !! loc with
                | Some _ => files w
                | None => <[loc := c]> (files w)
                end
  /\ files w2 = files w1.
Proof. apply identical_content_one_blob. Qed.

Lemma identical_content_shares_one_blob_witness :
  a_txt ≠ b_txt
  /\ files twins_world !! a_txt = Some (bytes_of "X")
  /\ files twins_world !! b_txt = Some (bytes_of "X")
  /\ let loc :=
       os_path_join
         (os_path_join (storage_path svc)
            (substring 0 2 (SHA256.hexdigest (bytes_of "X"))))
         (SHA256.hexdigest (bytes_of "X")) in
     let w1 :=
       snd (record_version svc (mkDb 501%N 100) a_txt "create" None twins_world) in
     let w2 := snd (record_version svc (mkDb 502%N 200) b_txt "create" None w1) in
     (forall w0,
        _get_storage_path svc (SHA256.hexdigest (bytes_of "X")) w0
        = (Return loc, w0))
     /\ (exists r1 r2,
           catalog w2 = catalog twins_world ++ [r1; r2]
           /\ file_path r1 = a_txt /\ file_path r2 = b_txt
           /\ storage_location r1 = Some loc /\ storage_location r2 = Some loc)
     /\ files w1 = match files twins_world !! loc with
                   | Some _ => files twins_world
                   | None => <[loc := bytes_of "X"]> (files twins_world)
                   end
     /\ files w2 = files w1.
Proof.
  split; [exact twins_differ |].
  split; [vm_compute; reflexivity |]. split; [vm_compute; reflexivity |].
  exact (identical_content_shares_one_blob svc (mkDb 501%N 100) (mkDb 502%N 200)
           a_txt b_txt "create" "create" None None (bytes_of "X") twins_world
           twins_differ eq_refl eq_refl twins_fresh).
Defined.

(** * Further properties of the service *)

(** ** Digests and blob locations *)

Lemma hex_digit_is_hex x : is_hex_digit (SHA256.hex_digit x) = true.
Proof.
  unfold SHA256.hex_digit.
  assert (0 <= Z.land x 0xF < 16) as Hd.
  { change 0xF with (Z.ones 4). rewrite Z.land_ones by lia.
    apply Z.mod_pos_bound. lia. }
  set (d := Z.land x 0xF) in *. clearbody d.
  assert (d = 0 \/ d = 1 \/ d = 2 \/ d = 3 \/ d = 4 \/ d = 5 \/ d = 6 \/ d = 7
          \/ d = 8 \/ d = 9 \/ d = 10 \/ d = 11 \/ d = 12 \/ d = 13 \/ d = 14
          \/ d = 15) as H by lia.
  repeat (destruct H as [-> | H]; [reflexivity |]). subst d. reflexivity.
Qed.

Lemma hexdigest_length c : String.length (SHA256.hexdigest c) = 64%nat.
Proof. unfold SHA256.hexdigest, SHA256.hex32. reflexivity. Qed.

Lemma hexdigest_hex c : string_forallb is_hex_digit (SHA256.hexdigest c) = true.
Proof.
  unfold SHA256.hexdigest, SHA256.hex32. cbn [string_forallb].
  rewrite !hex_digit_is_hex. reflexivity.
Qed.

Lemma append_cons c (a b : string) : String c a +:+ b = String c (a +:+ b).
Proof. reflexivity. Qed.

Lemma append_assoc (a b c : string) : (a +:+ b) +:+ c = a +:+ (b +:+ c).
Proof.
  induction a as [|x a IH]; [reflexivity |]. rewrite !append_cons. by rewrite IH.
Qed.

Lemma length_append (a b : string) :
  String.length (a +:+ b) = (String.length a + String.length b)%nat.
Proof.
  induction a as [|c a IH]; [reflexivity |].
  rewrite append_cons. cbn [String.length]. by rewrite IH.
Qed.

Lemma append_same_length_r (a a' b b' : string) :
  a +:+ b = a' +:+ b' -> String.length b = String.length b' -> b = b'.
Proof.
  revert a'. induction a as [|c a IH]; intros [|c' a'] Heq Hlen.
  - exact Heq.
  - exfalso. apply (f_equal String.length) in Heq.
    rewrite !length_append in Heq. cbn [String.length] in Heq. lia.
  - exfalso. apply (f_equal String.length) in Heq.
    rewrite !length_append in Heq. cbn [String.length] in Heq. lia.
  - rewrite !append_cons in Heq. injection Heq as _ Heq. by eapply IH.
Qed.

Lemma endswith_slash_append (a b : string) :
  b ≠ EmptyString -> endswith_slash (a +:+ b) = endswith_slash b.
Proof.
  intros Hb. induction a as [|c a IH]; [reflexivity |].
  change (String c a +:+ b) with (String c (a +:+ b)).
  cbn [endswith_slash]. destruct (a +:+ b) eqn:Hab.
  - exfalso. by eapply append_nonempty_r.
  - exact IH.
Qed.

Lemma prefix_append (a b : string) : String.prefix a (a +:+ b) = true.
Proof.
  induction a as [|c a IH]; [by destruct b |].
  rewrite append_cons. cbn [String.prefix].
  destruct (ascii_dec c c); [exact IH | congruence].
Qed.

Lemma hex_not_slash c : is_hex_digit c = true -> c ≠ slash.
Proof. intros H ->. discriminate. Qed.

(** The blob location of a digest, spelled out. *)
Lemma blob_location_digest self h :
  String.length h = 64%nat -> string_forallb is_hex_digit h = true ->
  blob_location self h
  = os_path_join (storage_path self) (substring 0 2 h) +:+ "/" +:+ h
  /\ String.length (substring 0 2 h) = 2%nat
  /\ string_forallb is_hex_digit (substring 0 2 h) = true
  /\ String.prefix (storage_path self) (blob_location self h) = true.
Proof.
  intros Hlen Hhex.
  destruct h as [|c1 [|c2 h]]; try discriminate.
  cbn [string_forallb] in Hhex.
  apply andb_prop in Hhex as [H1 Hhex]. apply andb_prop in Hhex as [H2 Hhex].
  set (h2 := String c1 (String c2 EmptyString)).
  set (hh := String c1 (String c2 h)).
  assert (substring 0 2 hh = h2) as Hsub by (subst hh h2; by destruct h).
  unfold blob_location. rewrite Hsub.
  assert (startswith_slash h2 = false) as Hs2.
  { cbn. apply bool_decide_eq_false_2. by apply hex_not_slash. }
  assert (startswith_slash hh = false) as Hsh.
  { cbn. apply bool_decide_eq_false_2. by apply hex_not_slash. }
  assert (endswith_slash h2 = false) as He2.
  { cbn. apply bool_decide_eq_false_2. by apply hex_not_slash. }
  assert (exists pre, os_path_join (storage_path self) h2 = pre +:+ h2
                      /\ String.prefix (storage_path self) (pre +:+ h2 +:+ "/" +:+ hh)
                         = true)
    as (pre & Hpre & Hpfx).
  { unfold os_path_join. rewrite Hs2.
    destruct (_ || _).
    - exists (storage_path self). split; [reflexivity | apply prefix_append].
    - exists (storage_path self +:+ "/"). split.
      + symmetry. apply append_assoc.
      + rewrite append_assoc. apply prefix_append. }
  assert (os_path_join (os_path_join (storage_path self) h2) hh
          = os_path_join (storage_path self) h2 +:+ "/" +:+ hh) as Hloc.
  { unfold os_path_join at 1. rewrite Hsh, Hpre.
    rewrite endswith_slash_append by discriminate. rewrite He2.
    rewrite bool_decide_eq_false_2; [reflexivity |].
    apply append_nonempty_r. discriminate. }
  split; [exact Hloc |]. split; [reflexivity |]. split.
  { unfold h2. cbn [string_forallb]. by rewrite H1, H2. }
  rewrite Hloc, Hpre, append_assoc. exact Hpfx.
Qed.

Lemma blob_location_inj self c1 c2 :
  blob_location self (SHA256.hexdigest c1) = blob_location self (SHA256.hexdigest c2) ->
  SHA256.hexdigest c1 = SHA256.hexdigest c2.
Proof.
  destruct (blob_location_digest self _ (hexdigest_length c1) (hexdigest_hex c1))
    as [-> _].
  destruct (blob_location_digest self _ (hexdigest_length c2) (hexdigest_hex c2))
    as [-> _].
  intros Heq. rewrite <- !append_assoc in Heq.
  eapply append_same_length_r; [exact Heq |].
  by rewrite !hexdigest_length.
Qed.

(** ** One call of [record_version], continued *)

Lemma with_blob_lookup_None self fs content q :
  fs !! q = None -> with_blob self fs content !! q ≠ None ->
  exists c, content = Some c /\ q = blob_location self (SHA256.hexdigest c)
            /\ with_blob self fs content !! q = Some c.
Proof.
  unfold with_blob. intros Hq Hne. destruct content as [c|]; [| congruence].
  destruct (fs !! blob_location self (SHA256.hexdigest c)) eqn:Hb; [congruence |].
  destruct (decide (blob_location self (SHA256.hexdigest c) = q)) as [<- | Hd].
  - exists c. by rewrite lookup_insert_eq.
  - rewrite lookup_insert_ne in Hne by exact Hd. congruence.
Qed.

Lemma record_version_world self db p op md w :
  snd (record_version self db p op md w) = w
  \/ snd (record_version self db p op md w)
     = mkWorld (catalog w ++ [recorded_row self db (catalog w) p op md (files w !! p)])
               (with_blob self (files w) (files w !! p)).
Proof.
  destruct (record_version_cases self db p op md w) as [[-> _] | ->]; [by left | by right].
Qed.

Lemma record_version_only_adds self db p op md w :
  let w' := snd (record_version self db p op md w) in
  (exists added, catalog w' = catalog w ++ added /\ (length added <= 1)%nat)
  /\ (forall q c, files w !! q = Some c -> files w' !! q = Some c)
  /\ (forall q, files w !! q = None -> files w' !! q ≠ None ->
        exists c, files w !! p = Some c
                  /\ q = blob_location self (SHA256.hexdigest c)
                  /\ files w' !! q = Some c).
Proof.
  intros w'. subst w'.
  destruct (record_version_world self db p op md w) as [-> | ->]; cbn [catalog files].
  - split; [exists []; split; [by rewrite app_nil_r | simpl; lia] |].
    split; [done |]. intros q Hq Hne. congruence.
  - split; [eexists; split; [reflexivity | simpl; lia] |]. split.
    + intros q c. apply with_blob_lookup_Some.
    + intros q Hq Hne. by apply with_blob_lookup_None.
Qed.

Lemma select_existing_snoc_new rows r p h :
  file_path r = p -> content_hash r = Some h ->
  (forall r', r' ∈ rows -> file_path r' = p -> version_number r' < version_number r) ->
  select_existing (rows ++ [r]) p (Some h) = Some (version_id r).
Proof.
  intros Hp Hh Hlt.
  destruct (select_existing_is_Some (rows ++ [r]) p h r) as [i Hi];
    [set_solver | done | done |].
  rewrite Hi. f_equal.
  destruct (select_existing_Some _ _ _ _ Hi) as (r0 & Hin & <- & Hp0 & Hh0 & Hub).
  apply elem_of_app in Hin as [Hin | Hin].
  - specialize (Hub r ltac:(set_solver) Hp Hh). specialize (Hlt r0 Hin Hp0). lia.
  - by apply list_elem_of_singleton in Hin as ->.
Qed.

(** ** One call of [restore_version], continued *)

Lemma record_version_live self db p op md w :
  files (snd (record_version self db p op md w)) !! p = files w !! p.
Proof.
  destruct (record_version_world self db p op md w) as [-> | ->]; [reflexivity |].
  cbn [files]. destruct (files w !! p) as [c|] eqn:Hp.
  - by apply with_blob_lookup_Some.
  - exact Hp.
Qed.

Lemma upto_last_slash_no_slash p : has_slash p = false -> upto_last_slash p = EmptyString.
Proof.
  destruct p as [|c p]; [reflexivity |]. cbn [has_slash upto_last_slash].
  intros H. apply orb_false_elim in H as [Hc Hp]. by rewrite Hp, Hc.
Qed.

Lemma dirname_no_slash p : has_slash p = false -> os_path_dirname p = EmptyString.
Proof.
  intros H. unfold os_path_dirname. by rewrite (upto_last_slash_no_slash p H).
Qed.

(** The three ways [restore_version] ends. *)
Lemma restore_version_outcome self db1 db2 p tv tts w :
  let r := restore_version self db1 db2 p tv tts w in
  (exists resp, fst r = Return resp /\ success resp = false
                /\ files (snd r) !! p = files w !! p)
  \/ (exists row loc c,
        resolve_target (catalog w) p tv tts = Some row
        /\ storage_location row = Some loc
        /\ files w !! loc = Some c
        /\ loc ≠ p /\ os_path_dirname p ≠ EmptyString
        /\ fst r = Return (mkUndoResponse true p (version_number row)
                             (RestoredTo (version_number row)))
        /\ files (snd r) !! p = Some c).
Proof.
  intros r. subst r.
  destruct (resolve_target (catalog w) p tv tts) as [row|] eqn:Hrow.
  2: { left. rewrite restore_version_no_row by exact Hrow. eauto. }
  destruct (blob_available_or_not (files w) row) as [Hno | (loc & Hloc & Htr & [c Hc])].
  { left. rewrite (restore_version_no_blob _ _ _ _ _ _ _ _ Hrow Hno). eauto. }
  rewrite (restore_version_stored _ _ _ _ _ _ _ _ _ Hrow Hloc Htr) by eauto.
  set (w1 := snd (record_version self db1 p "pre_restore" None w)).
  assert (files w1 !! p = files w !! p) as Hlive by apply record_version_live.
  assert (files w1 !! loc = Some c) as Hloc1 by by apply record_version_files_lookup.
  destruct (bool_decide (os_path_dirname p = EmptyString)) eqn:Hdir.
  { left. eexists. split; [reflexivity |]. split; [reflexivity | exact Hlive]. }
  rewrite Hloc1. destruct (bool_decide (loc = p)) eqn:Hlp.
  { left. eexists. split; [reflexivity |]. split; [reflexivity | exact Hlive]. }
  right. exists row, loc, c. apply bool_decide_eq_false in Hdir, Hlp.
  repeat (split; [done |]). cbn [snd].
  rewrite record_version_live. cbn [files]. apply lookup_insert_eq.
Qed.

Lemma restore_version_other_files self db1 db2 p tv tts w q c :
  q ≠ p -> files w !! q = Some c ->
  files (snd (restore_version self db1 db2 p tv tts w)) !! q = Some c.
Proof.
  intros Hq Hc.
  destruct (resolve_target (catalog w) p tv tts) as [row|] eqn:Hrow.
  2: { by rewrite restore_version_no_row. }
  destruct (blob_available_or_not (files w) row) as [Hno | (loc & Hloc & Htr & Hsome)].
  { by rewrite (restore_version_no_blob _ _ _ _ _ _ _ _ Hrow Hno). }
  rewrite (restore_version_stored _ _ _ _ _ _ _ _ _ Hrow Hloc Htr Hsome).
  set (w1 := snd (record_version self db1 p "pre_restore" None w)).
  assert (files w1 !! q = Some c) as Hq1 by by apply record_version_files_lookup.
  destruct (bool_decide (os_path_dirname p = EmptyString)); [exact Hq1 |].
  destruct (files w1 !! loc) as [c'|]; [| exact Hq1].
  destruct (bool_decide (loc = p)); [exact Hq1 |].
  cbn [snd]. apply record_version_files_lookup. cbn [files].
  by rewrite lookup_insert_ne.
Qed.

Lemma restore_version_adds_at_most_two self db1 db2 p tv tts w :
  exists added,
    catalog (snd (restore_version self db1 db2 p tv tts w)) = catalog w ++ added
    /\ (length added <= 2)%nat.
Proof.
  destruct (restore_version_catalog self db1 db2 p tv tts w)
    as [-> | [(r1 & -> & _) | (mid & c & md & Hmid & Hrows)]].
  - exists []. split; [by rewrite app_nil_r | simpl; lia].
  - eexists. split; [reflexivity | simpl; lia].
  - destruct Hmid as [-> | ->]; destruct Hrows as [-> | ->].
    + exists []. split; [by rewrite app_nil_r | simpl; lia].
    + eexists. split; [reflexivity | simpl; lia].
    + eexists. split; [reflexivity | simpl; lia].
    + rewrite <- app_assoc. eexists. split; [reflexivity | simpl; lia].
Qed.

(** ** Runs that keep out of the store *)

Lemma outside_store_not_blob self q c :
  outside_store self q -> q ≠ blob_location self (SHA256.hexdigest c).
Proof.
  unfold outside_store. intros Hq ->.
  destruct (blob_location_digest self _ (hexdigest_length c) (hexdigest_hex c))
    as (_ & _ & _ & Hpfx).
  congruence.
Qed.

Lemma run_cons self e events w :
  run self (e :: events) w = run self events (apply_event self w e).
Proof. reflexivity. Qed.

(** A property of worlds kept by [record_version] and by file changes
    outside the store is kept by [restore_version] there, and by runs. *)
Section Preservation.
Context (self : InfiniteUndoService) (I : World -> Prop).
Hypothesis I_record :
  forall db p op md w, I w -> I (snd (record_version self db p op md w)).
Hypothesis I_write :
  forall p c w, outside_store self p -> I w ->
    I (mkWorld (catalog w) (<[p := c]> (files w))).
Hypothesis I_remove :
  forall p w, outside_store self p -> I w ->
    I (mkWorld (catalog w) (delete p (files w))).

Lemma restore_preserves db1 db2 p tv tts w :
  outside_store self p -> I w -> I (snd (restore_version self db1 db2 p tv tts w)).
Proof.
  intros Hp Hw.
  destruct (resolve_target (catalog w) p tv tts) as [row|] eqn:Hrow.
  2: { by rewrite restore_version_no_row. }
  destruct (blob_available_or_not (files w) row) as [Hno | (loc & Hloc & Htr & Hsome)].
  { by rewrite (restore_version_no_blob _ _ _ _ _ _ _ _ Hrow Hno). }
  rewrite (restore_version_stored _ _ _ _ _ _ _ _ _ Hrow Hloc Htr Hsome).
  set (w1 := snd (record_version self db1 p "pre_restore" None w)).
  assert (I w1) as Hw1 by by apply I_record.
  destruct (bool_decide (os_path_dirname p = EmptyString)); [exact Hw1 |].
  destruct (files w1 !! loc) as [c'|]; [| exact Hw1].
  destruct (bool_decide (loc = p)); [exact Hw1 |].
  cbn [snd]. apply I_record. by apply I_write.
Qed.

Lemma run_preserves events : forall w,
  Forall (event_outside_store self) events -> I w -> I (run self events w).
Proof.
  induction events as [|e events IH]; intros w Hev Hw; [exact Hw |].
  apply Forall_cons in Hev as [He Hev]. rewrite run_cons. apply IH; [exact Hev |].
  destruct e as [db p op | db1 db2 p tv tts | p c | p]; cbn [apply_event].
  - by apply I_record.
  - by apply restore_preserves.
  - by apply I_write.
  - by apply I_remove.
Qed.

End Preservation.

Lemma with_blob_intact self fs content :
  store_intact self fs -> store_intact self (with_blob self fs content).
Proof.
  intros Hfs c0 c. unfold with_blob. destruct content as [c1|]; [| apply Hfs].
  destruct (fs !! blob_location self (SHA256.hexdigest c1)) eqn:Hb; [apply Hfs |].
  destruct (decide (blob_location self (SHA256.hexdigest c1)
                    = blob_location self (SHA256.hexdigest c0))) as [Heq | Hne].
  - rewrite Heq, lookup_insert_eq. intros [= <-]. by apply blob_location_inj in Heq.
  - rewrite lookup_insert_ne by exact Hne. apply Hfs.
Qed.

Lemma store_inv_record self db p op md w :
  store_inv self w -> store_inv self (snd (record_version self db p op md w)).
Proof.
  intros [Hint Hrows].
  destruct (record_version_world self db p op md w) as [-> | ->]; [by split |].
  split; [by apply with_blob_intact |].
  intros r h Hin Hh. cbn [catalog files] in *.
  apply elem_of_app in Hin as [Hin | Hin].
  - destruct (Hrows r h Hin Hh) as (Hloc & c & Hc & Hd). split; [exact Hloc |].
    exists c. split; [| exact Hd]. by apply with_blob_lookup_Some.
  - apply list_elem_of_singleton in Hin as ->.
    cbn [recorded_row content_hash storage_location] in *.
    destruct (files w !! p) as [c|] eqn:Hp; [| discriminate].
    cbn in Hh. injection Hh as <-. split; [reflexivity |].
    unfold with_blob.
    destruct (files w !! blob_location self (SHA256.hexdigest c)) as [c'|] eqn:Hb.
    + exists c'. split; [exact Hb | by eapply Hint].
    + exists c. split; [apply lookup_insert_eq | reflexivity].
Qed.

Lemma store_inv_files self rows fs fs' :
  (forall c0, fs' !! blob_location self (SHA256.hexdigest c0)
              = fs !! blob_location self (SHA256.hexdigest c0)) ->
  store_inv self (mkWorld rows fs) -> store_inv self (mkWorld rows fs').
Proof.
  intros Hsame [Hint Hrows]. split.
  - intros c0 c. cbn [files]. rewrite Hsame. apply Hint.
  - intros r h Hin Hh. destruct (Hrows r h Hin Hh) as (Hloc & c & Hc & Hd).
    split; [exact Hloc |]. exists c. split; [| exact Hd].
    cbn [files] in *. by rewrite <- Hd, Hsame, Hd.
Qed.

Lemma store_inv_run self events w :
  Forall (event_outside_store self) events ->
  store_inv self w -> store_inv self (run self events w).
Proof.
  apply (run_preserves self (store_inv self)).
  - intros db p op md w'. apply store_inv_record.
  - intros p c [rows fs] Hp. apply store_inv_files. intros c0. cbn [files].
    apply lookup_insert_ne. by apply outside_store_not_blob.
  - intros p [rows fs] Hp. apply store_inv_files. intros c0. cbn [files].
    apply lookup_delete_ne. by apply outside_store_not_blob.
Qed.

Lemma run_catalog_preserves self (P : list VersionRow -> Prop) :
  (forall db rows p op md content,
     P rows -> P (rows ++ [recorded_row self db rows p op md content])) ->
  forall events w, P (catalog w) -> P (catalog (run self events w)).
Proof.
  intros HP events. induction events as [|e events IH]; intros w Hw; [exact Hw |].
  rewrite run_cons. apply IH.
  destruct e as [db p op | db1 db2 p tv tts | p c | p];
    cbn [apply_event catalog]; try exact Hw.
  - destruct (record_version_catalog self db p op None w) as [-> | ->]; [exact Hw |].
    by apply HP.
  - destruct (restore_version_catalog self db1 db2 p tv tts w)
      as [-> | [(r1 & -> & ->) | (mid & c & md & Hmid & Hrows)]]; [exact Hw | |].
    + by apply HP.
    + assert (P mid) as Hm by (destruct Hmid as [-> | ->]; [exact Hw | by apply HP]).
      destruct Hrows as [-> | ->]; [exact Hm | by apply HP].
Qed.

Lemma gapless_snoc self db rows p op md content :
  (forall q, gapless rows q) ->
  forall q, gapless (rows ++ [recorded_row self db rows p op md content]) q.
Proof.
  intros Hg q. unfold gapless. rewrite rows_of_snoc.
  cbn [recorded_row file_path].
  destruct (decide (p = q)) as [<- | Hne]; [| apply Hg].
  rewrite fmap_app, length_app, Nat.add_1_r, seq_S, fmap_app.
  rewrite <- (Hg p). simpl. do 2 f_equal.
  rewrite (select_current_version_gapless _ _ (Hg p)). lia.
Qed.

Lemma run_gapless self events w :
  catalog w = [] -> forall q, gapless (catalog (run self events w)) q.
Proof.
  intros Hempty.
  apply (run_catalog_preserves self (fun rows => forall q, gapless rows q)).
  - intros db rows p op md content Hg. by apply gapless_snoc.
  - rewrite Hempty. intros q. reflexivity.
Qed.

Lemma gapless_versions rows p r :
  gapless rows p -> r ∈ rows -> file_path r = p ->
  1 <= version_number r <= Z.of_nat (length (rows_of rows p)).
Proof.
  intros Hg Hin Hp.
  assert (version_number r ∈ version_number <$> rows_of rows p) as Hv.
  { apply list_elem_of_fmap. exists r. split; [reflexivity |]. by apply elem_of_rows_of. }
  rewrite Hg in Hv. apply list_elem_of_fmap in Hv as (k & -> & Hk).
  apply elem_of_seq in Hk. lia.
Qed.

Lemma gapless_unique rows p r r' :
  gapless rows p -> r ∈ rows -> r' ∈ rows ->
  file_path r = p -> file_path r' = p ->
  version_number r = version_number r' -> r = r'.
Proof.
  intros Hg Hin Hin' Hp Hp' Hv.
  apply (NoDup_fmap_eq version_number (rows_of rows p)); try done.
  - rewrite Hg. apply NoDup_fmap_2; [| apply NoDup_seq].
    intros x y. lia.
  - by apply elem_of_rows_of.
  - by apply elem_of_rows_of.
Qed.

Lemma select_version_unique rows p r :
  gapless rows p -> r ∈ rows -> file_path r = p ->
  select_version rows p (version_number r) = Some r.
Proof.
  intros Hg Hin Hp. unfold select_version.
  destruct (head _) as [r'|] eqn:Hhead.
  - f_equal. apply head_Some_elem_of, list_elem_of_filter in Hhead as [[Hp' Hv] Hin'].
    by apply (gapless_unique rows p).
  - exfalso. apply head_None in Hhead.
    eapply filter_nil_not_elem_of; [exact Hhead | | exact Hin]. by split.
Qed.

Lemma blob_location_nonempty self c :
  truthy_str (blob_location self (SHA256.hexdigest c)) = true.
Proof.
  unfold truthy_str. rewrite bool_decide_eq_false_2; [reflexivity |].
  unfold blob_location. apply os_path_join_nonempty.
  destruct (hexdigest_cons c) as (a & s & ->). discriminate.
Qed.

(** ** The sweep of [cleanup_old_versions] *)

Lemma filter_ext_in {A} (P Q : A -> Prop)
    `{!forall x, Decision (P x), !forall x, Decision (Q x)} (l : list A) :
  (forall x, x ∈ l -> P x <-> Q x) -> filter P l = filter Q l.
Proof.
  induction l as [|a l IH]; intros Hiff; [reflexivity |].
  assert (filter P l = filter Q l) as Hl by (apply IH; intros x Hx; apply Hiff; set_solver).
  destruct (decide (P a)) as [Ha | Ha].
  - rewrite !filter_cons_True; [by rewrite Hl | | exact Ha].
    apply Hiff; [set_solver | exact Ha].
  - rewrite !filter_cons_False; [exact Hl | | exact Ha].
    intros HQ. apply Ha, Hiff; [set_solver | exact HQ].
Qed.

Lemma filter_all {A} (P : A -> Prop) `{!forall x, Decision (P x)} (l : list A) :
  (forall x, x ∈ l -> P x) -> filter P l = l.
Proof.
  induction l as [|a l IH]; intros Hall; [reflexivity |].
  rewrite filter_cons_True by (apply Hall; set_solver).
  f_equal. apply IH. intros x Hx. apply Hall. set_solver.
Qed.

Lemma filter_none {A} (P : A -> Prop) `{!forall x, Decision (P x)} (l : list A) :
  (forall x, x ∈ l -> ~ P x) -> filter P l = [].
Proof.
  induction l as [|a l IH]; intros Hall; [reflexivity |].
  rewrite filter_cons_False by (apply Hall; set_solver).
  apply IH. intros x Hx. apply Hall. set_solver.
Qed.

(** With unique ids, [id IN (SELECT id FROM to_delete)] selects the rows of
    [to_delete] themselves. *)
Lemma id_in_to_delete rows cutoff k r :
  NoDup (version_id <$> rows) -> r ∈ rows ->
  version_id r ∈ version_id <$> filter (to_delete rows cutoff k) rows
  <-> to_delete rows cutoff k r.
Proof.
  intros Hnd Hin. split.
  - intros Hid. apply list_elem_of_fmap in Hid as (r' & Hid & Hr').
    apply list_elem_of_filter in Hr' as [Hdel Hin'].
    by rewrite (NoDup_fmap_eq version_id rows r r' Hnd Hin Hin' Hid).
  - intros Hdel. apply list_elem_of_fmap. exists r. split; [reflexivity |].
    by apply list_elem_of_filter.
Qed.

(** What one sweep returns and leaves, with unique ids. *)
Lemma cleanup_old_versions_eq py_now days k w :
  NoDup (version_id <$> catalog w) ->
  let cutoff := py_now - days * microseconds_per_day in
  cleanup_old_versions py_now days k w
  = (Return (mkCleanupReport
               match filter (to_delete (catalog w) cutoff k) (catalog w) with
               | r :: _ => inl (version_id r)
               | [] => inr 0
               end cutoff),
     mkWorld (filter (fun r => ~ to_delete (catalog w) cutoff k r) (catalog w))
             (files w)).
Proof.
  intros Hnd cutoff. unfold cleanup_old_versions. unfold_m. fold cutoff.
  rewrite (filter_ext_in
             (fun r => version_id r ∈
                version_id <$> filter (to_delete (catalog w) cutoff k) (catalog w))
             (to_delete (catalog w) cutoff k))
    by (intros r Hr; by apply id_in_to_delete).
  rewrite (filter_ext_in
             (fun r => version_id r ∉
                version_id <$> filter (to_delete (catalog w) cutoff k) (catalog w))
             (fun r => ~ to_delete (catalog w) cutoff k r)); [reflexivity |].
  intros r Hr. by rewrite id_in_to_delete.
Qed.

(** A row of a sublist that the sweep of the whole table spares is spared by
    the sweep of the sublist too: the path's highest version can only have
    gone down. *)
Lemma to_delete_sublist rows rows' cutoff k r :
  (forall x, x ∈ rows' -> x ∈ rows) -> r ∈ rows ->
  to_delete rows' cutoff k r -> to_delete rows cutoff k r.
Proof.
  intros Hsub Hin [Ht Hv]. split; [exact Ht |].
  destruct (sql_max (version_number <$> rows_of rows' (file_path r))) as [m'|] eqn:Hm';
    [| contradiction].
  apply sql_max_Some in Hm' as [Hm' _].
  apply list_elem_of_fmap in Hm' as (x & -> & Hx).
  apply elem_of_rows_of in Hx as [Hxp Hx].
  pose proof (select_current_version_ub rows (file_path r) x (Hsub x Hx) Hxp) as Hub.
  unfold select_current_version in Hub.
  destruct (sql_max (version_number <$> rows_of rows (file_path r))) as [m|] eqn:Hm.
  - simpl in Hub. lia.
  - apply sql_max_None in Hm.
    assert (version_number r ∈ version_number <$> rows_of rows (file_path r)) as Hr.
    { apply list_elem_of_fmap. exists r. split; [reflexivity |]. by apply elem_of_rows_of. }
    rewrite Hm in Hr. by apply elem_of_nil in Hr.
Qed.

Lemma sublist_fmap_NoDup {A B} (f : A -> B) (l1 l2 : list A) :
  l1 `sublist_of` l2 -> NoDup (f <$> l2) -> NoDup (f <$> l1).
Proof.
  intros Hsub Hnd. eapply sublist_NoDup; [exact Hnd |]. by apply fmap_sublist.
Qed.

(** ** Pages of [get_history] *)

Lemma sort_by_desc_strongly_sorted key l :
  StronglySorted (fun a b : VersionRow => key b <= key a) (sort_by (desc key) l).
Proof.
  apply Sorted.Sorted_StronglySorted; [| apply sort_by_desc_sorted].
  intros a b c Hab Hbc. lia.
Qed.

(** ** History of a run *)

Lemma insert_by_last {A} (before : A -> A -> bool) x l :
  (forall y, y ∈ l -> before x y = false) -> insert_by before x l = l ++ [x].
Proof.
  induction l as [|y l IH]; intros Hall; simpl; [reflexivity |].
  rewrite (Hall y) by set_solver. f_equal. apply IH. intros z Hz. apply Hall. set_solver.
Qed.

(** Rows whose keys are consecutive numbers, ascending, come out of
    [ORDER BY key DESC] reversed. *)
Lemma sort_by_desc_consecutive key (l : list VersionRow) : forall a,
  key <$> l = (fun i => Z.of_nat i) <$> seq a (length l) ->
  sort_by (desc key) l = reverse l.
Proof.
  induction l as [|x l IH]; intros a Hkeys; [reflexivity |].
  cbn [length seq] in Hkeys. rewrite !fmap_cons in Hkeys.
  injection Hkeys as Hx Hl.
  cbn [sort_by]. rewrite (IH (S a) Hl), reverse_cons.
  apply insert_by_last. intros y Hy. rewrite elem_of_reverse in Hy.
  assert (key y ∈ key <$> l) as Hky
    by (apply list_elem_of_fmap; exists y; by split).
  rewrite Hl in Hky. apply list_elem_of_fmap in Hky as (i & Hi & Hin).
  apply elem_of_seq in Hin. unfold desc. apply Z.leb_gt. lia.
Qed.

Lemma history_gapless rows p :
  gapless rows p ->
  sort_by (desc version_number) (rows_of rows p) = reverse (rows_of rows p).
Proof. intros Hg. by apply (sort_by_desc_consecutive version_number _ 1%nat). Qed.

(** In the newest-first listing of a gapless path with [n] rows, the row at
    index [j] has version [n - j]. *)
Lemma history_gapless_lookup rows p j row :
  gapless rows p ->
  sort_by (desc version_number) (rows_of rows p) !! j = Some row ->
  (j < length (rows_of rows p))%nat
  /\ version_number row = Z.of_nat (length (rows_of rows p)) - Z.of_nat j.
Proof.
  intros Hg. rewrite (history_gapless _ _ Hg). intros Hj.
  apply reverse_lookup_Some in Hj as [Hj Hlt]. split; [exact Hlt |].
  assert ((version_number <$> rows_of rows p)
            !! (length (rows_of rows p) - S j)%nat = Some (version_number row)) as Hv
    by (by rewrite list_lookup_fmap, Hj).
  rewrite Hg, list_lookup_fmap in Hv.
  rewrite lookup_seq_lt in Hv by lia. injection Hv as <-. lia.
Qed.

(** ** Restoring in a run *)

(** With the store consistent, restoring a resolved row that has content
    succeeds and leaves that content at the path. *)
Lemma restore_resolved self db1 db2 p tv tts w row h :
  store_inv self w ->
  resolve_target (catalog w) p tv tts = Some row ->
  content_hash row = Some h ->
  outside_store self p -> os_path_dirname p ≠ EmptyString ->
  let r := restore_version self db1 db2 p tv tts w in
  fst r = Return (mkUndoResponse true p (version_number row)
                    (RestoredTo (version_number row)))
  /\ exists c, files (snd r) !! p = Some c /\ SHA256.hexdigest c = h.
Proof.
  intros [_ Hrows] Hres Hh Hout Hdir r.
  destruct (resolve_target_elem _ _ _ _ _ Hres) as [Hin Hp].
  destruct (Hrows row h Hin Hh) as (Hloc & c & Hc & Hd).
  subst r. rewrite <- Hd in Hloc, Hc.
  rewrite (restore_version_stored _ _ _ _ _ _ _ _ _ Hres Hloc
             (blob_location_nonempty self c)) by eauto.
  rewrite (bool_decide_eq_false_2 _ Hdir).
  rewrite (record_version_files_lookup _ _ _ _ _ _ _ _ Hc).
  rewrite bool_decide_eq_false_2
    by (intros Heq; by eapply outside_store_not_blob).
  cbn [fst snd]. split; [reflexivity |].
  exists c. split; [| exact Hd].
  rewrite record_version_live. cbn [files]. apply lookup_insert_eq.
Qed.

Lemma store_inv_from_empty self events w0 :
  catalog w0 = [] -> store_intact self (files w0) ->
  Forall (event_outside_store self) events ->
  store_inv self (run self events w0).
Proof.
  intros Hempty Hint Hev. apply store_inv_run; [exact Hev |]. split; [exact Hint |].
  intros r0 h0 Hin0. rewrite Hempty in Hin0. by apply elem_of_nil in Hin0.
Qed.

(** Restoring with no target in a run: with [n >= 2] versions of the path,
    the row resolved is version [n - 1]. *)
Lemma run_resolves_previous self events w0 p :
  catalog w0 = [] ->
  let w := run self events w0 in
  let n := length (rows_of (catalog w) p) in
  (2 <= n)%nat ->
  exists row,
    resolve_target (catalog w) p None None = Some row
    /\ version_number row = Z.of_nat n - 1.
Proof.
  intros Hempty w n Hn.
  pose proof (run_gapless self events w0 Hempty p) as Hg. fold w in Hg.
  unfold resolve_target, select_previous.
  destruct (sort_by (desc version_number) (rows_of (catalog w) p) !! 1%nat)
    as [row|] eqn:Hrow.
  - exists row. split; [reflexivity |].
    apply (history_gapless_lookup _ _ _ _ Hg) in Hrow as [_ Hv]. subst n. lia.
  - apply lookup_ge_None in Hrow. rewrite length_sort_by in Hrow. subst n. lia.
Qed.

(** ** ORDER BY with a total comparison *)

Section SortedBy.
Context {A : Type} (before : A -> A -> bool).
Hypothesis before_total : forall x y, before x y = false -> before y x = true.

Lemma insert_by_sorted x l :
  Sorted (fun a b => before a b = true) l ->
  Sorted (fun a b => before a b = true) (insert_by before x l).
Proof.
  induction l as [|y l IH]; intros Hs; simpl.
  - repeat constructor.
  - destruct (before x y) eqn:Hxy.
    + constructor; [exact Hs | by constructor].
    + apply Sorted_inv in Hs as [Hs Hhd]. constructor; [by apply IH |].
      destruct l as [|z l]; simpl.
      * constructor. by apply before_total.
      * destruct (before x z); constructor; [by apply before_total |].
        by apply HdRel_inv in Hhd.
Qed.

Lemma sort_by_sorted l : Sorted (fun a b => before a b = true) (sort_by before l).
Proof.
  induction l as [|x l IH]; simpl; [constructor | by apply insert_by_sorted].
Qed.

End SortedBy.

Lemma by_path_le a b :
  by_path_then_version a b -> String.le (file_path a) (file_path b).
Proof.
  unfold by_path_then_version, path_then_version_desc.
  destruct (bool_decide_reflect (file_path a = file_path b)) as [-> | _].
  - intros _. reflexivity.
  - intros H. unfold String.le. by rewrite H.
Qed.

Lemma by_path_version a b :
  by_path_then_version a b -> file_path a = file_path b ->
  version_number b <= version_number a.
Proof.
  unfold by_path_then_version, path_then_version_desc. intros H Heq.
  rewrite bool_decide_eq_true_2 in H by exact Heq. by apply Z.leb_le.
Qed.

Lemma path_then_version_total a b :
  path_then_version_desc a b = false -> path_then_version_desc b a = true.
Proof.
  unfold path_then_version_desc.
  destruct (bool_decide_reflect (file_path a = file_path b)) as [Heq | Hne].
  - rewrite bool_decide_eq_true_2 by done. intros H. apply Z.leb_gt in H.
    apply Z.leb_le. lia.
  - rewrite bool_decide_eq_false_2 by (intros Heq; by apply Hne).
    intros H. destruct (String.leb_total (file_path a) (file_path b)) as [H' | H'];
      [congruence | exact H'].
Qed.

Lemma by_path_then_version_trans : Transitive by_path_then_version.
Proof.
  intros a b c Hab Hbc.
  pose proof (by_path_le _ _ Hab) as Lab. pose proof (by_path_le _ _ Hbc) as Lbc.
  assert (String.le (file_path a) (file_path c)) as Lac by (by etrans).
  unfold by_path_then_version, path_then_version_desc.
  destruct (bool_decide_reflect (file_path a = file_path c)) as [Heq | Hne].
  - assert (file_path a = file_path b) as Hab'.
    { apply (anti_symm String.le); [exact Lab |]. by rewrite Heq. }
    assert (file_path b = file_path c) as Hbc' by congruence.
    pose proof (by_path_version _ _ Hab Hab'). pose proof (by_path_version _ _ Hbc Hbc').
    apply Z.leb_le. lia.
  - unfold String.le in Lac. by apply Is_true_true.
Qed.

Lemma sort_by_path_sorted l :
  StronglySorted by_path_then_version (sort_by path_then_version_desc l).
Proof.
  apply Sorted.Sorted_StronglySorted; [apply by_path_then_version_trans |].
  apply (sort_by_sorted path_then_version_desc path_then_version_total).
Qed.

(** ** DISTINCT ON over rows ordered by path *)

Lemma distinct_on_path_sublist l : forall prev,
  distinct_on_path prev l `sublist_of` l.
Proof.
  induction l as [|x l IH]; intros prev; simpl; [constructor |].
  destruct (bool_decide _); [apply sublist_cons | apply sublist_skip]; apply IH.
Qed.

Lemma elem_of_distinct_on_path prev l y : y ∈ distinct_on_path prev l -> y ∈ l.
Proof. intros Hy. eapply elem_of_sublist; [exact Hy | apply distinct_on_path_sublist]. Qed.

(** After a row of path [q], with no smaller path to come, no row of path
    [q] is selected. *)
Lemma distinct_on_path_not_prev q l :
  (forall x, x ∈ l -> String.le q (file_path x)) ->
  StronglySorted by_path_then_version l ->
  forall y, y ∈ distinct_on_path (Some q) l -> file_path y ≠ q.
Proof.
  induction l as [|x l IH]; intros Hq Hs y Hy; simpl in Hy;
    [by apply elem_of_nil in Hy |].
  apply StronglySorted_cons in Hs as [Hx Hs].
  destruct (bool_decide_reflect (Some q = Some (file_path x))) as [Heq | Hne].
  - apply IH; [| exact Hs | exact Hy]. intros z Hz. apply Hq. set_solver.
  - apply elem_of_cons in Hy as [-> | Hy]; [congruence |].
    apply elem_of_distinct_on_path in Hy.
    intros Heq. apply Hne. f_equal.
    apply (anti_symm String.le); [apply Hq; set_solver |].
    rewrite <- Heq. apply by_path_le. rewrite Forall_forall in Hx. by apply Hx.
Qed.

Lemma sorted_tail_le x l :
  Forall (by_path_then_version x) l ->
  forall q, Some (file_path x) = Some q -> forall z, z ∈ l -> String.le q (file_path z).
Proof.
  intros Hx q [= <-] z Hz. apply by_path_le. rewrite Forall_forall in Hx. by apply Hx.
Qed.

(** The row selected for a path has the path's highest version number. *)
Lemma distinct_on_path_highest l : forall prev,
  StronglySorted by_path_then_version l ->
  (forall q, prev = Some q -> forall x, x ∈ l -> String.le q (file_path x)) ->
  forall y z, y ∈ distinct_on_path prev l -> z ∈ l ->
    file_path z = file_path y -> version_number z <= version_number y.
Proof.
  induction l as [|x l IH]; intros prev Hs Hprev y z Hy Hz Hp; simpl in Hy;
    [by apply elem_of_nil in Hy |].
  apply StronglySorted_cons in Hs as [Hx Hs].
  destruct (bool_decide_reflect (prev = Some (file_path x))) as [Heq | Hne].
  - assert (file_path y ≠ file_path x) as Hyx.
    { subst prev. apply (distinct_on_path_not_prev _ l); [| exact Hs | exact Hy].
      intros x' Hx'. apply (Hprev _ eq_refl). set_solver. }
    apply elem_of_cons in Hz as [-> | Hz]; [congruence |].
    apply (IH prev); try assumption.
    intros q Hq x' Hx'. apply (Hprev q Hq). set_solver.
  - apply elem_of_cons in Hy as [-> | Hy].
    + apply elem_of_cons in Hz as [-> | Hz]; [lia |].
      apply by_path_version; [| by symmetry]. rewrite Forall_forall in Hx. by apply Hx.
    + assert (file_path y ≠ file_path x) as Hyx.
      { apply (distinct_on_path_not_prev _ l); [| exact Hs | exact Hy].
        by apply (sorted_tail_le x l Hx). }
      apply elem_of_cons in Hz as [-> | Hz]; [congruence |].
      apply (IH (Some (file_path x))); try assumption.
      by apply sorted_tail_le.
Qed.

(** Every path of the rows has a row selected. *)
Lemma distinct_on_path_complete l : forall prev z,
  z ∈ l -> prev ≠ Some (file_path z) ->
  exists y, y ∈ distinct_on_path prev l /\ file_path y = file_path z.
Proof.
  induction l as [|x l IH]; intros prev z Hz Hprev; [by apply elem_of_nil in Hz |].
  simpl. destruct (bool_decide_reflect (prev = Some (file_path x))) as [Heq | Hne].
  - apply elem_of_cons in Hz as [-> | Hz]; [contradiction |]. by apply IH.
  - apply elem_of_cons in Hz as [-> | Hz]; [exists x; split; [set_solver | done] |].
    destruct (decide (file_path z = file_path x)) as [Hzx | Hzx].
    + exists x. split; [set_solver | by symmetry].
    + destruct (IH (Some (file_path x)) z Hz) as (y & Hy & Hyz); [congruence |].
      exists y. split; [set_solver | exact Hyz].
Qed.

(** The rows selected have strictly ascending paths. *)
Lemma distinct_on_path_strict l : forall prev,
  StronglySorted by_path_then_version l ->
  StronglySorted
    (fun a b => String.le (file_path a) (file_path b) /\ file_path a ≠ file_path b)
    (distinct_on_path prev l).
Proof.
  induction l as [|x l IH]; intros prev Hs; simpl; [constructor |].
  apply StronglySorted_cons in Hs as [Hx Hs].
  destruct (bool_decide _); [by apply IH |].
  apply StronglySorted_cons. split; [| by apply IH].
  apply Forall_forall. intros y Hy. split.
  - apply by_path_le. rewrite Forall_forall in Hx.
    by apply Hx, (elem_of_distinct_on_path (Some (file_path x))).
  - intros Heq. apply (distinct_on_path_not_prev (file_path x) l) in Hy;
      [by apply Hy | | exact Hs].
    by apply (sorted_tail_le x l Hx).
Qed.

Lemma strictly_sorted_NoDup {A B} (f : A -> B) (R : B -> B -> Prop) (l : list A) :
  StronglySorted (fun a b => R (f a) (f b) /\ f a ≠ f b) l -> NoDup (f <$> l).
Proof.
  induction l as [|x l IH]; intros Hs; [constructor |].
  apply StronglySorted_cons in Hs as [Hx Hs]. rewrite fmap_cons.
  apply NoDup_cons. split; [| by apply IH].
  intros Hin. apply list_elem_of_fmap in Hin as (y & Hxy & Hy).
  rewrite Forall_forall in Hx. by destruct (Hx y Hy) as [_ Hne].
Qed.

(** ** The listing of [time_travel] *)

(** The rows behind the listing: for each path that matches the pattern and
    has a row at or before [t], one row, the one of highest version among
    those. *)
Lemma select_time_travel_spec rows pat t :
  let selected := select_time_travel rows pat t in
  (forall y, y ∈ selected ->
     y ∈ rows /\ sql_like pat (file_path y) = true /\ timestamp y <= t
     /\ forall z, z ∈ rows -> file_path z = file_path y -> timestamp z <= t ->
          version_number z <= version_number y)
  /\ (forall z, z ∈ rows -> sql_like pat (file_path z) = true -> timestamp z <= t ->
        exists y, y ∈ selected /\ file_path y = file_path z)
  /\ StronglySorted
       (fun a b => String.le (file_path a) (file_path b) /\ file_path a ≠ file_path b)
       selected.
Proof.
  intros selected. subst selected. unfold select_time_travel.
  set (Q := fun r => sql_like pat (file_path r) = true /\ timestamp r <= t).
  pose proof (sort_by_path_sorted (filter Q rows)) as Hs.
  assert (forall x, x ∈ sort_by path_then_version_desc (filter Q rows)
                    <-> Q x /\ x ∈ rows) as Hin
    by (intros x; by rewrite elem_of_sort_by, list_elem_of_filter).
  split; [| split].
  - intros y Hy. pose proof (elem_of_distinct_on_path _ _ _ Hy) as Hy'.
    apply Hin in Hy' as [[Hlike Ht] Hy']. repeat (split; [assumption |]).
    intros z Hz Hp Htz.
    apply (distinct_on_path_highest _ None Hs); [discriminate | exact Hy | | exact Hp].
    apply Hin. split; [| exact Hz]. split; [by rewrite Hp | exact Htz].
  - intros z Hz Hlike Ht. apply distinct_on_path_complete; [| discriminate].
    apply Hin. by repeat split.
  - by apply distinct_on_path_strict.
Qed.

(** ** LIKE with a literal prefix *)

Lemma sql_like_percent s : sql_like "%" s = true.
Proof.
  assert (forall s,
            (fix any_suffix (s : string) : bool :=
               at_char_start s && sql_like "" s
               || match s with
                  | EmptyString => false
                  | String _ s' => any_suffix s'
                  end) s = true) as Hany.
  { clear s. induction s as [|c s IH]; [reflexivity |].
    rewrite IH. apply orb_true_r. }
  exact (Hany s).
Qed.

(** [_] takes one character, of however many bytes: e-acute is two bytes,
    the euro sign three. *)
Lemma sql_like_underscore_one_character :
  sql_like "/home/u/_.txt%" "/home/u/é.txt" = true
  /\ sql_like "/home/u/_.txt%" "/home/u/€.txt" = true
  /\ sql_like "/home/u/__.txt%" "/home/u/é.txt" = false
  /\ sql_like "/home/u/_.txt%" "/home/u/ab.txt" = false
  /\ sql_like "/home/u/%.txt" "/home/u/é.txt" = true.
Proof. repeat split; vm_compute; reflexivity. Qed.

(** For a directory without LIKE's special characters, the pattern
    [directory + "%"] matches the paths that start with the directory. *)
Lemma sql_like_prefix d : forall s,
  like_literal d = true -> sql_like (d +:+ "%") s = String.prefix d s.
Proof.
  induction d as [|c d IH]; intros s Hlit.
  - rewrite sql_like_percent. by destruct s.
  - unfold like_literal in Hlit. cbn [string_forallb] in Hlit.
    apply andb_prop in Hlit as [Hc Hd].
    unfold like_special in Hc. apply negb_true_iff in Hc.
    apply orb_false_iff in Hc as [Hc H3]. apply orb_false_iff in Hc as [H1 H2].
    rewrite append_cons. cbn [sql_like]. rewrite H1, H2, H3.
    destruct s as [|x s]; [reflexivity |].
    cbn [String.prefix]. destruct (ascii_dec c x) as [-> | Hne].
    + rewrite bool_decide_eq_true_2 by done. by apply IH.
    + by rewrite bool_decide_eq_false_2.
Qed.

(** ** The further properties *)

Lemma get_history_eq p limit offset w :
  get_history p limit offset w
  = (Return (select_history (catalog w) p limit offset,
             Z.of_nat (length (rows_of (catalog w) p))), w).
Proof. reflexivity. Qed.

Lemma length_select_history rows p limit offset :
  length (select_history rows p limit offset)
  = Nat.min limit (length (rows_of rows p) - offset).
Proof.
  unfold select_history. by rewrite length_take, length_drop, length_sort_by.
Qed.

Lemma time_travel_eq directory t w :
  time_travel directory t w
  = (Return
       (mkTimeTravel directory t
          (file_entry <$> select_time_travel (catalog w) (directory +:+ "%") t)
          (Z.of_nat
             (length
                (file_entry
                   <$> select_time_travel (catalog w) (directory +:+ "%") t)))),
     w).
Proof. reflexivity. Qed.

Lemma store_intact_empty self : store_intact self ∅.
Proof. intros c0 c H. exfalso. rewrite lookup_empty in H. discriminate H. Defined.

Lemma scenario_outside : Forall (event_outside_store svc) scenario_events.
Proof. repeat constructor. Defined.

Lemma later_outside : Forall (event_outside_store svc) later_events.
Proof. repeat constructor. Defined.

Lemma a_txt_outside : outside_store svc a_txt.
Proof. reflexivity. Defined.

Lemma a_txt_has_directory : os_path_dirname a_txt ≠ EmptyString.
Proof. vm_compute. discriminate. Defined.

Lemma x_y_digests_differ :
  SHA256.hexdigest (bytes_of "X") ≠ SHA256.hexdigest (bytes_of "Y").
Proof. vm_compute. discriminate. Defined.

(** X1: [_compute_hash] never raises and changes nothing.  For a file that
    can be read it returns the SHA-256 digest of the content, which is 64
    lower-case hexadecimal digits; for a file that cannot be read it returns
    [None]. *)
Theorem compute_hash_digest_shape p w :
  snd (_compute_hash p w) = w
  /\ match files w !! p with
     | Some c =>
         fst (_compute_hash p w) = Return (Some (SHA256.hexdigest c))
         /\ String.length (SHA256.hexdigest c) = 64%nat
         /\ string_forallb is_hex_digit (SHA256.hexdigest c) = true
     | None => fst (_compute_hash p w) = Return None
     end.
Proof.
  unfold _compute_hash. unfold_m. split; [reflexivity |].
  destruct (files w !! p) as [c|]; [| reflexivity].
  split; [reflexivity |]. split; [apply hexdigest_length | apply hexdigest_hex].
Qed.

(** X2: for the digest [h] of any content, [_get_storage_path] returns the
    storage root joined with the first two digits of [h], then a slash, then
    [h]; the shard directory has a two-character name and the location lies
    under the storage root. *)
Theorem get_storage_path_layout self c w :
  let h := SHA256.hexdigest c in
  let loc := os_path_join (storage_path self) (substring 0 2 h) +:+ "/" +:+ h in
  _get_storage_path self h w = (Return loc, w)
  /\ String.length (substring 0 2 h) = 2%nat
  /\ String.prefix (storage_path self) loc = true.
Proof.
  intros h loc. subst h loc.
  destruct (blob_location_digest self _ (hexdigest_length c) (hexdigest_hex c))
    as (Hloc & Hlen & _ & Hpre).
  rewrite get_storage_path_eq by apply hexdigest_truthy.
  rewrite <- Hloc. by repeat split.
Qed.

(** X3: the storage location determines the digest: for two contents with
    different digests, [_get_storage_path] returns different locations. *)
Theorem get_storage_path_separates_digests self c1 c2 w1 w2 :
  SHA256.hexdigest c1 ≠ SHA256.hexdigest c2 ->
  fst (_get_storage_path self (SHA256.hexdigest c1) w1)
  ≠ fst (_get_storage_path self (SHA256.hexdigest c2) w2).
Proof.
  intros Hne. rewrite !get_storage_path_eq by apply hexdigest_truthy.
  cbn [fst]. intros [= Heq]. by apply Hne, (blob_location_inj self).
Qed.

Lemma get_storage_path_separates_digests_witness :
  SHA256.hexdigest (bytes_of "X") ≠ SHA256.hexdigest (bytes_of "Y")
  /\ fst (_get_storage_path svc (SHA256.hexdigest (bytes_of "X")) empty_world)
     ≠ fst (_get_storage_path svc (SHA256.hexdigest (bytes_of "Y")) empty_world).
Proof.
  split; [exact x_y_digests_differ |].
  exact (get_storage_path_separates_digests svc (bytes_of "X") (bytes_of "Y")
           empty_world empty_world x_y_digests_differ).
Defined.

(** X4: one call of [record_version] never raises.  It appends at most one
    row to the table and removes or changes none; it leaves every existing
    file as it is; and the only file it can create is the blob of the live
    file's content, at the location of that content's digest. *)
Theorem record_version_adds_only self db p op md w :
  let r := record_version self db p op md w in
  (exists i, fst r = Return i)
  /\ (exists added, catalog (snd r) = catalog w ++ added /\ (length added <= 1)%nat)
  /\ (forall q c, files w !! q = Some c -> files (snd r) !! q = Some c)
  /\ (forall q, files w !! q = None -> files (snd r) !! q ≠ None ->
        exists c, files w !! p = Some c
                  /\ q = blob_location self (SHA256.hexdigest c)
                  /\ files (snd r) !! q = Some c).
Proof.
  intros r. subst r. split; [| apply record_version_only_adds].
  destruct (record_version_returns self db p op md w) as [i Hi].
  exists i. by rewrite Hi.
Qed.

(** X5: for the operations delete and rename, and for a live file that
    cannot be read, [record_version] does not deduplicate: it always appends
    a row, numbered one above the path's highest version, with the digest
    and blob location of the live content (both NULL when the file is
    missing), and returns the new row's id. *)
Theorem record_version_always_inserts self db p op md w :
  op ∈ ["delete"; "rename"]%string \/ files w !! p = None ->
  record_version self db p op md w
  = (Return (Some (new_id db)),
     mkWorld
       (catalog w
        ++ [mkRow (new_id db) p (select_current_version (catalog w) p + 1) op
              (SHA256.hexdigest <$> files w !! p)
              (blob_location self <$> (SHA256.hexdigest <$> files w !! p))
              (from_option (fun c => Z.of_nat (length c)) 0 (files w !! p))
              (now db) (metadata_json md)])
       (with_blob self (files w) (files w !! p))).
Proof.
  intros H. apply record_version_insert. destruct H as [H | H]; [by right | left].
  by rewrite H.
Qed.

Lemma record_version_always_inserts_witness :
  ("delete"%string ∈ ["delete"; "rename"]%string
   \/ files scenario_world !! a_txt = None)
  /\ record_version svc (mkDb 104%N 4000) a_txt "delete" None scenario_world
     = (Return (Some (new_id (mkDb 104%N 4000))),
        mkWorld
          (catalog scenario_world
           ++ [mkRow (new_id (mkDb 104%N 4000)) a_txt
                 (select_current_version (catalog scenario_world) a_txt + 1)
                 "delete"
                 (SHA256.hexdigest <$> files scenario_world !! a_txt)
                 (blob_location svc
                    <$> (SHA256.hexdigest <$> files scenario_world !! a_txt))
                 (from_option (fun c => Z.of_nat (length c)) 0
                    (files scenario_world !! a_txt))
                 (now (mkDb 104%N 4000)) (metadata_json None)])
          (with_blob svc (files scenario_world) (files scenario_world !! a_txt))).
Proof.
  split; [left; constructor |].
  exact (record_version_always_inserts svc (mkDb 104%N 4000) a_txt "delete" None
           scenario_world (or_introl (list_elem_of_here _ _))).
Defined.

(** X6: recording is idempotent while the file stays the same: after any
    call of [record_version] on a readable file, a second call for a soft
    operation (neither delete nor rename) changes nothing and returns the
    same id as the first. *)
Theorem record_version_twice self db1 db2 p op1 op2 md1 md2 c w :
  files w !! p = Some c ->
  op2 ∉ ["delete"; "rename"]%string ->
  record_version self db2 p op2 md2 (snd (record_version self db1 p op1 md1 w))
  = record_version self db1 p op1 md1 w.
Proof.
  intros Hp Hop2.
  destruct (record_version_cases self db1 p op1 md1 w) as [[Heq [[i Hi] Hop1]] | Heq].
  - rewrite Heq. cbn [snd]. rewrite Hi. by apply record_version_dedup.
  - rewrite Heq. cbn [snd]. rewrite Hp.
    apply record_version_dedup; [| exact Hop2]. cbn [catalog files].
    rewrite (with_blob_lookup_Some _ _ _ _ _ Hp). cbn [fmap option_fmap option_map].
    apply (select_existing_snoc_new (catalog w)
             (recorded_row self db1 (catalog w) p op1 md1 (Some c))); [done | done |].
    intros r' Hin Hp'. cbn [recorded_row version_number].
    pose proof (select_current_version_ub (catalog w) p r' Hin Hp'). lia.
Qed.

Lemma record_version_twice_witness :
  files twins_world !! a_txt = Some (bytes_of "X")
  /\ ("modify"%string ∉ ["delete"; "rename"]%string)
  /\ record_version svc (mkDb 502%N 200) a_txt "modify" None
       (snd (record_version svc (mkDb 501%N 100) a_txt "create" None twins_world))
     = record_version svc (mkDb 501%N 100) a_txt "create" None twins_world.
Proof.
  split; [reflexivity |]. split; [exact soft_modify |].
  exact (record_version_twice svc (mkDb 501%N 100) (mkDb 502%N 200) a_txt
           "create" "modify" None None (bytes_of "X") twins_world eq_refl
           soft_modify).
Defined.

(** X7: [restore_version] never raises and always answers.  It appends at
    most two rows and removes or changes none, and it leaves every file
    other than the restored path as it is.  Either it reports failure and
    the live file is as before; or it reports success for the row it
    resolved, that row has a storage location other than the path itself,
    a file was stored there, the path has a directory part, and the live
    file now holds the stored content. *)
Theorem restore_version_fails_safe self db1 db2 p tv tts w :
  let r := restore_version self db1 db2 p tv tts w in
  (exists added, catalog (snd r) = catalog w ++ added /\ (length added <= 2)%nat)
  /\ (forall q c, q ≠ p -> files w !! q = Some c -> files (snd r) !! q = Some c)
  /\ ((exists resp, fst r = Return resp /\ success resp = false
                    /\ files (snd r) !! p = files w !! p)
      \/ (exists row loc c,
            resolve_target (catalog w) p tv tts = Some row
            /\ storage_location row = Some loc
            /\ files w !! loc = Some c
            /\ loc ≠ p /\ os_path_dirname p ≠ EmptyString
            /\ fst r = Return (mkUndoResponse true p (version_number row)
                                 (RestoredTo (version_number row)))
            /\ files (snd r) !! p = Some c)).
Proof.
  intros r. subst r. split; [apply restore_version_adds_at_most_two |].
  split; [intros q c; apply restore_version_other_files |].
  apply restore_version_outcome.
Qed.

(** X8: a path without a slash (a bare file name) cannot be restored: the
    directory to recreate is the empty path, on which [os.makedirs] fails.
    Whatever the table and the store hold, the call reports failure and the
    live file is as before.  When a row resolves and its blob is in the
    store, the call gets as far as the pre-restore snapshot and then ends in
    the error response of the failed [os.makedirs]. *)
Theorem restore_bare_name self db1 db2 p tv tts w :
  has_slash p = false ->
  let r := restore_version self db1 db2 p tv tts w in
  (exists resp,
     fst r = Return resp /\ success resp = false
     /\ files (snd r) !! p = files w !! p)
  /\ (forall row loc,
        resolve_target (catalog w) p tv tts = Some row ->
        storage_location row = Some loc -> loc ≠ EmptyString ->
        is_Some (files w !! loc) ->
        r = (Return (mkUndoResponse false p 0 (ErrorRestoring FileNotFoundError)),
             snd (record_version self db1 p "pre_restore" None w))).
Proof.
  intros Hbare r. subst r. split.
  - destruct (restore_version_outcome self db1 db2 p tv tts w)
      as [Hfail | (row & loc & c & _ & _ & _ & _ & Hdir & _)].
    + exact Hfail.
    + exfalso. apply Hdir. by apply dirname_no_slash.
  - intros row loc Hres Hloc Hne Hsome.
    assert (truthy_str loc = true) as Htr.
    { unfold truthy_str. by rewrite bool_decide_eq_false_2. }
    rewrite (restore_version_stored _ _ _ _ _ _ _ _ _ Hres Hloc Htr Hsome).
    rewrite bool_decide_eq_true_2 by (by apply dirname_no_slash).
    reflexivity.
Qed.

Lemma notes_resolves_first :
  resolve_target (catalog notes_world) notes_txt None None = Some notes_first.
Proof. vm_compute. reflexivity. Defined.

Lemma notes_first_location :
  storage_location notes_first = Some (blob_location svc x_digest).
Proof. vm_compute. reflexivity. Defined.

Lemma notes_first_location_nonempty : blob_location svc x_digest ≠ EmptyString.
Proof. vm_compute. discriminate. Defined.

Lemma notes_first_stored :
  is_Some (files notes_world !! blob_location svc x_digest).
Proof. exists (bytes_of "X"). vm_compute. reflexivity. Defined.

Lemma restore_bare_name_witness :
  has_slash notes_txt = false
  /\ resolve_target (catalog notes_world) notes_txt None None = Some notes_first
  /\ storage_location notes_first = Some (blob_location svc x_digest)
  /\ blob_location svc x_digest ≠ EmptyString
  /\ is_Some (files notes_world !! blob_location svc x_digest)
  /\ (exists resp,
        fst (restore_version svc (mkDb 603%N 3000) (mkDb 604%N 4000) notes_txt
               None None notes_world) = Return resp
        /\ success resp = false
        /\ files (snd (restore_version svc (mkDb 603%N 3000) (mkDb 604%N 4000)
                         notes_txt None None notes_world)) !! notes_txt
           = files notes_world !! notes_txt)
  /\ restore_version svc (mkDb 603%N 3000) (mkDb 604%N 4000) notes_txt None None
       notes_world
     = (Return (mkUndoResponse false notes_txt 0
                  (ErrorRestoring FileNotFoundError)),
        snd (record_version svc (mkDb 603%N 3000) notes_txt "pre_restore" None
               notes_world)).
Proof.
  split; [reflexivity |]. split; [exact notes_resolves_first |].
  split; [exact notes_first_location |].
  split; [exact notes_first_location_nonempty |].
  split; [exact notes_first_stored |].
  split.
  - exact (proj1 (restore_bare_name svc (mkDb 603%N 3000) (mkDb 604%N 4000)
                    notes_txt None None notes_world eq_refl)).
  - exact (proj2 (restore_bare_name svc (mkDb 603%N 3000) (mkDb 604%N 4000)
                    notes_txt None None notes_world eq_refl)
             notes_first (blob_location svc x_digest) notes_resolves_first
             notes_first_location notes_first_location_nonempty
             notes_first_stored).
Defined.

(** X9: the table is append-only along a run of recordings, restores and
    file changes: the rows present stay, in place and unchanged, and at most
    one row is added per reading of the database clock (one per recording,
    two per restore). *)
Theorem run_appends self events : forall w,
  exists added,
    catalog (run self events w) = catalog w ++ added
    /\ (length added <= length (clock_of_run events))%nat.
Proof.
  induction events as [|e events IH]; intros w.
  { exists []. split; [by rewrite app_nil_r | simpl; lia]. }
  rewrite run_cons. destruct (IH (apply_event self w e)) as (added & -> & Hlen).
  assert (exists added0, catalog (apply_event self w e) = catalog w ++ added0
                         /\ (length added0 <= length (clock_readings e))%nat)
    as (added0 & -> & Hlen0).
  { destruct e as [db p op | db1 db2 p tv tts | p c | p]; cbn [apply_event clock_readings].
    - destruct (record_version_only_adds self db p op None w) as [(a & Ha & Hl) _].
      by exists a.
    - apply restore_version_adds_at_most_two.
    - exists []. split; [by rewrite app_nil_r | simpl; lia].
    - exists []. split; [by rewrite app_nil_r | simpl; lia]. }
  exists (added0 ++ added). split; [by rewrite app_assoc |].
  unfold clock_of_run in *. cbn [mbind list_bind]. rewrite !length_app. lia.
Qed.

(** X10: blobs are immutable.  Along a run whose file writes, removals and
    restores stay outside the storage root, a blob once stored keeps its
    content: no recording and no restore overwrites or removes it. *)
Theorem run_keeps_blobs self events w c0 c :
  Forall (event_outside_store self) events ->
  files w !! blob_location self (SHA256.hexdigest c0) = Some c ->
  files (run self events w) !! blob_location self (SHA256.hexdigest c0) = Some c.
Proof.
  intros Hev Hc.
  apply (run_preserves self
           (fun w => files w !! blob_location self (SHA256.hexdigest c0) = Some c));
    try done.
  - intros db p op md w' Hw'. by apply record_version_files_lookup.
  - intros p c' w' Hp Hw'. cbn [files]. rewrite lookup_insert_ne; [done |].
    by apply outside_store_not_blob.
  - intros p w' Hp Hw'. cbn [files]. rewrite lookup_delete_ne; [done |].
    by apply outside_store_not_blob.
Qed.

Lemma run_keeps_blobs_witness :
  Forall (event_outside_store svc) later_events
  /\ files scenario_world !! blob_location svc (SHA256.hexdigest (bytes_of "X"))
     = Some (bytes_of "X")
  /\ files (run svc later_events scenario_world)
       !! blob_location svc (SHA256.hexdigest (bytes_of "X"))
     = Some (bytes_of "X").
Proof.
  assert (files scenario_world !! blob_location svc (SHA256.hexdigest (bytes_of "X"))
          = Some (bytes_of "X")) as Hblob by (vm_compute; reflexivity).
  split; [exact later_outside |]. split; [exact Hblob |].
  exact (run_keeps_blobs svc later_events scenario_world (bytes_of "X")
           (bytes_of "X") later_outside Hblob).
Defined.

(** X11: the table and the store stay consistent.  Start from an empty
    table and a store whose blobs hold what their names say; along a run
    that keeps out of the store, every row that has a digest has the blob
    location of that digest as its storage location, and a file is stored
    there whose SHA-256 digest is the row's digest. *)
Theorem run_rows_backed self events w0 :
  catalog w0 = [] -> store_intact self (files w0) ->
  Forall (event_outside_store self) events ->
  rows_backed self (run self events w0).
Proof. intros Hempty Hint Hev. by apply store_inv_from_empty. Qed.

Lemma run_rows_backed_witness :
  catalog empty_world = []
  /\ store_intact svc (files empty_world)
  /\ Forall (event_outside_store svc) scenario_events
  /\ rows_backed svc (run svc scenario_events empty_world).
Proof.
  split; [reflexivity |]. split; [exact (store_intact_empty svc) |].
  split; [exact scenario_outside |].
  exact (run_rows_backed svc scenario_events empty_world eq_refl
           (store_intact_empty svc) scenario_outside).
Defined.

(** X12: every recorded version that has content can be restored.  In a
    run that starts from an empty table and an intact store and keeps out
    of the store, for a row of the table with a digest, whose path lies
    outside the store and has a directory part, [restore_version] with that
    row's version number reports success for that version, and the live
    file then holds content of the row's digest. *)
Theorem restore_recorded_version self events w0 db1 db2 p row h :
  catalog w0 = [] -> store_intact self (files w0) ->
  Forall (event_outside_store self) events ->
  let w := run self events w0 in
  row ∈ catalog w -> file_path row = p -> content_hash row = Some h ->
  outside_store self p -> os_path_dirname p ≠ EmptyString ->
  let r := restore_version self db1 db2 p (Some (version_number row)) None w in
  fst r = Return (mkUndoResponse true p (version_number row)
                    (RestoredTo (version_number row)))
  /\ exists c, files (snd r) !! p = Some c /\ SHA256.hexdigest c = h.
Proof.
  intros Hempty Hint Hev w Hin Hp Hh Hout Hdir.
  apply (restore_resolved self db1 db2 p _ _ w row h); try assumption.
  - by apply store_inv_from_empty.
  - pose proof (run_gapless self events w0 Hempty p) as Hg. fold w in Hg.
    unfold resolve_target, truthy_int.
    pose proof (gapless_versions _ _ _ Hg Hin Hp) as Hv.
    rewrite bool_decide_eq_false_2 by lia. cbn [negb].
    by apply select_version_unique.
Qed.

Lemma scenario_first_recorded :
  scenario_first ∈ catalog (run svc scenario_events empty_world).
Proof. apply (bool_decide_unpack _). vm_compute. exact I. Defined.

Lemma scenario_first_digest : content_hash scenario_first = Some x_digest.
Proof. vm_compute. reflexivity. Defined.

Lemma restore_recorded_version_witness :
  catalog empty_world = []
  /\ store_intact svc (files empty_world)
  /\ Forall (event_outside_store svc) scenario_events
  /\ scenario_first ∈ catalog (run svc scenario_events empty_world)
  /\ file_path scenario_first = a_txt
  /\ content_hash scenario_first = Some x_digest
  /\ outside_store svc a_txt
  /\ os_path_dirname a_txt ≠ EmptyString
  /\ fst (restore_version svc (mkDb 104%N 4000) (mkDb 105%N 5000) a_txt
            (Some (version_number scenario_first)) None
            (run svc scenario_events empty_world))
     = Return (mkUndoResponse true a_txt (version_number scenario_first)
                 (RestoredTo (version_number scenario_first)))
  /\ exists c,
       files (snd (restore_version svc (mkDb 104%N 4000) (mkDb 105%N 5000) a_txt
                     (Some (version_number scenario_first)) None
                     (run svc scenario_events empty_world))) !! a_txt = Some c
       /\ SHA256.hexdigest c = x_digest.
Proof.
  split; [reflexivity |]. split; [exact (store_intact_empty svc) |].
  split; [exact scenario_outside |]. split; [exact scenario_first_recorded |].
  split; [reflexivity |]. split; [exact scenario_first_digest |].
  split; [exact a_txt_outside |]. split; [exact a_txt_has_directory |].
  exact (restore_recorded_version svc scenario_events empty_world
           (mkDb 104%N 4000) (mkDb 105%N 5000) a_txt scenario_first x_digest
           eq_refl (store_intact_empty svc) scenario_outside
           scenario_first_recorded eq_refl scenario_first_digest a_txt_outside
           a_txt_has_directory).
Defined.

(** X13: undo goes one version back.  In a run that starts from an empty
    table and an intact store and keeps out of the store, a path outside
    the store with a directory part and [n >= 2] recorded versions has a
    row of version [n - 1]; if that row has content, [restore_version] with
    no target reports success for version [n - 1] and the live file then
    holds content of that row's digest. *)
Theorem run_undo self events w0 db1 db2 p :
  catalog w0 = [] -> store_intact self (files w0) ->
  Forall (event_outside_store self) events ->
  let w := run self events w0 in
  let n := length (rows_of (catalog w) p) in
  (2 <= n)%nat ->
  outside_store self p -> os_path_dirname p ≠ EmptyString ->
  exists row,
    row ∈ catalog w /\ file_path row = p /\ version_number row = Z.of_nat n - 1
    /\ forall h, content_hash row = Some h ->
         let r := restore_version self db1 db2 p None None w in
         fst r = Return (mkUndoResponse true p (Z.of_nat n - 1)
                           (RestoredTo (Z.of_nat n - 1)))
         /\ exists c, files (snd r) !! p = Some c /\ SHA256.hexdigest c = h.
Proof.
  intros Hempty Hint Hev w n Hn Hout Hdir.
  destruct (run_resolves_previous self events w0 p Hempty Hn) as (row & Hres & Hv).
  fold w in Hres. fold w n in Hv.
  destruct (resolve_target_elem _ _ _ _ _ Hres) as [Hin Hp].
  exists row. split; [exact Hin |]. split; [exact Hp |]. split; [exact Hv |].
  intros h Hh r. rewrite <- Hv. subst r.
  apply (restore_resolved self db1 db2 p None None w row h); try assumption.
  by apply store_inv_from_empty.
Qed.

Lemma scenario_two_versions :
  (2 <= length (rows_of (catalog (run svc scenario_events empty_world)) a_txt))%nat.
Proof. apply (bool_decide_unpack _). vm_compute. exact I. Defined.

Lemma run_undo_witness :
  catalog empty_world = []
  /\ store_intact svc (files empty_world)
  /\ Forall (event_outside_store svc) scenario_events
  /\ (2 <= length (rows_of (catalog (run svc scenario_events empty_world)) a_txt))%nat
  /\ outside_store svc a_txt
  /\ os_path_dirname a_txt ≠ EmptyString
  /\ exists row,
       row ∈ catalog (run svc scenario_events empty_world)
       /\ file_path row = a_txt
       /\ version_number row
          = Z.of_nat
              (length (rows_of (catalog (run svc scenario_events empty_world)) a_txt))
            - 1
       /\ forall h, content_hash row = Some h ->
            fst (restore_version svc (mkDb 104%N 4000) (mkDb 105%N 5000) a_txt
                   None None (run svc scenario_events empty_world))
            = Return
                (mkUndoResponse true a_txt
                   (Z.of_nat
                      (length
                         (rows_of (catalog (run svc scenario_events empty_world))
                            a_txt)) - 1)
                   (RestoredTo
                      (Z.of_nat
                         (length
                            (rows_of
                               (catalog (run svc scenario_events empty_world))
                               a_txt)) - 1)))
            /\ exists c,
                 files (snd (restore_version svc (mkDb 104%N 4000)
                               (mkDb 105%N 5000) a_txt None None
                               (run svc scenario_events empty_world))) !! a_txt
                 = Some c
                 /\ SHA256.hexdigest c = h.
Proof.
  split; [reflexivity |]. split; [exact (store_intact_empty svc) |].
  split; [exact scenario_outside |]. split; [exact scenario_two_versions |].
  split; [exact a_txt_outside |]. split; [exact a_txt_has_directory |].
  exact (run_undo svc scenario_events empty_world (mkDb 104%N 4000)
           (mkDb 105%N 5000) a_txt eq_refl (store_intact_empty svc)
           scenario_outside scenario_two_versions a_txt_outside
           a_txt_has_directory).
Defined.

(** X14: a restore that succeeds writes no row of operation restore.  In a
    run that starts from an empty table and an intact store and keeps out
    of the store, whenever [restore_version] reports success, the table is
    left as the pre-restore snapshot left it: the final [record_version]
    finds the restored digest among the versions of the path and returns
    early. *)
Theorem restore_in_run_writes_no_restore_row
    self events w0 db1 db2 p tv tts resp :
  catalog w0 = [] -> store_intact self (files w0) ->
  Forall (event_outside_store self) events ->
  let w := run self events w0 in
  let r := restore_version self db1 db2 p tv tts w in
  fst r = Return resp -> success resp = true ->
  catalog (snd r)
  = catalog (snd (record_version self db1 p "pre_restore" None w)).
Proof.
  intros Hempty Hint Hev w r Hresp Hsucc.
  assert (store_inv self w) as [_ Hrows] by (by apply store_inv_from_empty).
  destruct (restore_version_outcome self db1 db2 p tv tts w)
    as [(resp' & Hfst & Hfail & _)
       | (row & loc & c & Hres & Hloc & Hc & Hne & Hdir & _)].
  { fold r in Hfst. rewrite Hresp in Hfst. injection Hfst as <-. congruence. }
  destruct (resolve_target_elem _ _ _ _ _ Hres) as [Hin Hp].
  pose proof (run_rows_stored_by_digest self events w0 Hempty) as Hst.
  rewrite Forall_forall in Hst. specialize (Hst row Hin).
  unfold stored_by_digest in Hst.
  destruct (content_hash row) as [h|] eqn:Hh;
    [| rewrite Hloc in Hst; discriminate Hst].
  destruct (Hrows row h Hin Hh) as (Hloc' & c' & Hc' & Hd).
  rewrite Hloc in Hloc'. injection Hloc' as ->.
  rewrite Hc in Hc'. injection Hc' as <-. subst h r.
  rewrite (restore_version_logs_no_restore_row self db1 db2 p tv tts w row _ c
             Hres Hloc Hc Hh (blob_location_nonempty self c) Hdir Hne).
  reflexivity.
Qed.

Lemma scenario_restore_succeeds :
  fst (restore_version svc (mkDb 104%N 4000) (mkDb 105%N 5000) a_txt (Some 1)
         None (run svc scenario_events empty_world))
  = Return (mkUndoResponse true a_txt 1 (RestoredTo 1)).
Proof. vm_compute. reflexivity. Defined.

Lemma restore_in_run_writes_no_restore_row_witness :
  catalog empty_world = []
  /\ store_intact svc (files empty_world)
  /\ Forall (event_outside_store svc) scenario_events
  /\ fst (restore_version svc (mkDb 104%N 4000) (mkDb 105%N 5000) a_txt (Some 1)
            None (run svc scenario_events empty_world))
     = Return (mkUndoResponse true a_txt 1 (RestoredTo 1))
  /\ success (mkUndoResponse true a_txt 1 (RestoredTo 1)) = true
  /\ catalog (snd (restore_version svc (mkDb 104%N 4000) (mkDb 105%N 5000) a_txt
                     (Some 1) None (run svc scenario_events empty_world)))
     = catalog (snd (record_version svc (mkDb 104%N 4000) a_txt "pre_restore"
                       None (run svc scenario_events empty_world))).
Proof.
  split; [reflexivity |]. split; [exact (store_intact_empty svc) |].
  split; [exact scenario_outside |]. split; [exact scenario_restore_succeeds |].
  split; [reflexivity |].
  exact (restore_in_run_writes_no_restore_row svc scenario_events empty_world
           (mkDb 104%N 4000) (mkDb 105%N 5000) a_txt (Some 1) None
           (mkUndoResponse true a_txt 1 (RestoredTo 1)) eq_refl
           (store_intact_empty svc) scenario_outside scenario_restore_succeeds
           eq_refl).
Defined.

(** X15: the sweep is idempotent.  With unique row ids, a second call of
    [cleanup_old_versions] with the same cutoff and the same number of
    versions to keep deletes nothing and reports [0]. *)
Theorem cleanup_twice py_now days k w :
  NoDup (version_id <$> catalog w) ->
  let w1 := snd (cleanup_old_versions py_now days k w) in
  cleanup_old_versions py_now days k w1
  = (Return (mkCleanupReport (inr 0) (py_now - days * microseconds_per_day)), w1).
Proof.
  intros Hnd w1. subst w1. rewrite (cleanup_old_versions_eq _ _ _ w Hnd).
  cbn [snd]. set (cutoff := py_now - days * microseconds_per_day).
  set (rows := catalog w).
  set (rows' := filter (fun r => ~ to_delete rows cutoff k r) rows).
  assert (NoDup (version_id <$> rows')) as Hnd'.
  { eapply sublist_fmap_NoDup; [| exact Hnd]. apply sublist_filter. }
  rewrite cleanup_old_versions_eq by exact Hnd'.
  cbn [catalog files]. fold cutoff.
  assert (forall r, r ∈ rows' -> ~ to_delete rows' cutoff k r) as Hspared.
  { intros r Hr Hdel. apply list_elem_of_filter in Hr as [Hnot Hin]. apply Hnot.
    eapply to_delete_sublist; [| exact Hin | exact Hdel].
    intros x Hx. by apply list_elem_of_filter in Hx as [_ Hx]. }
  rewrite (filter_none (to_delete rows' cutoff k)) by exact Hspared.
  rewrite (filter_all (fun r => ~ to_delete rows' cutoff k r)) by exact Hspared.
  reflexivity.
Qed.

Lemma cleanup_twice_witness :
  NoDup (version_id <$> catalog five_world)
  /\ cleanup_old_versions 100 0 3 (snd (cleanup_old_versions 100 0 3 five_world))
     = (Return (mkCleanupReport (inr 0) (100 - 0 * microseconds_per_day)),
        snd (cleanup_old_versions 100 0 3 five_world)).
Proof.
  split; [exact five_ids_distinct |].
  exact (cleanup_twice 100 0 3 five_world five_ids_distinct).
Defined.

(** X16: the sweep never deletes a path's latest version.  With unique row
    ids and a non-negative number of versions to keep, every path has the
    same highest version number after [cleanup_old_versions] as before, so
    the next version recorded gets the number it would have got without the
    sweep. *)
Theorem cleanup_keeps_current_version py_now days k w p :
  NoDup (version_id <$> catalog w) -> 0 <= k ->
  select_current_version (catalog (snd (cleanup_old_versions py_now days k w))) p
  = select_current_version (catalog w) p.
Proof.
  intros Hnd Hk. rewrite (cleanup_old_versions_eq _ _ _ w Hnd). cbn [snd catalog].
  set (cutoff := py_now - days * microseconds_per_day).
  set (rows := catalog w).
  set (rows' := filter (fun r => ~ to_delete rows cutoff k r) rows).
  unfold select_current_version.
  destruct (sql_max (version_number <$> rows_of rows p)) as [m|] eqn:Hm.
  - pose proof Hm as Hhigh. apply highest_version_sql_max in Hhigh.
    destruct Hhigh as [(r & Hin & Hp & Hv) Hub].
    assert (sql_max (version_number <$> rows_of rows' p) = Some m) as ->; [| reflexivity].
    apply highest_version_sql_max. split.
    + exists r. split; [| by split]. apply list_elem_of_filter. split; [| exact Hin].
      intros [_ Hdel]. rewrite Hp, Hm in Hdel. lia.
    + intros x Hx Hxp. apply list_elem_of_filter in Hx as [_ Hx]. by apply Hub.
  - apply sql_max_None in Hm. apply fmap_nil_inv in Hm.
    assert (rows_of rows' p = []) as ->; [| reflexivity].
    apply filter_none. intros x Hx Hxp.
    apply list_elem_of_filter in Hx as [_ Hx].
    assert (x ∈ rows_of rows p) as Hin by (by apply elem_of_rows_of).
    rewrite Hm in Hin. by apply elem_of_nil in Hin.
Qed.

Lemma cleanup_keeps_current_version_witness :
  NoDup (version_id <$> catalog five_world)
  /\ 0 <= 3
  /\ select_current_version
       (catalog (snd (cleanup_old_versions 100 0 3 five_world))) a_txt
     = select_current_version (catalog five_world) a_txt.
Proof.
  split; [exact five_ids_distinct |]. split; [lia |].
  exact (cleanup_keeps_current_version 100 0 3 five_world a_txt
           five_ids_distinct ltac:(lia)).
Defined.

(** X17: what [cleanup_old_versions] reports as [deleted_versions] is not a
    count.  With unique row ids, the call returns the cutoff it used, and
    the value reported is either [0], and then nothing was deleted and the
    world is unchanged, or the id of one of the rows the sweep deleted. *)
Theorem cleanup_report py_now days k w :
  NoDup (version_id <$> catalog w) ->
  let r := cleanup_old_versions py_now days k w in
  exists report,
    fst r = Return report
    /\ cutoff_date report = py_now - days * microseconds_per_day
    /\ match deleted_versions report with
       | inr n => n = 0 /\ snd r = w
       | inl i =>
           exists row, version_id row = i /\ row ∈ catalog w
                       /\ row ∉ catalog (snd r)
       end.
Proof.
  intros Hnd r. subst r. rewrite (cleanup_old_versions_eq _ _ _ w Hnd).
  set (cutoff := py_now - days * microseconds_per_day).
  eexists. split; [reflexivity |]. split; [reflexivity |].
  cbn [deleted_versions snd catalog].
  destruct (filter (to_delete (catalog w) cutoff k) (catalog w)) as [|row l] eqn:Hdel.
  - split; [reflexivity |].
    rewrite filter_all; [by destruct w |].
    intros x Hx Hd.
    assert (x ∈ filter (to_delete (catalog w) cutoff k) (catalog w)) as Hin
      by (by apply list_elem_of_filter).
    rewrite Hdel in Hin. by apply elem_of_nil in Hin.
  - assert (row ∈ filter (to_delete (catalog w) cutoff k) (catalog w)) as Hin
      by (rewrite Hdel; set_solver).
    apply list_elem_of_filter in Hin as [Hd Hin].
    exists row. split; [reflexivity |]. split; [exact Hin |].
    intros Hkept. by apply list_elem_of_filter in Hkept as [Hnot _].
Qed.

Lemma cleanup_report_witness :
  NoDup (version_id <$> catalog five_world)
  /\ exists report,
       fst (cleanup_old_versions 100 0 3 five_world) = Return report
       /\ cutoff_date report = 100 - 0 * microseconds_per_day
       /\ match deleted_versions report with
          | inr n => n = 0 /\ snd (cleanup_old_versions 100 0 3 five_world) = five_world
          | inl i =>
              exists row, version_id row = i /\ row ∈ catalog five_world
                          /\ row ∉ catalog (snd (cleanup_old_versions 100 0 3 five_world))
          end.
Proof.
  split; [exact five_ids_distinct |].
  exact (cleanup_report 100 0 3 five_world five_ids_distinct).
Defined.

(** X18: [get_history] never raises and changes nothing.  The page it
    returns holds rows of the table with the path asked for only, in
    descending order of version number, [limit] of them or as many as are
    left after skipping [offset]; the total returned with it counts all rows
    of the path, whatever the page asked for. *)
Theorem get_history_page p limit offset w :
  exists page,
    get_history p limit offset w
    = (Return (page, Z.of_nat (length (rows_of (catalog w) p))), w)
    /\ length page = Nat.min limit (length (rows_of (catalog w) p) - offset)
    /\ Forall (fun r => r ∈ catalog w /\ file_path r = p) page
    /\ StronglySorted (fun a b => version_number b <= version_number a) page.
Proof.
  unfold get_history. unfold_m. eexists. split; [reflexivity |].
  unfold select_history.
  set (sorted := sort_by (desc version_number) (rows_of (catalog w) p)).
  split; [| split].
  - rewrite length_take, length_drop. unfold sorted. by rewrite length_sort_by.
  - apply Forall_forall. intros r Hr.
    apply subseteq_take, subseteq_drop in Hr.
    apply elem_of_sort_by, elem_of_rows_of in Hr. tauto.
  - pose proof (sort_by_desc_strongly_sorted version_number (rows_of (catalog w) p))
      as Hs. fold sorted in Hs.
    rewrite <- (take_drop offset sorted) in Hs. apply StronglySorted_app_1_r in Hs.
    rewrite <- (take_drop limit (drop offset sorted)) in Hs.
    by apply StronglySorted_app_1_l in Hs.
Qed.

(** X19: pages of [get_history] fit together: the page of [l1] rows at
    [offset] followed by the page of [l2] rows at [offset + l1] is the page
    of [l1 + l2] rows at [offset], and all three calls report the same
    total. *)
Theorem get_history_next_page p l1 l2 offset w :
  exists page1 page2 total,
    fst (get_history p l1 offset w) = Return (page1, total)
    /\ fst (get_history p l2 (offset + l1) w) = Return (page2, total)
    /\ fst (get_history p (l1 + l2) offset w) = Return (page1 ++ page2, total).
Proof.
  unfold get_history. unfold_m. cbn [fst]. do 3 eexists.
  split; [reflexivity |]. split; [reflexivity |].
  unfold select_history. by rewrite <- drop_drop, take_take_drop.
Qed.

(** X20: the history of a path in a run that starts from an empty table:
    with [n] versions recorded, the total is [n], and the page at [offset]
    lists versions [n - offset], [n - offset - 1], and so on: the entry at
    index [i] of the page is version [n - offset - i]. *)
Theorem run_history self events w0 p limit offset :
  catalog w0 = [] ->
  let w := run self events w0 in
  let n := length (rows_of (catalog w) p) in
  exists page,
    fst (get_history p limit offset w) = Return (page, Z.of_nat n)
    /\ length page = Nat.min limit (n - offset)
    /\ forall i row, page !! i = Some row ->
         version_number row = Z.of_nat n - Z.of_nat offset - Z.of_nat i.
Proof.
  intros Hempty w n. rewrite get_history_eq. cbn [fst].
  eexists. split; [reflexivity |]. split; [apply length_select_history |].
  intros i row Hi. unfold select_history in Hi.
  apply lookup_take_Some in Hi as [Hi _]. rewrite lookup_drop in Hi.
  pose proof (run_gapless self events w0 Hempty p) as Hg.
  apply (history_gapless_lookup _ _ _ _ Hg) in Hi as [_ Hv]. subst n w. lia.
Qed.

Lemma run_history_witness :
  catalog empty_world = []
  /\ exists page,
       fst (get_history a_txt 2 1 (run svc five_events empty_world))
       = Return
           (page,
            Z.of_nat
              (length (rows_of (catalog (run svc five_events empty_world)) a_txt)))
       /\ length page
          = Nat.min 2
              (length (rows_of (catalog (run svc five_events empty_world)) a_txt)
               - 1)
       /\ forall i row, page !! i = Some row ->
            version_number row
            = Z.of_nat
                (length (rows_of (catalog (run svc five_events empty_world)) a_txt))
              - Z.of_nat 1 - Z.of_nat i.
Proof.
  split; [reflexivity |].
  exact (run_history svc five_events empty_world a_txt 2 1 eq_refl).
Defined.

(** X21: what [time_travel] lists.  The call never raises and changes
    nothing; it echoes the directory and the time, and [file_count] is the
    length of the list.  No path is listed twice.  Every entry comes from a
    row of the table whose path matches the pattern [directory + "%"] and
    whose timestamp is at or before the time asked for, and carries the
    highest version number among such rows of its path.  Every path that
    has such a row is listed. *)
Theorem time_travel_listing directory t w :
  exists tt,
    time_travel directory t w = (Return tt, w)
    /\ tt_directory tt = directory /\ tt_as_of tt = t
    /\ tt_file_count tt = Z.of_nat (length (tt_files tt))
    /\ NoDup (entry_file_path <$> tt_files tt)
    /\ (forall e, e ∈ tt_files tt ->
          exists row,
            row ∈ catalog w /\ e = file_entry row
            /\ sql_like (directory +:+ "%") (file_path row) = true
            /\ timestamp row <= t
            /\ forall z, z ∈ catalog w -> file_path z = file_path row ->
                 timestamp z <= t -> version_number z <= version_number row)
    /\ (forall z, z ∈ catalog w ->
          sql_like (directory +:+ "%") (file_path z) = true -> timestamp z <= t ->
          file_path z ∈ entry_file_path <$> tt_files tt).
Proof.
  rewrite time_travel_eq. eexists. split; [reflexivity |].
  cbn [tt_directory tt_as_of tt_file_count tt_files].
  do 3 (split; [reflexivity |]).
  destruct (select_time_travel_spec (catalog w) (directory +:+ "%") t)
    as (Hsound & Hcomplete & Hsorted).
  rewrite <- list_fmap_compose. split; [| split].
  - by apply (strictly_sorted_NoDup (entry_file_path ∘ file_entry) String.le).
  - intros e He. apply list_elem_of_fmap in He as (row & -> & Hrow).
    exists row. destruct (Hsound row Hrow) as (H1 & H2 & H3 & H4). by repeat split.
  - intros z Hz Hlike Ht. destruct (Hcomplete z Hz Hlike Ht) as (y & Hy & Hp).
    apply list_elem_of_fmap. exists y. by split.
Qed.

(** X22: for a directory string without the characters LIKE treats
    specially ([%], [_] and the backslash), [time_travel] lists exactly the
    paths that start with the directory string and have a row at or before
    the time asked for. *)
Theorem time_travel_prefix directory t w :
  like_literal directory = true ->
  exists tt,
    fst (time_travel directory t w) = Return tt
    /\ forall q,
         q ∈ entry_file_path <$> tt_files tt
         <-> String.prefix directory q = true
             /\ exists row, row ∈ catalog w /\ file_path row = q /\ timestamp row <= t.
Proof.
  intros Hlit. rewrite time_travel_eq. eexists. split; [reflexivity |].
  cbn [tt_files].
  destruct (select_time_travel_spec (catalog w) (directory +:+ "%") t)
    as (Hsound & Hcomplete & _).
  intros q. rewrite <- list_fmap_compose. split.
  - intros Hq. apply list_elem_of_fmap in Hq as (row & -> & Hrow).
    destruct (Hsound row Hrow) as (Hin & Hlike & Ht & _).
    rewrite sql_like_prefix in Hlike by exact Hlit.
    split; [exact Hlike | by exists row].
  - intros [Hpre (row & Hrow & <- & Ht)].
    destruct (Hcomplete row Hrow) as (y & Hy & Hp);
      [by rewrite sql_like_prefix | exact Ht |].
    apply list_elem_of_fmap. exists y. by split.
Qed.

Lemma time_travel_prefix_witness :
  like_literal "/home/u/" = true
  /\ exists tt,
       fst (time_travel "/home/u/" 2500 deleted_world) = Return tt
       /\ forall q,
            q ∈ entry_file_path <$> tt_files tt
            <-> String.prefix "/home/u/" q = true
                /\ exists row,
                     row ∈ catalog deleted_world /\ file_path row = q
                     /\ timestamp row <= 2500.
Proof.
  split; [reflexivity |].
  exact (time_travel_prefix "/home/u/" 2500 deleted_world eq_refl).
Defined.

(** ** Restoring with version 0 *)

(** C10: [target_version = 0] without a timestamp is not looked up as a
    version: the argument is tested for truth, so the call is the call
    without any selector.  In a run that starts from an empty table and an
    intact store and keeps out of the store, no row is numbered 0, so a
    lookup of version 0 would find nothing; yet for a path outside the
    store, with a directory part and [n >= 2] versions, the call resolves
    the row of the second-highest version number, [n - 1].  If that row has
    content the call reports success for version [n - 1] and the live file
    then holds content of the row's digest; if it has none the call reports
    that the content is not in storage, for version [n - 1], and changes
    nothing. *)
Theorem restore_version_zero_restores_previous self events w0 db1 db2 p :
  catalog w0 = [] -> store_intact self (files w0) ->
  Forall (event_outside_store self) events ->
  let w := run self events w0 in
  let n := Z.of_nat (length (rows_of (catalog w) p)) in
  2 <= n -> outside_store self p -> os_path_dirname p ≠ EmptyString ->
  let r := restore_version self db1 db2 p (Some 0) None w in
  select_version (catalog w) p 0 = None
  /\ r = restore_version self db1 db2 p None None w
  /\ exists row,
       resolve_target (catalog w) p (Some 0) None = Some row
       /\ row ∈ catalog w /\ file_path row = p /\ version_number row = n - 1
       /\ match content_hash row with
          | Some h =>
              fst r = Return (mkUndoResponse true p (n - 1) (RestoredTo (n - 1)))
              /\ exists c, files (snd r) !! p = Some c /\ SHA256.hexdigest c = h
          | None =>
              r = (Return (mkUndoResponse false p (n - 1) ContentNotFound), w)
          end.
Proof.
  intros Hempty Hint Hev w n Hn Hout Hdir r.
  pose proof (run_gapless self events w0 Hempty p) as Hg. fold w in Hg.
  split.
  { unfold select_version. apply head_filter_None. intros x Hx [Hp Hv].
    pose proof (gapless_versions _ _ _ Hg Hx Hp). lia. }
  split; [reflexivity |].
  destruct (run_resolves_previous self events w0 p Hempty) as (row & Hres & Hv);
    [fold w; subst n; lia |].
  fold w in Hres, Hv. fold n in Hv.
  destruct (resolve_target_elem _ _ _ _ _ Hres) as [Hin Hp].
  exists row. split; [exact Hres |]. split; [exact Hin |].
  split; [exact Hp |]. split; [exact Hv |].
  destruct (content_hash row) as [h|] eqn:Hh.
  - rewrite <- Hv.
    apply (restore_resolved self db1 db2 p (Some 0) None w row h); try assumption.
    by apply store_inv_from_empty.
  - rewrite <- Hv. subst r.
    apply (restore_version_no_blob self db1 db2 p (Some 0) None w row Hres).
    apply (no_digest_no_blob self); [| exact Hh].
    pose proof (run_rows_stored_by_digest self events w0 Hempty) as Hst.
    rewrite Forall_forall in Hst. by apply Hst.
Qed.

Lemma scenario_two_rows :
  2 <= Z.of_nat (length (rows_of (catalog (run svc scenario_events empty_world))
                           a_txt)).
Proof. vm_compute. discriminate. Defined.

Lemma restore_version_zero_restores_previous_witness :
  catalog empty_world = []
  /\ store_intact svc (files empty_world)
  /\ Forall (event_outside_store svc) scenario_events
  /\ 2 <= Z.of_nat (length (rows_of (catalog (run svc scenario_events empty_world))
                              a_txt))
  /\ outside_store svc a_txt
  /\ os_path_dirname a_txt ≠ EmptyString
  /\ let w := run svc scenario_events empty_world in
     let n := Z.of_nat (length (rows_of (catalog w) a_txt)) in
     let r := restore_version svc (mkDb 104%N 4000) (mkDb 105%N 5000) a_txt
                (Some 0) None w in
     select_version (catalog w) a_txt 0 = None
     /\ r = restore_version svc (mkDb 104%N 4000) (mkDb 105%N 5000) a_txt
              None None w
     /\ exists row,
          resolve_target (catalog w) a_txt (Some 0) None = Some row
          /\ row ∈ catalog w /\ file_path row = a_txt
          /\ version_number row = n - 1
          /\ match content_hash row with
             | Some h =>
                 fst r = Return (mkUndoResponse true a_txt (n - 1)
                                   (RestoredTo (n - 1)))
                 /\ exists c,
                      files (snd r) !! a_txt = Some c /\ SHA256.hexdigest c = h
             | None =>
                 r = (Return (mkUndoResponse false a_txt (n - 1) ContentNotFound),
                      w)
             end.
Proof.
  split; [reflexivity |]. split; [exact (store_intact_empty svc) |].
  split; [exact scenario_outside |]. split; [exact scenario_two_rows |].
  split; [exact a_txt_outside |]. split; [exact a_txt_has_directory |].
  exact (restore_version_zero_restores_previous svc scenario_events empty_world
           (mkDb 104%N 4000) (mkDb 105%N 5000) a_txt eq_refl
           (store_intact_empty svc) scenario_outside scenario_two_rows
           a_txt_outside a_txt_has_directory).
Defined.
